(** * The in-memory vector store and the retrieval pipeline

    A shallow embedding of [src/05-vector-stores.ts] (class
    [InMemoryVectorStore]) and of the retrieval class [SimpleRAG] that the
    same source carries, together with the properties of ranking,
    clustering and retrieval that hold of them.

    JavaScript numbers are IEEE 754 binary64 values.  They are modelled by
    the [spec_float] type of the standard library with precision 53 and
    maximal exponent 1024, whose operations are executable and round to
    nearest, ties to even, as the JavaScript arithmetic does. *)

From Stdlib Require Import ZArith Bool Lia Zpower.
From Stdlib Require Import Floats.SpecFloat.
From stdpp Require Import gmap strings list sorting.

Open Scope Z_scope.

(** ** JavaScript numbers *)

Module Num.

Definition prec : Z := 53.
Definition emax : Z := 1024.

Definition number : Type := spec_float.

Definition NaN : number := S754_nan.
Definition zero : number := S754_zero false.
Definition one : number := S754_finite false 4503599627370496 (-52).
(** The literal [-1] and the literal [0.99] (the binary64 value nearest to
    it, 0x1.fae147ae147aep-1). *)
Definition minus_one : number := S754_finite true 4503599627370496 (-52).
Definition c099 : number := S754_finite false 8917127262193582 (-53).

Definition fadd : number -> number -> number := SFadd prec emax.
Definition fsub : number -> number -> number := SFsub prec emax.
Definition fmul : number -> number -> number := SFmul prec emax.
Definition fdiv : number -> number -> number := SFdiv prec emax.
Definition fsqrt : number -> number := SFsqrt prec emax.

(** The relational operators [<], [>], [>=] and [==] of the language: every
    comparison with NaN is false. *)
Definition flt (x y : number) : bool := SFltb x y.
Definition fgt (x y : number) : bool := SFltb y x.
Definition fge (x y : number) : bool := SFleb y x.
Definition feq (x y : number) : bool := SFeqb x y.

Definition is_nan (x : number) : bool :=
  match x with S754_nan => true | _ => false end.

(** A representation is a binary64 value when its mantissa is canonical
    and its exponent in range. *)
Definition valid (x : number) : bool := valid_binary prec emax x.

(** An array length, or any integer, as a number. *)
Definition of_Z (z : Z) : number := binary_normalize prec emax z 0 false.
Definition of_nat (n : nat) : number := of_Z (Z.of_nat n).

(** [Math.floor], read as an integer: [None] on NaN and the infinities,
    which index no array element.  Both zeros index element 0. *)
Definition ffloor (x : number) : option Z :=
  match x with
  | S754_zero _ => Some 0
  | S754_finite s m e => Some (Z.shiftl (cond_Zopp s (Zpos m)) e)
  | S754_infinity _ | S754_nan => None
  end.

(** A value that is a zero or NaN. *)
Definition zero_or_nan (x : number) : Prop :=
  match x with
  | S754_zero _ | S754_nan => True
  | _ => False
  end.

Definition is_zero (x : number) : Prop :=
  match x with S754_zero _ => True | _ => False end.

(** The place of a number in the order of the comparisons: its class
    (infinite, finite negative, zero, finite positive), then exponent and
    mantissa, read lexicographically by [lex3]. *)
Definition SFkey (x : number) : Z * Z * Z :=
  match x with
  | S754_zero _ | S754_nan => (0, 0, 0)
  | S754_infinity s => (if s then -2 else 2, 0, 0)
  | S754_finite s m e => if s then (-1, - e, Zneg m) else (1, e, Zpos m)
  end.

Definition lex3 (a b : Z * Z * Z) : comparison :=
  match a.1.1 ?= b.1.1 with
  | Eq => match a.1.2 ?= b.1.2 with
          | Eq => a.2 ?= b.2
          | c => c
          end
  | c => c
  end.

End Num.

Export Num.

(** ** Arrays and strings of the language *)

Module JS.

(** [a[i]] read in an arithmetic context: a missing element is
    [undefined], which arithmetic turns into NaN. *)
Definition get (a : list number) (i : nat) : number :=
  default NaN (a !! i).

(** [a.reduce((acc, x, i) => f acc x i, init)]. *)
Fixpoint reduce_from {A B : Type} (f : B -> A -> nat -> B) (i : nat)
    (a : list A) (acc : B) : B :=
  match a with
  | [] => acc
  | x :: a' => reduce_from f (S i) a' (f acc x i)
  end.

Definition reduce {A B : Type} (f : B -> A -> nat -> B) (a : list A)
    (init : B) : B :=
  reduce_from f 0 a init.

(** [a[j] = v] on an array: in range it overwrites, at [j = a.length] it
    extends the array by one element; further out it leaves holes, which
    arithmetic reads as NaN.  (The store never writes further out.) *)
Definition set (a : list number) (j : nat) (v : number) : list number :=
  if decide (j < length a)%nat then <[j := v]> a
  else a ++ replicate (j - length a) NaN ++ [v].

(** [a.slice(0, k)] for an integer [k]: a negative [k] counts from the end. *)
Definition slice0 {A : Type} (a : list A) (k : Z) : list A :=
  if decide (k < 0) then take (Z.to_nat (Z.of_nat (length a) + k)) a
  else take (Z.to_nat k) a.

(** What [Array.prototype.sort] makes of the value [v] its comparison
    function returned for [(x, y)]: NaN counts as zero. *)
Definition sort_compare (v : number) : comparison :=
  if flt v zero then Lt else if fgt v zero then Gt else Eq.

(** [a.sort(comparefn)].  The language requires the sort to be stable
    and, for a consistent comparison function, fixes its result; a stable
    insertion sort is such a sort ([sort_ranking_unique] below: with
    similarities that are not NaN, what it returns is what every such sort
    returns).  A comparison function that returns NaN for some pairs, as
    the difference of two similarities does when one of them is NaN, is
    not consistent, and the language leaves the order to the engine: from
    three elements on, the engine's arrangement can differ from the one
    below.  So the properties that speak of the order assume that no
    similarity is NaN, and the others hold of every arrangement.  [x] goes
    behind every element that the comparison function does not put after
    it. *)
Fixpoint insert {A : Type} (comparefn : A -> A -> number) (x : A)
    (sorted : list A) : list A :=
  match sorted with
  | [] => [x]
  | y :: rest =>
      match sort_compare (comparefn y x) with
      | Gt => x :: y :: rest
      | _ => y :: insert comparefn x rest
      end
  end.

Definition sort {A : Type} (comparefn : A -> A -> number) (a : list A)
    : list A :=
  fold_left (fun sorted x => insert comparefn x sorted) a [].

Definition newline : string := String (Ascii.ascii_of_nat 10) EmptyString.

(** [a.join(sep)]. *)
Fixpoint join (sep : string) (a : list string) : string :=
  match a with
  | [] => EmptyString
  | [s] => s
  | s :: a' => s +:+ sep +:+ join sep a'
  end.

End JS.

(** ** The runtime: provider calls, ambient randomness, exceptions *)

Module Runtime.

(** The exceptions a method can end with: a rejected provider call, or a
    [TypeError] / [RangeError] raised by the language itself. *)
Inductive error : Type :=
  | ProviderError
  | TypeError
  | RangeError.

Inductive outcome (A : Type) : Type :=
  | Ok (a : A)
  | Throw (e : error).
Arguments Ok {A} a.
Arguments Throw {A} e.

(** A request sent to the Ollama client. *)
Inductive call : Type :=
  | EmbeddingsCall (model prompt : string)
  | ChatCall (model content : string).

(** The client [new Ollama({ host })]: each request either resolves with a
    response or rejects. *)
Record Ollama : Type := {
  embeddings : string -> string -> option (list number);
  chat : string -> string -> option string
}.

(** What a method call can observe and change outside its object: the
    requests sent so far, and how many values [Math.random] has handed out. *)
Record world : Type := {
  calls : list call;
  randoms : nat
}.

Definition M (A : Type) : Type := world -> outcome A * world.

Definition ret {A : Type} (a : A) : M A := fun w => (Ok a, w).
Definition throw {A : Type} (e : error) : M A := fun w => (Throw e, w).
Definition bind {A B : Type} (c : M A) (k : A -> M B) : M B :=
  fun w =>
    match c w with
    | (Ok a, w') => k a w'
    | (Throw e, w') => (Throw e, w')
    end.

(** [for (const x of a) body], threading an accumulator. *)
Fixpoint for_of {A S : Type} (body : S -> A -> M S) (a : list A) (s : S)
    : M S :=
  match a with
  | [] => ret s
  | x :: a' => bind (body s x) (for_of body a')
  end.

End Runtime.

Export Runtime.

#[global] Instance M_ret : MRet M := @ret.
#[global] Instance M_bind : MBind M := fun A B k c => bind c k.

(** ** The Ollama client and [Math.random] *)

Section Ambient.

Context (ollama : Ollama) (Math_random : nat -> number).

Definition log (c : call) (w : world) : world :=
  {| calls := calls w ++ [c]; randoms := randoms w |}.

(** [await ollama.embeddings({ model, prompt })], then [.embedding]. *)
Definition ollama_embeddings (model prompt : string) : M (list number) :=
  fun w =>
    match embeddings ollama model prompt with
    | Some embedding => (Ok embedding, log (EmbeddingsCall model prompt) w)
    | None => (Throw ProviderError, log (EmbeddingsCall model prompt) w)
    end.

(** [await ollama.chat({ model, messages: [{ role: "user", content }] })],
    then [.message.content]. *)
Definition ollama_chat (model content : string) : M string :=
  fun w =>
    match chat ollama model content with
    | Some text => (Ok text, log (ChatCall model content) w)
    | None => (Throw ProviderError, log (ChatCall model content) w)
    end.

(** [Math.random()]: the next value of the ambient generator. *)
Definition random : M number :=
  fun w =>
    (Ok (Math_random (randoms w)),
     {| calls := calls w; randoms := S (randoms w) |}).

End Ambient.

(** Metadata is an untyped bag in the source ([any]); the values it holds
    are immaterial here. *)
Inductive value : Type :=
  | VString (s : string)
  | VNumber (n : number)
  | VBool (b : bool)
  | VNull.

(** ** [class InMemoryVectorStore]

    [topK] and [numClusters] are integers here (the source types them
    [number]). *)

Module InMemoryVectorStore.

(** An element of [this.vectors]. *)
Record entry : Type := {
  id : string;
  vector : list number;
  metadata : gmap string value
}.

(** [{ ...item, similarity }], an element of what [search] returns. *)
Record scored : Type := {
  s_id : string;
  s_vector : list number;
  s_metadata : gmap string value;
  similarity : number
}.

Definition with_similarity (item : entry) (similarity : number) : scored :=
  {| s_id := id item; s_vector := vector item; s_metadata := metadata item;
     similarity := similarity |}.

Definition cosineSimilarity (a b : list number) : number :=
  let dotProduct :=
    JS.reduce (fun sum ai i => fadd sum (fmul ai (JS.get b i))) a zero in
  let magnitudeA :=
    fsqrt (JS.reduce (fun sum ai _ => fadd sum (fmul ai ai)) a zero) in
  let magnitudeB :=
    fsqrt (JS.reduce (fun sum bi _ => fadd sum (fmul bi bi)) b zero) in
  fdiv dotProduct (fmul magnitudeA magnitudeB).

(** The comparison function handed to [sort] by [search]. *)
Definition by_similarity (a b : scored) : number :=
  fsub (similarity b) (similarity a).

Definition maxIterations : nat := 100.

(** [this.vectors[x]] for a number [x]. *)
Definition at_number {A : Type} (a : list A) (x : option Z) : option A :=
  match x with
  | Some z => if decide (0 <= z) then a !! Z.to_nat z else None
  | None => None
  end.

(** The inner loop of the assignment: the index of the centroid most
    similar to [v], the first one winning ties, 0 when no centroid beats
    the initial similarity of -1. *)
Definition best_cluster (v : list number) (centroids : list (list number))
    : nat :=
  fst (JS.reduce
         (fun '(bestCluster, bestSimilarity) centroid i =>
            let similarity := cosineSimilarity v centroid in
            if fgt similarity bestSimilarity then (i, similarity)
            else (bestCluster, bestSimilarity))
         centroids (0%nat, minus_one)).

(** [Array(numClusters).fill(null).map(() => [])]. *)
Definition new_clusters (numClusters : Z) : M (list (list entry)) :=
  if decide (0 <= numClusters < 2 ^ 32)
  then mret (replicate (Z.to_nat numClusters) [])
  else throw RangeError.

(** [clusters[i].push(v)]. *)
Definition push_to (clusters : list (list entry)) (i : nat) (v : entry)
    : M (list (list entry)) :=
  match clusters !! i with
  | Some members => mret (<[i := members ++ [v]]> clusters)
  | None => throw TypeError
  end.

Definition assign (vectors : list entry) (numClusters : Z)
    (centroids : list (list number)) : M (list (list entry)) :=
  clusters ← new_clusters numClusters;
  for_of (fun clusters v =>
            push_to clusters (best_cluster (vector v) centroids) v)
         vectors clusters.

(** [newCentroid[j] += v[j]] for every [j] below [v.length]. *)
Definition accumulate (newCentroid v : list number) : list number :=
  fold_left
    (fun newCentroid j =>
       JS.set newCentroid j (fadd (JS.get newCentroid j) (JS.get v j)))
    (seq 0 (length v)) newCentroid.

(** The coordinate-wise mean of the members of a cluster, started from
    [Array(len).fill(0)]. *)
Definition mean (len : nat) (members : list entry) : list number :=
  let newCentroid :=
    fold_left (fun newCentroid v => accumulate newCentroid (vector v))
              members (replicate len zero) in
  map (fun x => fdiv x (of_nat (length members))) newCentroid.

(** One turn of the loop that updates the centroids. *)
Definition update_centroid (clusters : list (list entry))
    (state : list (list number) * bool) (i : nat)
    : M (list (list number) * bool) :=
  let '(centroids, changed) := state in
  match clusters !! i, centroids !! i with
  | Some [], _ => mret (centroids, changed)
  | Some members, Some centroid =>
      let newCentroid := mean (length centroid) members in
      let change := cosineSimilarity centroid newCentroid in
      mret (<[i := newCentroid]> centroids,
            if flt change c099 then true else changed)
  | _, _ => throw TypeError
  end.

Definition update (clusters : list (list entry))
    (centroids : list (list number)) : M (list (list number) * bool) :=
  for_of (update_centroid clusters) (seq 0 (length centroids))
         (centroids, false).

(** The body of the [while] loop up to its [break] test. *)
Definition round (vectors : list entry) (numClusters : Z)
    (centroids : list (list number))
    : M (list (list entry) * list (list number) * bool) :=
  clusters ← assign vectors numClusters centroids;
  '(centroids', changed) ← update clusters centroids;
  mret (clusters, centroids', changed).

(** [while (iterations < maxIterations) { ...; if (!changed) break;
    iterations++ }], with [remaining = maxIterations - iterations].  Next to
    [clusters] it returns how many times the body ran. *)
Fixpoint refine (vectors : list entry) (numClusters : Z) (remaining : nat)
    (centroids : list (list number)) (clusters : list (list entry))
    (rounds : nat) : M (list (list entry) * nat) :=
  match remaining with
  | O => mret (clusters, rounds)
  | S remaining' =>
      '(clusters', centroids', changed) ← round vectors numClusters centroids;
      if (changed : bool)
      then refine vectors numClusters remaining' centroids' clusters'
                  (S rounds)
      else mret (clusters', S rounds)
  end.

Section Methods.

Context (ollama : Ollama) (Math_random : nat -> number).

Definition add (vectors : list entry) (id text : string)
    (metadata : gmap string value) : M (list entry) :=
  embedding ← ollama_embeddings ollama "nomic-embed-text" text;
  mret (vectors ++
        [{| id := id; vector := embedding;
            metadata := <["text" := VString text]> metadata |}]).

Definition search (vectors : list entry) (query : string) (topK : Z)
    : M (list scored) :=
  queryVector ← ollama_embeddings ollama "nomic-embed-text" query;
  let similarities :=
    map (fun item =>
           with_similarity item (cosineSimilarity queryVector (vector item)))
        vectors in
  mret (JS.slice0 (JS.sort by_similarity similarities) topK).

(** The [for] loop that draws the initial centroids, [n] turns of it. *)
Fixpoint init_centroids (vectors : list entry) (n : nat)
    (centroids : list (list number)) : M (list (list number)) :=
  match n with
  | O => mret centroids
  | S n' =>
      r ← random Math_random;
      let randomIndex := ffloor (fmul r (of_nat (length vectors))) in
      match at_number vectors randomIndex with
      | Some item => init_centroids vectors n' (centroids ++ [vector item])
      | None => throw TypeError
      end
  end.

(** [cluster], returning next to the clusters the number of times the
    body of its [while] loop ran. *)
Definition cluster_rounds (vectors : list entry) (numClusters : Z)
    : M (list (list entry) * nat) :=
  if decide (Z.of_nat (length vectors) < numClusters)
  then mret ([vectors], 0%nat)
  else
    centroids ← init_centroids vectors (Z.to_nat numClusters) [];
    '(clusters, rounds) ←
      refine vectors numClusters maxIterations centroids [] 0;
    mret (filter (fun cluster => (0 < length cluster)%nat) clusters, rounds).

Definition cluster (vectors : list entry) (numClusters : Z)
    : M (list (list entry)) :=
  '(clusters, _) ← cluster_rounds vectors numClusters;
  mret clusters.

End Methods.

(** What [getStats] returns. *)
Record stats : Type := {
  totalVectors : nat;
  dimensions : nat;
  memoryUsage : nat
}.

Section Stats.

(** [JSON.stringify], applied to [this.vectors]: a function of the
    library, taken as it comes. *)
Context (JSON_stringify : list entry -> string).

(** [this.vectors[0]?.vector.length || 0] is the length of the first
    vector, and 0 when there is no first entry. *)
Definition getStats (vectors : list entry) : stats :=
  {| totalVectors := length vectors;
     dimensions :=
       match vectors !! 0%nat with
       | Some item => length (vector item)
       | None => 0%nat
       end;
     memoryUsage := String.length (JSON_stringify vectors) |}.

End Stats.

End InMemoryVectorStore.

(** ** [class SimpleRAG] *)

Module SimpleRAG.

Record document : Type := {
  id : string;
  content : string;
  metadata : option (gmap string value)
}.

(** The two parallel arrays of the object. *)
Record state : Type := {
  documents : list document;
  embeddings : list (list number)
}.

(** An element of what [search] returns; [documents[index]] is [None]
    when that array has no such element. *)
Record hit : Type := {
  index : nat;
  similarity : number;
  doc : option document
}.

Record source : Type := {
  source_id : string;
  source_similarity : number
}.

Record answered : Type := {
  answer : string;
  sources : list source
}.

Definition cosineSimilarity (a b : list number) : number :=
  let dotProduct :=
    JS.reduce (fun sum ai i => fadd sum (fmul ai (JS.get b i))) a zero in
  let magnitudeA :=
    fsqrt (JS.reduce (fun sum ai _ => fadd sum (fmul ai ai)) a zero) in
  let magnitudeB :=
    fsqrt (JS.reduce (fun sum bi _ => fadd sum (fmul bi bi)) b zero) in
  fdiv dotProduct (fmul magnitudeA magnitudeB).

Definition by_similarity (a b : hit) : number :=
  fsub (similarity b) (similarity a).

(** [a.map((x, index) => f x index)]. *)
Definition mapi {A B : Type} (f : A -> nat -> B) (a : list A) : list B :=
  JS.reduce (fun out x i => out ++ [f x i]) a [].

(** [hits.map((doc) => f doc.document)], which throws when a hit has no
    document. *)
Definition map_documents {B : Type} (f : document -> hit -> B)
    (hits : list hit) : M (list B) :=
  for_of (fun out h =>
            match doc h with
            | Some d => mret (out ++ [f d h])
            | None => throw TypeError
            end)
         hits [].

(** The template literal of [query]. *)
Definition prompt_of (context question : string) : string :=
  "Answer the following question based on the provided context. If the answer is not in the context, say so."
  +:+ JS.newline +:+ JS.newline
  +:+ "Context:" +:+ JS.newline
  +:+ context +:+ JS.newline +:+ JS.newline
  +:+ "Question: " +:+ question +:+ JS.newline +:+ JS.newline
  +:+ "Answer:".

Section Methods.

Context (ollama : Ollama).

(** [OllamaEmbeddingFunction.generate]. *)
Definition generate (texts : list string) : M (list (list number)) :=
  for_of (fun embeddings text =>
            embedding ← ollama_embeddings ollama "nomic-embed-text" text;
            mret (embeddings ++ [embedding]))
         texts [].

(** [const [x] = a]: the first element; [generate] returns one embedding
    per text, so it is there. *)
Definition first (a : list (list number)) : list number :=
  default [] (head a).

(** [this.documents.push({ id, content, metadata })], the first statement
    of [addDocument]; a rejected embedding request leaves the object in
    this state. *)
Definition pushed (this : state) (id content : string)
    (metadata : option (gmap string value)) : state :=
  {| documents :=
       documents this ++
       [{| id := id; content := content; metadata := metadata |}];
     embeddings := embeddings this |}.

Definition addDocument (this : state) (id content : string)
    (metadata : option (gmap string value)) : M state :=
  let this := pushed this id content metadata in
  generated ← generate [content];
  mret {| documents := documents this;
          embeddings := embeddings this ++ [first generated] |}.

(** [for (const doc of docs) await this.addDocument(doc.id, doc.content,
    doc.metadata)]. *)
Definition addDocuments (this : state) (docs : list document) : M state :=
  for_of (fun this doc => addDocument this (id doc) (content doc) (metadata doc))
         docs this.

Definition search (this : state) (query : string) (topK : Z)
    : M (list hit) :=
  generated ← generate [query];
  let queryEmbedding := first generated in
  let similarities :=
    mapi (fun embedding index =>
            {| index := index;
               similarity := cosineSimilarity queryEmbedding embedding;
               doc := documents this !! index |})
         (embeddings this) in
  mret (JS.slice0 (JS.sort by_similarity similarities) topK).

Definition query (this : state) (question : string) (topK : Z)
    : M answered :=
  relevantDocs ← search this question topK;
  contents ← map_documents (fun d _ => content d) relevantDocs;
  let context := JS.join (JS.newline +:+ JS.newline) contents in
  let prompt := prompt_of context question in
  response ← ollama_chat ollama "llama3.2" prompt;
  found ← map_documents
            (fun d h =>
               {| source_id := id d; source_similarity := similarity h |})
            relevantDocs;
  mret {| answer := response; sources := found |}.

End Methods.

(** The two methods that change the object, as they act on it: next to
    the outcome, the fields as the call leaves them, which matters when it
    ends with an exception. *)
Module InPlace.

Section Methods.

Context (ollama : Ollama).

Definition addDocument (this : state) (id content : string)
    (metadata : option (gmap string value)) (w : world)
    : outcome () * state * world :=
  let this := pushed this id content metadata in
  match generate ollama [content] w with
  | (Ok generated, w') =>
      (Ok (),
       {| documents := documents this;
          embeddings := embeddings this ++ [first generated] |},
       w')
  | (Throw e, w') => (Throw e, this, w')
  end.

Fixpoint addDocuments (this : state) (docs : list document) (w : world)
    : outcome () * state * world :=
  match docs with
  | [] => (Ok (), this, w)
  | doc :: docs' =>
      match addDocument this (SimpleRAG.id doc) (content doc) (metadata doc) w
      with
      | (Ok _, this', w') => addDocuments this' docs' w'
      | (Throw e, this', w') => (Throw e, this', w')
      end
  end.

End Methods.

End InPlace.

(** [new SimpleRAG()]. *)
Definition new : state := {| documents := []; embeddings := [] |}.

End SimpleRAG.

(** ** Vocabulary of the properties *)

Module Spec.

Import InMemoryVectorStore.

(** The two ingredients of [cosineSimilarity]. *)
Definition dot (a b : list number) : number :=
  JS.reduce (fun sum ai i => fadd sum (fmul ai (JS.get b i))) a zero.

Definition magnitude (a : list number) : number :=
  fsqrt (JS.reduce (fun sum ai _ => fadd sum (fmul ai ai)) a zero).

(** The arguments of one call of [add]. *)
Record insertion : Type := {
  ins_id : string;
  ins_text : string;
  ins_metadata : gmap string value
}.

(** A store filled by successive calls of [add]. *)
Definition add_all (ollama : Ollama) (insertions : list insertion)
    : M (list entry) :=
  for_of (fun vectors d =>
            add ollama vectors (ins_id d) (ins_text d) (ins_metadata d))
         insertions [].

(** Among the similarities [sims], listed in insertion order, position [i]
    is ranked before position [j]: its similarity is greater, or it is
    equal and [i] was inserted first. *)
Definition ranked_before (sims : list number) (i j : nat) : Prop :=
  exists x y,
    sims !! i = Some x /\ sims !! j = Some y /\
    (fgt x y = true \/ (feq x y = true /\ (i < j)%nat)).

(** A similarity the ranking can order: a binary64 value other than NaN. *)
Definition orderable (x : number) : Prop :=
  valid x = true /\ is_nan x = false.

(** A computation that neither sends a request nor draws a random value:
    it has one outcome and leaves the world as it is. *)
Definition stateless {A : Type} (c : M A) : Prop :=
  exists out, forall w, c w = (out, w).

(** Each row of [rows] lists, in order, the positions in [this.vectors] of
    the members of the cluster at the same place in [clusters]. *)
Definition placed (vectors : list entry) (rows : list (list nat))
    (clusters : list (list entry)) : Prop :=
  Forall2 (Forall2 (fun i item => vectors !! i = Some item)) rows clusters.

(** The similarity [change] between a centroid and the mean of the members
    assigned to it. *)
Definition change_of (centroid : list number) (members : list entry)
    : number :=
  cosineSimilarity centroid (mean (length centroid) members).

(** Every centroid that has members is at similarity 0.99 or more to the
    mean of its members. *)
Definition converged (clusters : list (list entry))
    (centroids : list (list number)) : bool :=
  forallb (fun '(members, centroid) =>
             match members with
             | [] => true
             | _ => fge (change_of centroid members) c099
             end)
          (zip clusters centroids).

(** What [Math.random] returns by its contract: a binary64 value that is
    at least 0 and less than 1. *)
Definition unit_interval (x : number) : Prop :=
  valid x = true /\ fge x zero = true /\ flt x one = true.

(** The first [n] values [Math.random] hands out from world [w] on, scaled
    by the size of the store, all index a stored entry. *)
Definition draws_in_range (Math_random : nat -> number)
    (vectors : list entry) (n : nat) (w : world) : Prop :=
  forall i, (i < n)%nat ->
    is_Some (at_number vectors
               (ffloor (fmul (Math_random (randoms w + i)%nat)
                             (of_nat (length vectors))))).

(** The states a [SimpleRAG] object goes through: from [new SimpleRAG()]
    on, by calls of [addDocument] and [addDocuments], whether they return
    or end with an exception. *)
Inductive reachable (ollama : Ollama) : SimpleRAG.state -> Prop :=
  | reachable_new : reachable ollama SimpleRAG.new
  | reachable_addDocument this id content metadata w out this' w' :
      reachable ollama this ->
      SimpleRAG.InPlace.addDocument ollama this id content metadata w =
        (out, this', w') ->
      reachable ollama this'
  | reachable_addDocuments this docs w out this' w' :
      reachable ollama this ->
      SimpleRAG.InPlace.addDocuments ollama this docs w = (out, this', w') ->
      reachable ollama this'.

(** One embeddings request per text of [texts], in their order. *)
Definition embeddings_calls (texts : list string) : list call :=
  EmbeddingsCall "nomic-embed-text" <$> texts.

(** The texts a loop over [texts] asks the provider to embed: every text
    up to and including the first one it rejects. *)
Fixpoint requested (ollama : Ollama) (texts : list string) : list string :=
  match texts with
  | [] => []
  | text :: texts' =>
      text ::
      match Runtime.embeddings ollama "nomic-embed-text" text with
      | Some _ => requested ollama texts'
      | None => []
      end
  end.

End Spec.

(** ** Sample data *)

Module Samples.

Import InMemoryVectorStore.

Definition half : number := S754_finite false 4503599627370496 (-53).

(** A stub provider: a fixed embedding per text, a fixed completion. *)
Definition stub : Ollama :=
  {| Runtime.embeddings := fun _ prompt =>
       if String.eqb prompt "web" then Some [one; half]
       else if String.eqb prompt "js" then Some [one; zero]
       else if String.eqb prompt "py" then Some [zero; one]
       else if String.eqb prompt "blank" then Some [zero; zero]
       else if String.eqb prompt "long" then Some [one; one; one]
       else None;
     Runtime.chat := fun _ _ => Some "JavaScript" |}.

Definition w0 : world := {| calls := []; randoms := 0 |}.

(** A sequence of values of [Math.random]: 0, 0.5, then 0 for ever. *)
Definition tape (n : nat) : number :=
  match n with
  | 1%nat => half
  | _ => zero
  end.

(** The same sequence, two draws later. *)
Definition tape_later (n : nat) : number := tape (n - 2).

Definition js : entry :=
  {| id := "js"; vector := [one; zero];
     metadata := {["text" := VString "js"]} |}.
Definition py : entry :=
  {| id := "py"; vector := [zero; one];
     metadata := {["text" := VString "py"]} |}.
Definition blank : entry :=
  {| id := "blank"; vector := [zero; zero];
     metadata := {["text" := VString "blank"]} |}.
Definition both : entry :=
  {| id := "both"; vector := [one; one];
     metadata := {["text" := VString "both"]} |}.

(** A [SimpleRAG] object holding two documents. *)
Definition library : SimpleRAG.state :=
  {| SimpleRAG.documents :=
       [{| SimpleRAG.id := "js";
           SimpleRAG.content := "JavaScript is used for web development";
           SimpleRAG.metadata := None |};
        {| SimpleRAG.id := "py";
           SimpleRAG.content := "Python is used for data science";
           SimpleRAG.metadata := None |}];
     SimpleRAG.embeddings := [[one; zero]; [zero; one]] |}.

(** A [SimpleRAG] object holding a document whose embedding is all
    zeros and another one, as [addDocuments] fills it from the stub. *)
Definition zero_library : SimpleRAG.state :=
  {| SimpleRAG.documents :=
       [{| SimpleRAG.id := "blank"; SimpleRAG.content := "blank";
           SimpleRAG.metadata := None |};
        {| SimpleRAG.id := "js"; SimpleRAG.content := "js";
           SimpleRAG.metadata := None |}];
     SimpleRAG.embeddings := [[zero; zero]; [one; zero]] |}.

End Samples.

(** * Properties *)

(** ** Arithmetic facts that need no rounding *)

Section NumFacts.

Lemma fmul_comm (x y : number) : fmul x y = fmul y x.
Proof.
  destruct x as [sx|sx| |sx mx ex], y as [sy|sy| |sy my ey]; simpl;
    try reflexivity; try (f_equal; apply xorb_comm).
  unfold fmul; simpl.
  by rewrite xorb_comm, Pos.mul_comm, Z.add_comm.
Qed.

Lemma fmul_zero_or_nan (x y : number) : zero_or_nan y -> zero_or_nan (fmul x y).
Proof. destruct x as [?|?| |? ? ?], y as [?|?| |? ? ?]; simpl; tauto. Qed.

Lemma fadd_zero_or_nan (x y : number) :
  zero_or_nan x -> zero_or_nan y -> zero_or_nan (fadd x y).
Proof.
  destruct x as [[]|?| |? ? ?], y as [[]|?| |? ? ?]; simpl; tauto.
Qed.

Lemma fsqrt_zero_or_nan (x : number) : zero_or_nan x -> zero_or_nan (fsqrt x).
Proof. destruct x as [?|?| |? ? ?]; simpl; tauto. Qed.

Lemma fdiv_zero_or_nan (x y : number) :
  zero_or_nan x -> zero_or_nan y -> fdiv x y = NaN.
Proof. destruct x as [?|?| |? ? ?], y as [?|?| |? ? ?]; simpl; tauto. Qed.

(** Dividing by a zero or by NaN never gives a finite value. *)
Lemma fdiv_by_zero_or_nan (x y : number) :
  zero_or_nan y ->
  fdiv x y = NaN \/ exists s, fdiv x y = S754_infinity s.
Proof.
  destruct x as [?|?| |? ? ?], y as [?|?| |? ? ?]; simpl; try tauto; eauto.
Qed.

Lemma get_zero_or_nan (b : list number) (i : nat) :
  Forall is_zero b -> zero_or_nan (JS.get b i).
Proof.
  intros Hb. unfold JS.get. destruct (b !! i) as [x|] eqn:E; simpl; [|done].
  eapply Forall_lookup_1 in E; [|exact Hb]. by destruct x.
Qed.

Lemma reduce_from_invariant {A B : Type} (P : B -> Prop)
    (f : B -> A -> nat -> B) (a : list A) :
  (forall acc x i, P acc -> x ∈ a -> P (f acc x i)) ->
  forall i acc, P acc -> P (JS.reduce_from f i a acc).
Proof.
  induction a as [|x a IH]; intros Hf i acc Hacc; simpl; [done|].
  apply IH.
  - intros acc' y j Hacc' Hy. apply Hf; [done|]. by apply list_elem_of_further.
  - apply Hf; [done|]. apply list_elem_of_here.
Qed.

End NumFacts.

(** ** Comparisons *)

Section Comparisons.

Lemma SFcompare_swap (x y : number) :
  SFcompare y x = option_map CompOpp (SFcompare x y).
Proof.
  destruct x as [?|[]| |[] mx ex], y as [?|[]| |[] my ey]; simpl; try done.
  - rewrite (Z.compare_antisym ex ey).
    destruct (ex ?= ey); simpl; try done.
    by rewrite (Pos.compare_cont_antisym mx my Eq).
  - rewrite (Z.compare_antisym ex ey).
    destruct (ex ?= ey); simpl; try done.
    symmetry. f_equal. apply (Pos.compare_cont_antisym mx my Eq).
Qed.

Lemma fge_not_flt (x y : number) : fge x y = true -> flt x y = false.
Proof.
  unfold fge, flt, SFleb, SFltb. rewrite (SFcompare_swap y x).
  by destruct (SFcompare y x) as [[]|].
Qed.

End Comparisons.

(** ** Binary floats: digits *)

Section Digits.

Lemma digits2_pos_bounds (p : positive) :
  2 ^ (Zpos (digits2_pos p) - 1) <= Zpos p < 2 ^ Zpos (digits2_pos p).
Proof.
  induction p as [p IH|p IH|]; simpl digits2_pos.
  - rewrite Pos2Z.inj_succ.
    replace (Z.succ (Zpos (digits2_pos p)) - 1)
      with (Z.succ (Zpos (digits2_pos p) - 1)) by lia.
    rewrite !Z.pow_succ_r by lia. lia.
  - rewrite Pos2Z.inj_succ.
    replace (Z.succ (Zpos (digits2_pos p)) - 1)
      with (Z.succ (Zpos (digits2_pos p) - 1)) by lia.
    rewrite !Z.pow_succ_r by lia. lia.
  - simpl. lia.
Qed.

Lemma Zdigits2_bounds (m : Z) :
  0 < m -> 0 < Zdigits2 m /\ 2 ^ (Zdigits2 m - 1) <= m < 2 ^ Zdigits2 m.
Proof.
  destruct m as [|p|p]; try lia. intros _. simpl.
  split; [lia|apply digits2_pos_bounds].
Qed.

Lemma Zdigits2_nonneg (m : Z) : 0 <= Zdigits2 m.
Proof. destruct m; simpl; lia. Qed.

Lemma Zdigits2_unique (m d : Z) :
  0 < m -> 2 ^ (d - 1) <= m < 2 ^ d -> Zdigits2 m = d.
Proof.
  intros Hm [Hlo Hhi]. destruct (Zdigits2_bounds m Hm) as (Hd & Hlo' & Hhi').
  assert (0 < d).
  { destruct (Z.lt_trichotomy d 0) as [Hneg|[->|?]]; [|simpl in Hhi; lia|done].
    rewrite Z.pow_neg_r in Hhi by done. lia. }
  destruct (Z.lt_trichotomy (Zdigits2 m) d) as [Hlt|[?|Hgt]]; [|done|].
  - assert (2 ^ Zdigits2 m <= 2 ^ (d - 1)) by (apply Z.pow_le_mono_r; lia). lia.
  - assert (2 ^ d <= 2 ^ (Zdigits2 m - 1)) by (apply Z.pow_le_mono_r; lia). lia.
Qed.

Lemma Zdigits2_mono (m1 m2 : Z) :
  0 < m1 -> m1 <= m2 -> Zdigits2 m1 <= Zdigits2 m2.
Proof.
  intros H1 H12.
  destruct (Zdigits2_bounds m1 H1) as (Hd1 & Hlo1 & Hhi1).
  destruct (Zdigits2_bounds m2) as (Hd2 & Hlo2 & Hhi2); [lia|].
  destruct (Z.le_gt_cases (Zdigits2 m1) (Zdigits2 m2)) as [?|Hgt]; [done|].
  assert (2 ^ Zdigits2 m2 <= 2 ^ (Zdigits2 m1 - 1)) by (apply Z.pow_le_mono_r; lia).
  lia.
Qed.

(** Dropping [n] low bits drops [n] digits. *)
Lemma Zdigits2_div_pow (m n : Z) :
  0 < m -> 0 <= n < Zdigits2 m ->
  0 < m / 2 ^ n /\ Zdigits2 (m / 2 ^ n) = Zdigits2 m - n.
Proof.
  intros Hm Hn. destruct (Zdigits2_bounds m Hm) as (Hd & Hlo & Hhi).
  assert (0 < 2 ^ n) as Hpow by (apply Z.pow_pos_nonneg; lia).
  assert (2 ^ (Zdigits2 m - 1) = 2 ^ (Zdigits2 m - n - 1) * 2 ^ n) as E1.
  { rewrite <- Z.pow_add_r by lia. f_equal. lia. }
  assert (2 ^ Zdigits2 m = 2 ^ (Zdigits2 m - n) * 2 ^ n) as E2.
  { rewrite <- Z.pow_add_r by lia. f_equal. lia. }
  assert (2 ^ (Zdigits2 m - n - 1) <= m / 2 ^ n) as Hq1.
  { apply Z.div_le_lower_bound; lia. }
  assert (m / 2 ^ n < 2 ^ (Zdigits2 m - n)) as Hq2.
  { apply Z.div_lt_upper_bound; lia. }
  assert (0 < 2 ^ (Zdigits2 m - n - 1)) by (apply Z.pow_pos_nonneg; lia).
  split; [lia|]. apply Zdigits2_unique; [lia|]. by split.
Qed.

Lemma div_pow_small (m n : Z) :
  0 <= m -> Zdigits2 m <= n -> m / 2 ^ n = 0.
Proof.
  intros Hm Hn. apply Z.div_small. split; [done|].
  destruct (Z.eq_dec m 0) as [->|Hne].
  - apply Z.pow_pos_nonneg; [lia|]. pose proof (Zdigits2_nonneg 0). simpl in *. lia.
  - destruct (Zdigits2_bounds m) as (Hd & Hlo & Hhi); [lia|].
    assert (2 ^ Zdigits2 m <= 2 ^ n) by (apply Z.pow_le_mono_r; lia). lia.
Qed.

End Digits.

(** ** Binary floats: rounding, division, subtraction *)

Section Binary.

Variables prec emax : Z.
Hypothesis Hprec : 0 < prec.
Hypothesis Hemax : prec < emax.

#[local] Abbreviation emin := (emin prec emax).
#[local] Abbreviation fexp := (fexp prec emax).

Lemma fexp_ge_emin (e : Z) : emin <= fexp e.
Proof. unfold SpecFloat.fexp. lia. Qed.

Lemma fexp_mono (a b : Z) : a <= b -> fexp a <= fexp b.
Proof. unfold SpecFloat.fexp. lia. Qed.

Lemma shr_1_m (mrs : shr_record) :
  0 <= shr_m mrs -> shr_m (shr_1 mrs) = shr_m mrs / 2.
Proof.
  destruct mrs as [m r s]. simpl. intros Hm.
  destruct m as [|[p|p|]|p]; simpl; try lia; try reflexivity.
  - apply (Z.div_unique _ _ _ 1); lia.
  - apply (Z.div_unique _ _ _ 0); lia.
Qed.

Lemma pow2_xO (n : positive) : 2 ^ Zpos n~0 = 2 ^ Zpos n * 2 ^ Zpos n.
Proof.
  replace (Zpos n~0) with (Zpos n + Zpos n) by lia. apply Z.pow_add_r; lia.
Qed.

Lemma pow2_xI (n : positive) : 2 ^ Zpos n~1 = 2 * (2 ^ Zpos n * 2 ^ Zpos n).
Proof.
  replace (Zpos n~1) with (Z.succ (Zpos n + Zpos n)) by lia.
  by rewrite Z.pow_succ_r, Z.pow_add_r by lia.
Qed.

Lemma shr_1_nonneg (mrs : shr_record) :
  0 <= shr_m mrs -> 0 <= shr_m (shr_1 mrs).
Proof. intros Hm. rewrite shr_1_m by done. apply Z.div_pos; lia. Qed.

Lemma iter_shr_1_m (n : positive) : forall mrs,
  0 <= shr_m mrs ->
  shr_m (SpecFloat.iter_pos shr_1 n mrs) = shr_m mrs / 2 ^ Zpos n.
Proof.
  induction n as [n IH|n IH|]; intros mrs Hm; simpl SpecFloat.iter_pos.
  - pose proof (shr_1_nonneg mrs Hm) as H1.
    assert (0 < 2 ^ Zpos n) as Hpow by (apply Z.pow_pos_nonneg; lia).
    rewrite IH; rewrite IH; try done.
    + rewrite shr_1_m by done. rewrite !Z.div_div by lia.
      f_equal. rewrite pow2_xI. ring.
    + apply Z.div_pos; lia.
  - assert (0 < 2 ^ Zpos n) as Hpow by (apply Z.pow_pos_nonneg; lia).
    rewrite IH; rewrite IH; try done.
    + rewrite !Z.div_div by lia. f_equal. by rewrite pow2_xO.
    + apply Z.div_pos; lia.
  - by rewrite shr_1_m.
Qed.

(** What [shr_fexp] does to a non-negative mantissa. *)
Lemma shr_fexp_spec (m e : Z) (l : location) :
  0 <= m ->
  let n := fexp (Zdigits2 m + e) - e in
  let '(mrs, e') := shr_fexp prec emax m e l in
  (n <= 0 -> shr_m mrs = m /\ e' = e) /\
  (0 < n -> shr_m mrs = m / 2 ^ n /\ e' = e + n).
Proof.
  intros Hm n. unfold shr_fexp, shr. fold n.
  assert (shr_m (shr_record_of_loc m l) = m) as Hrec.
  { by destruct l as [|[]]. }
  destruct n as [|p|p] eqn:En; simpl.
  - split; [by rewrite Hrec|lia].
  - split; [lia|]. intros _. rewrite iter_shr_1_m by (rewrite Hrec; lia).
    by rewrite Hrec.
  - split; [by rewrite Hrec|lia].
Qed.


(** Shifting a positive mantissa whose exponent is not below [emin] keeps
    it positive; when the shift is wanted ([e] at most the canonical
    exponent), the outcome is canonical. *)
Lemma shr_fexp_pos (m e : Z) (l : location) :
  0 < m -> emin <= e ->
  let '(mrs, e') := shr_fexp prec emax m e l in
  0 < shr_m mrs /\ emin <= e' /\
  (e <= fexp (Zdigits2 m + e) -> fexp (Zdigits2 (shr_m mrs) + e') = e').
Proof.
  intros Hm He. pose proof (shr_fexp_spec m e l (Z.lt_le_incl _ _ Hm)) as Hspec.
  simpl in Hspec. destruct (shr_fexp prec emax m e l) as [mrs e'].
  destruct Hspec as [Hle Hgt].
  destruct (Z.le_gt_cases (fexp (Zdigits2 m + e) - e) 0) as [Hn|Hn].
  - destruct (Hle Hn) as [-> ->]. repeat split; try done. lia.
  - destruct (Hgt Hn) as [-> ->].
    assert (fexp (Zdigits2 m + e) = Zdigits2 m + e - prec) as Hf.
    { unfold SpecFloat.fexp in *. lia. }
    destruct (Zdigits2_div_pow m (fexp (Zdigits2 m + e) - e) Hm) as [Hpos Hdig];
      [lia|].
    repeat split; [done|lia|]. intros _. rewrite Hdig.
    replace (Zdigits2 m - (fexp (Zdigits2 m + e) - e) +
             (e + (fexp (Zdigits2 m + e) - e))) with (Zdigits2 m + e) by lia.
    lia.
Qed.

Lemma round_nearest_even_cases (m : Z) (l : location) :
  round_nearest_even m l = m \/ round_nearest_even m l = m + 1.
Proof. destruct l as [|[]]; simpl; auto. destruct (Z.even m); auto. Qed.

(** A mantissa with enough digits rounds to a binary float. *)
Lemma binary_round_aux_valid (s : bool) (m e : Z) (l : location) :
  0 <= m -> e <= fexp (Zdigits2 m + e) ->
  valid_binary prec emax (binary_round_aux prec emax s m e l) = true.
Proof.
  intros Hm He. unfold binary_round_aux.
  pose proof (shr_fexp_spec m e l Hm) as Hspec. simpl in Hspec.
  destruct (shr_fexp prec emax m e l) as [mrs' e'].
  set (m' := shr_m mrs') in *.
  set (d := Zdigits2 m) in *. set (f := fexp (d + e)) in *.
  pose proof (fexp_ge_emin (d + e)) as Hf. fold f in Hf.
  assert (0 <= d) as Hd by apply Zdigits2_nonneg.
  assert (e' = f /\ 0 <= m' /\
          (0 < m' -> fexp (Zdigits2 m' + e') = e') /\
          (m' = 0 -> e' = emin)) as (-> & Hm' & Hcanon & Hzero).
  { destruct Hspec as [Hle Hgt].
    destruct (Z.le_gt_cases (f - e) 0) as [Hn|Hn].
    - destruct (Hle Hn) as [-> ->]. assert (f = e) as Hfe by lia.
      repeat split; try lia.
      + intros _. exact Hfe.
      + intros ->. subst d f. simpl in *. unfold SpecFloat.fexp in *. lia.
    - destruct (Hgt Hn) as [-> ->]. split; [lia|].
      assert (0 < 2 ^ (f - e)) by (apply Z.pow_pos_nonneg; lia).
      split; [apply Z.div_pos; lia|]. split.
      + intros Hpos.
        destruct (Z.le_gt_cases d (f - e)) as [Hsmall|Hbig].
        { rewrite div_pow_small in Hpos by done. lia. }
        assert (0 < m) as Hmpos.
        { destruct (Z.eq_dec m 0) as [->|?]; [|lia]. subst d. simpl in *. lia. }
        destruct (Zdigits2_div_pow m (f - e) Hmpos) as [_ ->]; [fold d; lia|].
        fold d. replace (d - (f - e) + (e + (f - e))) with (d + e) by lia.
        fold f. lia.
      + intros Hz.
        destruct (Z.le_gt_cases d (f - e)) as [Hsmall|Hbig].
        { subst f. unfold SpecFloat.fexp in *. lia. }
        assert (0 < m) as Hmpos.
        { destruct (Z.eq_dec m 0) as [->|?]; [|lia]. subst d. simpl in *. lia. }
        destruct (Zdigits2_div_pow m (f - e) Hmpos) as [? _]; [fold d; lia|].
        lia. }
  set (m1 := round_nearest_even m' (loc_of_shr_record mrs')).
  assert (m1 = m' \/ m1 = m' + 1) as Hm1 by apply round_nearest_even_cases.
  destruct (Z.eq_dec m1 0) as [Hz|Hnz].
  - rewrite Hz. pose proof (shr_fexp_spec 0 f loc_Exact (Z.le_refl 0)) as Hspec0.
    simpl in Hspec0. destruct (shr_fexp prec emax 0 f loc_Exact) as [mrs'' e''].
    destruct Hspec0 as [Hle0 _]. destruct Hle0 as [-> _]; [|done].
    unfold SpecFloat.fexp in *. lia.
  - assert (0 < m1) as Hpos1 by lia.
    pose proof (shr_fexp_pos m1 f loc_Exact Hpos1 Hf) as Hshift.
    destruct (shr_fexp prec emax m1 f loc_Exact) as [mrs'' e''].
    destruct Hshift as (Hpos'' & _ & Hcanon'').
    destruct (shr_m mrs'') as [|m''|m''] eqn:Em''; try lia.
    destruct (e'' <=? emax - prec) eqn:Ebound; [|done].
    simpl. unfold bounded, canonical_mantissa. rewrite Ebound.
    rewrite andb_true_r. apply Z.eqb_eq. apply Hcanon''.
    destruct (Z.eq_dec m' 0) as [Hm0|Hm0].
    + rewrite (Hzero Hm0). apply fexp_ge_emin.
    + rewrite <- (Hcanon ltac:(lia)) at 1. apply fexp_mono.
      pose proof (Zdigits2_mono m' m1). lia.
Qed.

(** A positive mantissa whose exponent is not below [emin] does not round
    to zero. *)
Lemma binary_round_aux_pos (s : bool) (m e : Z) (l : location) :
  0 < m -> emin <= e ->
  (exists m' e', binary_round_aux prec emax s m e l = S754_finite s m' e') \/
  binary_round_aux prec emax s m e l = S754_infinity s.
Proof.
  intros Hm He. unfold binary_round_aux.
  pose proof (shr_fexp_pos m e l Hm He) as Hshift.
  destruct (shr_fexp prec emax m e l) as [mrs' e'].
  destruct Hshift as (Hpos' & He' & _).
  set (m1 := round_nearest_even (shr_m mrs') (loc_of_shr_record mrs')).
  assert (0 < m1) as Hpos1.
  { destruct (round_nearest_even_cases (shr_m mrs') (loc_of_shr_record mrs'));
      subst m1; lia. }
  pose proof (shr_fexp_pos m1 e' loc_Exact Hpos1 He') as Hshift.
  destruct (shr_fexp prec emax m1 e' loc_Exact) as [mrs'' e''].
  destruct Hshift as (Hpos'' & _ & _).
  destruct (shr_m mrs'') as [|m''|m'']; try lia.
  destruct (e'' <=? emax - prec); eauto.
Qed.

Lemma Zdigits2_mul_pow (m s : Z) :
  0 < m -> 0 <= s -> Zdigits2 (m * 2 ^ s) = Zdigits2 m + s.
Proof.
  intros Hm Hs. destruct (Zdigits2_bounds m Hm) as (Hd & Hlo & Hhi).
  assert (0 < 2 ^ s) by (apply Z.pow_pos_nonneg; lia).
  apply Zdigits2_unique; [nia|].
  replace (Zdigits2 m + s - 1) with (Zdigits2 m - 1 + s) by lia.
  rewrite !Z.pow_add_r by lia. nia.
Qed.

(** The quotient of two positive integers has at least the difference of
    their numbers of digits. *)
Lemma Zdigits2_div (a b : Z) :
  0 < a -> 0 < b -> Zdigits2 a - Zdigits2 b <= Zdigits2 (a / b).
Proof.
  intros Ha Hb.
  destruct (Zdigits2_bounds a Ha) as (Hda & Hloa & Hhia).
  destruct (Zdigits2_bounds b Hb) as (Hdb & Hlob & Hhib).
  pose proof (Zdigits2_nonneg (a / b)) as Hq.
  destruct (Z.le_gt_cases (Zdigits2 a - Zdigits2 b) 0) as [?|Hk]; [lia|].
  set (k := Zdigits2 a - Zdigits2 b) in *.
  assert (2 ^ (Zdigits2 a - 1) = 2 ^ (k - 1) * 2 ^ Zdigits2 b) as E.
  { rewrite <- Z.pow_add_r by lia. f_equal. lia. }
  assert (0 < 2 ^ (k - 1)) by (apply Z.pow_pos_nonneg; lia).
  assert (2 ^ (k - 1) <= a / b) as Hlow.
  { apply Z.div_le_lower_bound; [lia|]. nia. }
  destruct (Z.le_gt_cases k (Zdigits2 (a / b))) as [?|Hlt]; [done|].
  destruct (Zdigits2_bounds (a / b)) as (_ & _ & Hhiq); [lia|].
  assert (2 ^ Zdigits2 (a / b) <= 2 ^ (k - 1)) by (apply Z.pow_le_mono_r; lia).
  lia.
Qed.

Lemma SFdiv_core_binary_enough (mx my : positive) (ex ey : Z) :
  let '(q, e', l) := SFdiv_core_binary prec emax (Zpos mx) ex (Zpos my) ey in
  0 <= q /\ e' <= fexp (Zdigits2 q + e').
Proof.
  unfold SFdiv_core_binary.
  set (d1 := Zdigits2 (Zpos mx)). set (d2 := Zdigits2 (Zpos my)).
  set (e' := Z.min (fexp (d1 + ex - (d2 + ey))) (ex - ey)).
  set (s := ex - ey - e').
  assert (0 <= s) as Hs by (subst s e'; lia).
  set (m' := match s with Zpos _ => Z.shiftl (Zpos mx) s | Z0 => Zpos mx | Zneg _ => 0 end).
  assert (m' = Zpos mx * 2 ^ s) as Hm'.
  { subst m'. destruct s as [|p|p] eqn:Es; [simpl; lia| |lia].
    by rewrite Z.shiftl_mul_pow2. }
  pose proof (Z.div_eucl_eq m' (Zpos my) ltac:(lia)) as Heucl.
  pose proof (Z.mod_pos_bound m' (Zpos my) ltac:(lia)) as Hmod.
  unfold Z.modulo in Hmod.
  assert (fst (Z.div_eucl m' (Zpos my)) = m' / Zpos my) as Hq.
  { unfold Z.div. by destruct (Z.div_eucl m' (Zpos my)). }
  destruct (Z.div_eucl m' (Zpos my)) as [q r]. simpl in Hq. subst q.
  assert (0 < 2 ^ s) by (apply Z.pow_pos_nonneg; lia).
  assert (0 < m') as Hpos by (rewrite Hm'; nia).
  split; [apply Z.div_pos; lia|].
  pose proof (Zdigits2_div m' (Zpos my) Hpos ltac:(lia)) as Hdig.
  rewrite Hm', Zdigits2_mul_pow in Hdig by lia. fold d1 d2 in Hdig.
  rewrite <- Hm' in Hdig.
  transitivity (fexp (d1 + ex - (d2 + ey))); [subst e'; lia|].
  apply fexp_mono. subst s. lia.
Qed.

(** Every quotient is a binary float, whatever the operands. *)
Lemma SFdiv_valid (x y : spec_float) :
  valid_binary prec emax (SFdiv prec emax x y) = true.
Proof.
  destruct x as [sx|sx| |sx mx ex], y as [sy|sy| |sy my ey]; try done.
  unfold SFdiv.
  pose proof (SFdiv_core_binary_enough mx my ex ey) as Hcore.
  destruct (SFdiv_core_binary prec emax (Zpos mx) ex (Zpos my) ey)
    as [[q e'] l].
  destruct Hcore. by apply binary_round_aux_valid.
Qed.

Lemma shl_align_spec (m : positive) (e ez : Z) :
  ez <= e ->
  Zpos (fst (shl_align m e ez)) = Zpos m * 2 ^ (e - ez) /\
  snd (shl_align m e ez) = ez.
Proof.
  intros He. unfold shl_align.
  destruct (ez - e) as [|d|d] eqn:Ed; simpl; try lia.
  - replace (e - ez) with 0 by lia. simpl. lia.
  - split; [|done]. replace (e - ez) with (Zpos d) by lia.
    change (Pos.iter xO m d) with (shift_pos d m).
    rewrite shift_pos_correct. change (Z.pow_pos 2 d) with (2 ^ Zpos d). lia.
Qed.

Lemma binary_round_pos (s : bool) (m : positive) (e : Z) :
  emin <= e ->
  (exists m' e', binary_round prec emax s m e = S754_finite s m' e') \/
  binary_round prec emax s m e = S754_infinity s.
Proof.
  intros He. unfold binary_round.
  destruct (shl_align m e (fexp (Zpos (digits2_pos m) + e))) as [mz ez] eqn:E.
  apply binary_round_aux_pos; [done..|lia|].
  unfold shl_align in E.
  pose proof (fexp_ge_emin (Zpos (digits2_pos m) + e)).
  destruct (fexp (Zpos (digits2_pos m) + e) - e); injection E as <- <-; lia.
Qed.

Lemma bounded_facts (m : positive) (e : Z) :
  bounded prec emax m e = true ->
  emin <= e /\ Zdigits2 (Zpos m) <= prec /\
  (emin < e -> Zdigits2 (Zpos m) = prec).
Proof.
  unfold bounded, canonical_mantissa. intros [Hc _]%andb_true_iff.
  apply Z.eqb_eq in Hc. simpl. unfold SpecFloat.fexp, SpecFloat.emin in *. lia.
Qed.

(** Of two binary floats, the one with the smaller exponent is the
    smaller in magnitude. *)
Lemma bounded_lt (m1 m2 : positive) (e1 e2 : Z) :
  bounded prec emax m1 e1 = true -> bounded prec emax m2 e2 = true ->
  e1 < e2 -> Zpos m1 < Zpos m2 * 2 ^ (e2 - e1).
Proof.
  intros (He1 & Hd1 & _)%bounded_facts (He2 & _ & Hd2)%bounded_facts He.
  specialize (Hd2 ltac:(lia)).
  destruct (Zdigits2_bounds (Zpos m1)) as (_ & _ & Hhi1); [lia|].
  destruct (Zdigits2_bounds (Zpos m2)) as (_ & Hlo2 & _); [lia|].
  rewrite Hd2 in Hlo2.
  assert (2 ^ Zdigits2 (Zpos m1) <= 2 ^ prec) by (apply Z.pow_le_mono_r; lia).
  assert (2 ^ 1 <= 2 ^ (e2 - e1)) as Hstep by (apply Z.pow_le_mono_r; lia).
  change (2 ^ 1) with 2 in Hstep.
  assert (2 ^ prec = 2 ^ (prec - 1) * 2) as E.
  { replace prec with (Z.succ (prec - 1)) at 1 by lia.
    rewrite Z.pow_succ_r by lia. lia. }
  assert (0 < 2 ^ (prec - 1)) by (apply Z.pow_pos_nonneg; lia).
  nia.
Qed.

Lemma compare_aligned (m1 m2 : positive) (e1 e2 : Z) :
  bounded prec emax m1 e1 = true -> bounded prec emax m2 e2 = true ->
  (Zpos (fst (shl_align m1 e1 (Z.min e1 e2))) ?=
   Zpos (fst (shl_align m2 e2 (Z.min e1 e2)))) =
  match e1 ?= e2 with
  | Lt => Lt
  | Gt => Gt
  | Eq => Pos.compare_cont Eq m1 m2
  end.
Proof.
  intros H1 H2.
  destruct (shl_align_spec m1 e1 (Z.min e1 e2)) as [-> _]; [lia|].
  destruct (shl_align_spec m2 e2 (Z.min e1 e2)) as [-> _]; [lia|].
  destruct (Z.compare_spec e1 e2) as [->|He|He].
  - rewrite Z.min_id, Z.sub_diag. simpl. rewrite !Pos.mul_1_r. reflexivity.
  - rewrite Z.min_l by lia. rewrite Z.sub_diag, Z.mul_1_r.
    apply Z.compare_lt_iff. by apply bounded_lt.
  - rewrite Z.min_r by lia. rewrite Z.sub_diag, Z.mul_1_r.
    apply Z.compare_gt_iff. by apply bounded_lt.
Qed.

Lemma binary_normalize_sign (m e : Z) :
  emin <= e ->
  JS.sort_compare (binary_normalize prec emax m e false) = (m ?= 0).
Proof.
  intros He. destruct m as [|p|p]; simpl.
  - reflexivity.
  - destruct (binary_round_pos false p e He)
      as [(m' & e' & ->)| ->]; reflexivity.
  - destruct (binary_round_pos true p e He)
      as [(m' & e' & ->)| ->]; reflexivity.
Qed.

(** The sign of a difference of binary floats is the outcome of their
    comparison. *)
Lemma SFsub_sign (x y : spec_float) (c : comparison) :
  valid_binary prec emax x = true -> valid_binary prec emax y = true ->
  SFcompare y x = Some c ->
  JS.sort_compare (SFsub prec emax y x) = c.
Proof.
  destruct y as [sy|sy| |sy my ey], x as [sx|sx| |sx mx ex]; simpl;
    intros Hx Hy [= <-]; try reflexivity;
    try (by destruct sy, sx); try (by destruct sy); try (by destruct sx).
  pose proof (bounded_facts _ _ Hx) as (Hex & _).
  pose proof (bounded_facts _ _ Hy) as (Hey & _).
  rewrite binary_normalize_sign by lia.
  pose proof (compare_aligned my mx ey ex Hy Hx) as Hal.
  set (ay := Zpos (fst (shl_align my ey (Z.min ey ex)))) in *.
  set (ax := Zpos (fst (shl_align mx ex (Z.min ey ex)))) in *.
  assert (0 < ay /\ 0 < ax) as [Hay Hax] by (subst ay ax; lia).
  destruct sy, sx; simpl.
  - rewrite <- Z.compare_sub, Z.compare_opp, (Z.compare_antisym ay ax), Hal.
    by destruct (ey ?= ex).
  - first [reflexivity|apply Z.compare_lt_iff; lia].
  - first [reflexivity|apply Z.compare_gt_iff; lia].
  - rewrite <- Z.compare_sub, Hal. by destruct (ey ?= ex).
Qed.

Lemma shr_1_r (mrs : shr_record) :
  0 <= shr_m mrs -> shr_r (shr_1 mrs) = Z.odd (shr_m mrs).
Proof. destruct mrs as [[|[p|p|]|p] r s]; simpl; intros; try done; lia. Qed.

(** The last of [n] shifts acts on the mantissa shifted [n - 1] times. *)
Lemma iter_shr_1_last (n : positive) : forall mrs,
  0 <= shr_m mrs ->
  exists y,
    SpecFloat.iter_pos shr_1 n mrs = shr_1 y /\
    shr_m y = shr_m mrs / 2 ^ (Zpos n - 1).
Proof.
  induction n as [n IH|n IH|]; intros mrs Hm; simpl SpecFloat.iter_pos.
  - assert (0 < 2 ^ Zpos n) as Hpow by (apply Z.pow_pos_nonneg; lia).
    pose proof (shr_1_nonneg mrs Hm) as H1.
    destruct (IH (SpecFloat.iter_pos shr_1 n (shr_1 mrs))) as (y & -> & Hy).
    { rewrite iter_shr_1_m by done. apply Z.div_pos; lia. }
    exists y. split; [done|]. rewrite Hy, iter_shr_1_m, shr_1_m by done.
    assert (0 < 2 ^ (Zpos n - 1)) by (apply Z.pow_pos_nonneg; lia).
    rewrite !Z.div_div by lia. f_equal.
    replace (Zpos n~1 - 1) with (1 + Zpos n + (Zpos n - 1)) by lia.
    rewrite !Z.pow_add_r by lia. change (2 ^ 1) with 2. ring.
  - assert (0 < 2 ^ Zpos n) as Hpow by (apply Z.pow_pos_nonneg; lia).
    destruct (IH (SpecFloat.iter_pos shr_1 n mrs)) as (y & -> & Hy).
    { rewrite iter_shr_1_m by done. apply Z.div_pos; lia. }
    exists y. split; [done|]. rewrite Hy, iter_shr_1_m by done.
    assert (0 < 2 ^ (Zpos n - 1)) by (apply Z.pow_pos_nonneg; lia).
    rewrite !Z.div_div by lia. f_equal.
    replace (Zpos n~0 - 1) with (Zpos n + (Zpos n - 1)) by lia.
    by rewrite !Z.pow_add_r by lia.
  - exists mrs. split; [done|]. simpl. by rewrite Z.div_1_r.
Qed.

Lemma round_nearest_even_up (mrs : shr_record) :
  round_nearest_even (shr_m mrs) (loc_of_shr_record mrs) <> shr_m mrs ->
  shr_r mrs = true.
Proof. destruct mrs as [m [] []]; simpl; try done. Qed.

(** Rounding to nearest an exact mantissa goes up by at most half a unit
    of the last place kept. *)
Lemma shr_fexp_nearest (m e : Z) :
  0 <= m ->
  let n := fexp (Zdigits2 m + e) - e in
  let '(mrs, e') := shr_fexp prec emax m e loc_Exact in
  let m1 := round_nearest_even (shr_m mrs) (loc_of_shr_record mrs) in
  (n <= 0 -> m1 = m /\ e' = e) /\
  (0 < n -> m1 * 2 ^ n <= m + 2 ^ (n - 1) /\ e' = e + n).
Proof.
  intros Hm n. unfold shr_fexp, shr. fold n.
  destruct n as [|p|p] eqn:En; simpl shr_record_of_loc; cbv iota.
  - split; [done|lia].
  - split; [lia|]. intros _. split; [|done].
    destruct (iter_shr_1_last p {| shr_m := m; shr_r := false; shr_s := false |})
      as (y & Hlast & Hy); [done|]. simpl in Hy.
    assert (0 < 2 ^ (Zpos p - 1)) as Hpow by (apply Z.pow_pos_nonneg; lia).
    assert (0 <= shr_m y) as Hy0 by (rewrite Hy; apply Z.div_pos; lia).
    rewrite Hlast.
    assert (2 ^ Zpos p = 2 * 2 ^ (Zpos p - 1)) as Epow.
    { replace (Zpos p) with (Z.succ (Zpos p - 1)) at 1 by lia.
      by rewrite Z.pow_succ_r by lia. }
    pose proof (Z.div_mod m (2 ^ (Zpos p - 1)) ltac:(lia)) as Hdiv.
    pose proof (Z.mod_pos_bound m (2 ^ (Zpos p - 1)) Hpow) as Hmod.
    rewrite <- Hy in Hdiv.
    pose proof (Z.div_mod (shr_m y) 2 ltac:(lia)) as Hdiv2.
    pose proof (Z.mod_pos_bound (shr_m y) 2 ltac:(lia)) as Hmod2.
    destruct (Z.eq_dec (round_nearest_even (shr_m (shr_1 y))
                          (loc_of_shr_record (shr_1 y))) (shr_m (shr_1 y)))
      as [->|Hup].
    + rewrite shr_1_m by done. nia.
    + destruct (round_nearest_even_cases (shr_m (shr_1 y))
                  (loc_of_shr_record (shr_1 y))) as [?|Hplus]; [done|].
      rewrite Hplus.
      apply round_nearest_even_up in Hup. rewrite shr_1_r in Hup by done.
      rewrite Zodd_mod in Hup. apply Z.eqb_eq in Hup.
      rewrite shr_1_m by done. nia.
  - split; [done|lia].
Qed.


Lemma round_nearest_even_ge (m : Z) (l : location) :
  m <= round_nearest_even m l.
Proof. destruct (round_nearest_even_cases m l) as [->| ->]; lia. Qed.

(** A canonical mantissa is left as it is. *)
Lemma binary_round_aux_exact (s : bool) (m : positive) (e : Z) :
  fexp (Zdigits2 (Zpos m) + e) = e -> e <= emax - prec ->
  binary_round_aux prec emax s (Zpos m) e loc_Exact = S754_finite s m e.
Proof.
  intros Hcanon Hbound. unfold binary_round_aux.
  pose proof (shr_fexp_nearest (Zpos m) e ltac:(lia)) as H1. cbv zeta in H1.
  destruct (shr_fexp prec emax (Zpos m) e loc_Exact) as [mrs' e'].
  destruct H1 as [[-> ->] _]; [lia|].
  pose proof (shr_fexp_spec (Zpos m) e loc_Exact ltac:(lia)) as H2.
  cbv zeta in H2.
  destruct (shr_fexp prec emax (Zpos m) e loc_Exact) as [mrs'' e''].
  destruct H2 as [[-> ->] _]; [lia|].
  by apply Z.leb_le in Hbound as ->.
Qed.

(** The floor of a rounded value stays below every integer [T] that the
    value is below, by more than half a unit of the last place if it is
    rounded at all. *)
Lemma binary_round_aux_floor_below (X E T : Z) :
  0 <= X -> E <= 0 -> T <= 2 ^ (emax - prec) ->
  let n := fexp (Zdigits2 X + E) - E in
  (n <= 0 -> X < T * 2 ^ (- E)) ->
  (0 < n -> X + 2 ^ (n - 1) < T * 2 ^ (- E)) ->
  exists z,
    ffloor (binary_round_aux prec emax false X E loc_Exact) = Some z /\
    0 <= z < T.
Proof.
  intros HX HE HT n Hexact Hrounded. unfold binary_round_aux.
  pose proof (shr_fexp_nearest X E HX) as H1. cbv zeta in H1. fold n in H1.
  pose proof (shr_fexp_spec X E loc_Exact HX) as H1'. cbv zeta in H1'.
  destruct (shr_fexp prec emax X E loc_Exact) as [mrs' e'].
  set (m1 := round_nearest_even (shr_m mrs') (loc_of_shr_record mrs')) in *.
  assert (0 < 2 ^ (- E)) as HpowE by (apply Z.pow_pos_nonneg; lia).
  assert (0 < T) as HTpos.
  { destruct (Z.le_gt_cases n 0) as [Hn|Hn].
    - specialize (Hexact Hn). nia.
    - specialize (Hrounded Hn).
      assert (0 < 2 ^ (n - 1)) by (apply Z.pow_pos_nonneg; lia). nia. }
  assert (0 <= m1) as Hm1.
  { pose proof (round_nearest_even_ge (shr_m mrs') (loc_of_shr_record mrs')).
    fold m1 in H.
    assert (0 <= shr_m mrs'); [|lia].
    destruct H1' as [Hle Hgt].
    destruct (Z.le_gt_cases (fexp (Zdigits2 X + E) - E) 0) as [Hn|Hn].
    - by destruct (Hle Hn) as [-> _].
    - destruct (Hgt Hn) as [-> _]. apply Z.div_pos; [done|].
      apply Z.pow_pos_nonneg; lia. }
  assert (exists s1, 0 <= s1 /\ e' = E + s1 /\ m1 * 2 ^ s1 < T * 2 ^ (- E))
    as (s1 & Hs1 & -> & Hlt1).
  { destruct H1 as [Hle Hgt]. destruct (Z.le_gt_cases n 0) as [Hn|Hn].
    - destruct (Hle Hn) as [-> ->]. exists 0. rewrite Z.add_0_r, Z.mul_1_r.
      repeat split; [done|]. by apply Hexact.
    - destruct (Hgt Hn) as [Hup ->]. exists n. repeat split; [lia|].
      specialize (Hrounded Hn). lia. }
  clear H1 H1'.
  pose proof (shr_fexp_spec m1 (E + s1) loc_Exact Hm1) as H2. cbv zeta in H2.
  destruct (shr_fexp prec emax m1 (E + s1) loc_Exact) as [mrs'' e''].
  assert (exists s2, 0 <= s2 /\ e'' = E + s2 /\
            0 <= shr_m mrs'' /\ shr_m mrs'' * 2 ^ s2 < T * 2 ^ (- E))
    as (s2 & Hs2 & -> & Hm2 & Hlt2).
  { destruct H2 as [Hle Hgt].
    destruct (Z.le_gt_cases (fexp (Zdigits2 m1 + (E + s1)) - (E + s1)) 0)
      as [Hn|Hn].
    - destruct (Hle Hn) as [-> ->]. by exists s1.
    - destruct (Hgt Hn) as [-> ->].
      set (n2 := fexp (Zdigits2 m1 + (E + s1)) - (E + s1)) in *.
      assert (0 < 2 ^ n2) by (apply Z.pow_pos_nonneg; lia).
      assert (0 < 2 ^ s1) by (apply Z.pow_pos_nonneg; lia).
      exists (s1 + n2). repeat split; [lia|lia|apply Z.div_pos; lia|].
      rewrite Z.pow_add_r by lia.
      pose proof (Z.mul_div_le m1 (2 ^ n2) ltac:(lia)). nia. }
  destruct (shr_m mrs'') as [|q|q] eqn:Eq; [| |lia].
  - exists 0. split; [done|lia].
  - assert (0 < 2 ^ s2) as Hpow2 by (apply Z.pow_pos_nonneg; lia).
    assert (E + s2 <= emax - prec) as Hbound.
    { destruct (Z.le_gt_cases (E + s2) (emax - prec)) as [?|Hbig]; [done|].
      assert (2 ^ (emax - prec - E) <= 2 ^ s2)
        by (apply Z.pow_le_mono_r; lia).
      assert (2 ^ (emax - prec - E) = 2 ^ (emax - prec) * 2 ^ (- E)) as Epow.
      { rewrite <- Z.pow_add_r by lia. f_equal; lia. }
      nia. }
    apply Z.leb_le in Hbound as ->. simpl ffloor. eexists. split; [done|].
    destruct (Z.le_gt_cases 0 (E + s2)) as [Hnonneg|Hneg].
    + rewrite Z.shiftl_mul_pow2 by done.
      assert (0 < 2 ^ (E + s2)) by (apply Z.pow_pos_nonneg; lia).
      split; [lia|].
      assert (2 ^ s2 = 2 ^ (E + s2) * 2 ^ (- E)) as Epow.
      { rewrite <- Z.pow_add_r by lia. f_equal; lia. }
      nia.
    + rewrite Z.shiftl_div_pow2 by lia.
      assert (0 < 2 ^ (- (E + s2))) by (apply Z.pow_pos_nonneg; lia).
      split; [apply Z.div_pos; lia|].
      apply Z.div_lt_upper_bound; [done|].
      assert (2 ^ (- E) = 2 ^ (- (E + s2)) * 2 ^ s2) as Epow.
      { rewrite <- Z.pow_add_r by lia. f_equal; lia. }
      nia.
Qed.


(** An integer of at most [prec] digits is represented exactly, with a
    full mantissa. *)
Lemma binary_normalize_small (n : positive) :
  Zdigits2 (Zpos n) <= prec ->
  exists m e,
    binary_normalize prec emax (Zpos n) 0 false = S754_finite false m e /\
    1 - prec <= e <= 0 /\
    2 ^ (prec - 1) <= Zpos m /\
    Zpos m = Zpos n * 2 ^ (- e).
Proof.
  intros Hd.
  destruct (Zdigits2_bounds (Zpos n)) as (Hdpos & Hlo & _); [lia|].
  set (d := Zdigits2 (Zpos n)) in *.
  assert (fexp (d + 0) = d - prec) as Hf.
  { unfold SpecFloat.fexp, SpecFloat.emin. lia. }
  unfold binary_normalize, binary_round.
  change (Zpos (digits2_pos n)) with d. rewrite Hf.
  destruct (shl_align_spec n 0 (d - prec)) as [Hm He]; [lia|].
  destruct (shl_align n 0 (d - prec)) as [mz ez]. simpl in Hm, He. subst ez.
  replace (0 - (d - prec)) with (prec - d) in Hm by lia.
  exists mz, (d - prec). split; [|split; [lia|split]].
  - apply binary_round_aux_exact; [|lia].
    rewrite Hm, Zdigits2_mul_pow by lia. fold d.
    unfold SpecFloat.fexp, SpecFloat.emin. lia.
  - rewrite Hm.
    assert (2 ^ (prec - 1) = 2 ^ (d - 1) * 2 ^ (prec - d)) as ->.
    { rewrite <- Z.pow_add_r by lia. f_equal; lia. }
    apply Z.mul_le_mono_nonneg_r; [|done].
    apply Z.pow_nonneg; lia.
  - rewrite Hm. f_equal. f_equal; lia.
Qed.

(** The product of a value below one and an integer [n], floored, is
    below [n]: rounding the product cannot reach [n]. *)
Lemma SFmul_floor_below (mr mN : positive) (er eN n : Z) :
  bounded prec emax mr er = true ->
  er < 0 -> Zpos mr < 2 ^ (- er) ->
  1 - prec <= eN <= 0 -> 2 ^ (prec - 1) <= Zpos mN ->
  Zpos mN = n * 2 ^ (- eN) -> n <= 2 ^ (emax - prec) ->
  exists z,
    ffloor (SFmul prec emax (S754_finite false mr er)
              (S754_finite false mN eN)) = Some z /\
    0 <= z < n.
Proof.
  intros (Her & Hdr & _)%bounded_facts Hneg Hr HeN HmN Hn Hbig.
  unfold SFmul. simpl xorb. rewrite Pos2Z.inj_mul.
  assert (0 < 2 ^ (- er)) by (apply Z.pow_pos_nonneg; lia).
  assert (0 < 2 ^ (- eN)) by (apply Z.pow_pos_nonneg; lia).
  assert (2 ^ (- (er + eN)) = 2 ^ (- er) * 2 ^ (- eN)) as Hpow.
  { rewrite <- Z.pow_add_r by lia. f_equal; lia. }
  assert (Zpos mr * Zpos mN + Zpos mN <= n * 2 ^ (- (er + eN))) as Hbelow.
  { rewrite Hpow.
    replace (n * (2 ^ (- er) * 2 ^ (- eN))) with (Zpos mN * 2 ^ (- er))
      by (rewrite Hn; ring).
    nia. }
  apply binary_round_aux_floor_below; [lia|lia|done|lia|].
  intros Hshift. enough (2 ^ (fexp (Zdigits2 (Zpos mr * Zpos mN) + (er + eN))
                              - (er + eN) - 1) < Zpos mN) by lia.
  set (X := Zpos mr * Zpos mN) in *.
  destruct (Zdigits2_bounds X) as (_ & HloX & _); [lia|].
  set (dX := Zdigits2 X) in *.
  unfold SpecFloat.fexp in *.
  destruct (Z.max_spec (dX + (er + eN) - prec) emin) as [[_ Hmax]|[_ Hmax]];
    rewrite Hmax in *.
  - apply Z.lt_le_trans with (2 ^ (prec - 1)); [|done].
    apply Z.pow_lt_mono_r; lia.
  - set (k := dX + (er + eN) - prec - (er + eN) - 1) in *.
    assert (0 <= k) by lia.
    assert (Zpos mr < 2 ^ prec) as Hmr.
    { destruct (Zdigits2_bounds (Zpos mr)) as (_ & _ & Hhi); [lia|].
      eapply Z.lt_le_trans; [exact Hhi|]. apply Z.pow_le_mono_r; lia. }
    assert (2 ^ (dX - 1) = 2 ^ k * 2 ^ prec) as Epow.
    { rewrite <- Z.pow_add_r by lia. f_equal; lia. }
    assert (0 < 2 ^ prec) by (apply Z.pow_pos_nonneg; lia).
    assert (X < 2 ^ prec * Zpos mN) by (unfold X; nia).
    apply Z.mul_lt_mono_pos_r with (2 ^ prec); lia.
Qed.

End Binary.

(** ** The order of the comparisons *)

Section Order.

Lemma SFcompare_key (x y : number) :
  is_nan x = false -> is_nan y = false ->
  SFcompare x y = Some (lex3 (SFkey x) (SFkey y)).
Proof.
  destruct x as [sx|[]| |[] mx ex], y as [sy|[]| |[] my ey]; try done;
    intros _ _; simpl; unfold lex3; simpl.
  rewrite Z.compare_opp, (Z.compare_antisym ey ex).
  by destruct (ey ?= ex).
Qed.

Lemma lex3_Gt (a b : Z * Z * Z) :
  lex3 a b = Gt <->
  b.1.1 < a.1.1 \/
  (a.1.1 = b.1.1 /\ (b.1.2 < a.1.2 \/ (a.1.2 = b.1.2 /\ b.2 < a.2))).
Proof.
  unfold lex3.
  destruct (Z.compare_spec a.1.1 b.1.1), (Z.compare_spec a.1.2 b.1.2),
           (Z.compare_spec a.2 b.2); split; try done; lia.
Qed.

Lemma lex3_Eq (a b : Z * Z * Z) :
  lex3 a b = Eq <-> a.1.1 = b.1.1 /\ a.1.2 = b.1.2 /\ a.2 = b.2.
Proof.
  unfold lex3.
  destruct (Z.compare_spec a.1.1 b.1.1), (Z.compare_spec a.1.2 b.1.2),
           (Z.compare_spec a.2 b.2); split; try done; lia.
Qed.

(** [x > y] and [y >= z] give [x > z]. *)
Lemma SFcompare_Gt_trans (x y z : number) :
  SFcompare x y = Some Gt ->
  SFcompare y z = Some Gt \/ SFcompare y z = Some Eq ->
  SFcompare x z = Some Gt.
Proof.
  intros Hxy Hyz.
  assert (is_nan x = false /\ is_nan y = false /\ is_nan z = false)
    as (Hx & Hy & Hz).
  { destruct x as [| | |], y as [| | |], z as [| | |]; simpl in *;
      try done; by destruct Hyz. }
  rewrite SFcompare_key in * by done.
  injection Hxy as Hxy. apply lex3_Gt in Hxy. f_equal. apply lex3_Gt.
  destruct Hyz as [[= Hyz]|[= Hyz]].
  - apply lex3_Gt in Hyz. lia.
  - apply lex3_Eq in Hyz. lia.
Qed.

Lemma SFcompare_total (x y : number) :
  is_nan x = false -> is_nan y = false -> exists c, SFcompare x y = Some c.
Proof. intros Hx Hy. rewrite SFcompare_key by done. eauto. Qed.

End Order.

(** ** Numbers of the language *)

Section Numbers.

Import Spec.

Lemma prec_gt_0 : 0 < prec.
Proof. done. Qed.

Lemma prec_lt_emax : prec < emax.
Proof. done. Qed.

Lemma fdiv_valid (x y : number) : valid (fdiv x y) = true.
Proof. apply SFdiv_valid; done. Qed.

(** What [sort] reads off the difference of two orderable numbers is the
    outcome of their comparison. *)
Lemma sort_compare_fsub (x y : number) (c : comparison) :
  orderable x -> orderable y ->
  SFcompare x y = Some c -> JS.sort_compare (fsub x y) = c.
Proof.
  intros [Hx _] [Hy _]. by apply SFsub_sign.
Qed.

Lemma fgt_compare (x y : number) : fgt x y = true <-> SFcompare x y = Some Gt.
Proof.
  unfold fgt, SFltb. rewrite (SFcompare_swap x y).
  destruct (SFcompare x y) as [[]|]; simpl; split; done.
Qed.

Lemma feq_compare (x y : number) : feq x y = true <-> SFcompare x y = Some Eq.
Proof.
  unfold feq, SFeqb. destruct (SFcompare x y) as [[]|]; split; done.
Qed.

Lemma fge_compare (x y : number) :
  fge x y = true <-> SFcompare x y = Some Gt \/ SFcompare x y = Some Eq.
Proof.
  unfold fge, SFleb. rewrite (SFcompare_swap x y).
  destruct (SFcompare x y) as [[]|]; simpl;
    (split; [intros ?; first [by left|by right|done]|by intros [?|?]]).
Qed.

(** [Math.floor(r * n)] is an index below [n] when [r] is a value of
    [Math.random] and [n] a positive array length: the rounding of the
    product cannot reach [n]. *)
Lemma random_index_in_range (r : number) (n : Z) :
  unit_interval r -> 1 <= n < 2 ^ 53 ->
  exists z, ffloor (fmul r (of_Z n)) = Some z /\ 0 <= z < n.
Proof.
  intros (Hvalid & Hge & Hlt) Hn.
  destruct n as [|p|p]; [lia| |lia].
  assert (Zdigits2 (Zpos p) <= prec) as Hd.
  { destruct (Zdigits2_bounds (Zpos p)) as (_ & Hlo & _); [lia|].
    destruct (Z.le_gt_cases (Zdigits2 (Zpos p)) prec) as [?|Hbig]; [done|].
    unfold prec in Hbig.
    assert (2 ^ 53 <= 2 ^ (Zdigits2 (Zpos p) - 1))
      by (apply Z.pow_le_mono_r; lia).
    lia. }
  destruct (binary_normalize_small prec emax prec_gt_0 prec_lt_emax p Hd)
    as (mN & eN & HN & HeN & HmN & Hval).
  unfold fmul, of_Z. rewrite HN.
  destruct r as [s|[]| |[] mr er];
    try (simpl in Hge; discriminate);
    try (simpl in Hlt; discriminate).
  - exists 0. split; [done|lia].
  - pose proof (bounded_facts prec emax mr er Hvalid) as (Her & Hdr & _).
    assert (Zpos mr < 2 ^ prec) as Hmr.
    { destruct (Zdigits2_bounds (Zpos mr)) as (_ & _ & Hhi); [lia|].
      eapply Z.lt_le_trans; [exact Hhi|]. apply Z.pow_le_mono_r; lia. }
    assert (er < 0 /\ Zpos mr < 2 ^ (- er)) as [Hneg Hbelow].
    { unfold flt, SFltb, one in Hlt. cbn [SFcompare] in Hlt.
      destruct (Z.compare_spec er (-52)) as [->|Hlow|Hhigh]; [| |done].
      - split; [lia|].
        destruct (Pos.compare_cont Eq mr 4503599627370496) eqn:Ecmp;
          try discriminate.
        exact Ecmp.
      - split; [lia|]. eapply Z.lt_le_trans; [exact Hmr|].
        apply Z.pow_le_mono_r; unfold prec; lia. }
    apply (SFmul_floor_below prec emax prec_gt_0 prec_lt_emax mr mN er eN
             (Zpos p) Hvalid Hneg Hbelow HeN HmN Hval).
    apply Z.le_trans with (2 ^ 53); [lia|].
    apply Z.pow_le_mono_r; [lia|]. unfold emax, prec. lia.
Qed.

End Numbers.

(** ** The array operations *)

Section Arrays.

Context {A : Type}.

Lemma insert_perm (comparefn : A -> A -> number) (x : A) (l : list A) :
  JS.insert comparefn x l ≡ₚ x :: l.
Proof.
  induction l as [|y l IH]; simpl; [done|].
  destruct (JS.sort_compare (comparefn y x)); try done;
    by rewrite IH, Permutation_swap.
Qed.

Lemma sort_from_perm (comparefn : A -> A -> number) (l acc : list A) :
  fold_left (fun sorted x => JS.insert comparefn x sorted) l acc ≡ₚ acc ++ l.
Proof.
  revert acc. induction l as [|x l IH]; intros acc; simpl.
  - by rewrite app_nil_r.
  - rewrite IH, insert_perm. simpl. apply Permutation_middle.
Qed.

Lemma sort_perm (comparefn : A -> A -> number) (l : list A) :
  JS.sort comparefn l ≡ₚ l.
Proof. unfold JS.sort. by rewrite sort_from_perm. Qed.

Lemma slice0_sublist (l : list A) (k : Z) : JS.slice0 l k `sublist_of` l.
Proof. unfold JS.slice0. case_decide; apply sublist_take. Qed.

Lemma slice0_nonneg (l : list A) (k : Z) :
  0 <= k -> JS.slice0 l k = take (Z.to_nat k) l.
Proof. intros Hk. unfold JS.slice0. case_decide; [lia|done]. Qed.

Lemma elem_of_slice0_sort (comparefn : A -> A -> number) (l : list A) (k : Z)
    (x : A) :
  x ∈ JS.slice0 (JS.sort comparefn l) k -> x ∈ l.
Proof.
  intros Hx. rewrite <- (sort_perm comparefn l).
  eapply elem_of_sublist; [done|apply slice0_sublist].
Qed.

End Arrays.

(** ** Loops in the monad *)

Section Loops.

Context {A S : Type}.

Lemma for_of_invariant (P : S -> Prop) (body : S -> A -> M S) (l : list A) :
  (forall s x w s' w',
     x ∈ l -> P s -> body s x w = (Ok s', w') -> P s') ->
  forall s w s' w', P s -> for_of body l s w = (Ok s', w') -> P s'.
Proof.
  induction l as [|x l IH]; intros Hbody s w s' w' Hs; simpl.
  - unfold ret. by intros [= <- _].
  - unfold bind. destruct (body s x w) as [[s1|e] w1] eqn:E; [|done].
    apply IH.
    + intros ? y **. eapply Hbody; [|done..]. by apply list_elem_of_further.
    + eapply Hbody; [apply list_elem_of_here|done..].
Qed.

End Loops.

(** ** More on loops: indices, totality *)

Section LoopsMore.

Lemma reduce_from_index_invariant {A B : Type} (P : B -> Prop)
    (f : B -> A -> nat -> B) (a : list A) :
  forall i acc,
    (forall acc x j, P acc -> (i <= j < i + length a)%nat -> P (f acc x j)) ->
    P acc -> P (JS.reduce_from f i a acc).
Proof.
  induction a as [|x a IH]; intros i acc Hf Hacc; simpl; [done|].
  apply IH.
  - intros acc' y j Hacc' Hj. apply Hf; [done|]. simpl. lia.
  - apply Hf; [done|]. simpl. lia.
Qed.

Lemma for_of_total {A S : Type} (I : S -> Prop) (body : S -> A -> M S)
    (l : list A) :
  (forall s x, x ∈ l -> I s ->
     exists s', I s' /\ forall w, body s x w = (Ok s', w)) ->
  forall s, I s -> exists s', I s' /\ forall w, for_of body l s w = (Ok s', w).
Proof.
  induction l as [|x l IH]; intros Hbody s Hs; simpl.
  - by exists s.
  - destruct (Hbody s x) as (s1 & Hs1 & Hx); [apply list_elem_of_here|done|].
    destruct (IH (fun s y Hy => Hbody s y (list_elem_of_further _ _ _ Hy)) s1 Hs1)
      as (s' & Hs' & Hl).
    exists s'. split; [done|]. intros w. unfold bind. by rewrite Hx, Hl.
Qed.

End LoopsMore.

(** ** Computations without effects *)

Section Stateless.

Import Spec.

Lemma stateless_ret {A : Type} (a : A) : stateless (mret a : M A).
Proof. by exists (Ok a). Qed.

Lemma stateless_throw {A : Type} (e : error) : stateless (throw e : M A).
Proof. by exists (Throw e). Qed.

Lemma stateless_bind {A B : Type} (c : M A) (k : A -> M B) :
  stateless c -> (forall a, stateless (k a)) -> stateless (c ≫= k).
Proof.
  intros [[a|e] Hc] Hk.
  - destruct (Hk a) as [out Hout]. exists out. intros w.
    unfold mbind, M_bind, bind. by rewrite Hc, Hout.
  - exists (Throw e). intros w. unfold mbind, M_bind, bind. by rewrite Hc.
Qed.

Lemma stateless_for_of {A S : Type} (body : S -> A -> M S) (l : list A) :
  (forall s x, stateless (body s x)) -> forall s, stateless (for_of body l s).
Proof.
  intros Hbody. induction l as [|x l IH]; intros s; simpl.
  - apply (stateless_ret s).
  - apply (stateless_bind (body s x) (for_of body l)); [apply Hbody|apply IH].
Qed.

Lemma stateless_world {A : Type} (c : M A) (w w' : world) (out : outcome A) :
  stateless c -> c w = (out, w') -> w' = w /\ forall w1, c w1 = (out, w1).
Proof.
  intros [out' Hc]. rewrite Hc. intros [= <- <-]. by split.
Qed.

End Stateless.

(** ** [sort] with a difference as comparison function *)

Section Sorting.

Import Spec.

Context {A : Type} (sim : A -> number).

(** An element tagged with its position ranks before another one. *)
#[local] Abbreviation before := (fun p q : nat * A =>
  SFcompare (sim p.2) (sim q.2) = Some Gt \/
  (SFcompare (sim p.2) (sim q.2) = Some Eq /\ (p.1 < q.1)%nat)).

#[local] Abbreviation by_sim := (fun a b : A => fsub (sim b) (sim a)).
#[local] Abbreviation tagged_by_sim :=
  (fun a b : nat * A => fsub (sim b.2) (sim a.2)).

Lemma insert_fmap {B : Type} (g : B -> A) (comparefn : A -> A -> number)
    (x : B) (l : list B) :
  JS.insert comparefn (g x) (g <$> l) =
  g <$> JS.insert (fun a b => comparefn (g a) (g b)) x l.
Proof.
  induction l as [|y l IH]; [done|]. rewrite fmap_cons. cbn [JS.insert].
  destruct (JS.sort_compare (comparefn (g y) (g x)));
    rewrite ?fmap_cons, ?IH; done.
Qed.

Lemma sort_fmap {B : Type} (g : B -> A) (comparefn : A -> A -> number)
    (l : list B) :
  JS.sort comparefn (g <$> l) =
  g <$> JS.sort (fun a b => comparefn (g a) (g b)) l.
Proof.
  unfold JS.sort. change (@nil A) with (g <$> @nil B).
  generalize (@nil B). induction l as [|x l IH]; intros acc; simpl; [done|].
  by rewrite insert_fmap, IH.
Qed.

Lemma insert_ranked (p : nat * A) (acc : list (nat * A)) :
  orderable (sim p.2) ->
  Forall (fun q => orderable (sim q.2)) acc ->
  Forall (fun q => (q.1 < p.1)%nat) acc ->
  StronglySorted before acc ->
  StronglySorted before (JS.insert tagged_by_sim p acc).
Proof.
  intros Hp. induction acc as [|y rest IH]; intros Hacc Htags Hsorted; simpl.
  - repeat constructor.
  - apply Forall_cons in Hacc as [Hy Hrest].
    apply Forall_cons in Htags as [Hyp Htags].
    apply StronglySorted_inv in Hsorted as [Hsorted Hyrest].
    destruct (SFcompare_total (sim p.2) (sim y.2)) as [c Hc];
      [apply Hp|apply Hy|].
    rewrite (sort_compare_fsub _ _ c Hp Hy Hc).
    pose proof (SFcompare_swap (sim p.2) (sim y.2)) as Hswap.
    rewrite Hc in Hswap. simpl in Hswap.
    destruct c.
    + constructor; [by apply IH|]. rewrite insert_perm.
      constructor; [|done]. by right.
    + constructor; [by apply IH|]. rewrite insert_perm.
      constructor; [|done]. by left.
    + constructor; [by constructor|]. constructor; [by left|].
      eapply Forall_impl; [exact Hyrest|]. intros q [Hq|[Hq _]]; left.
      * eapply SFcompare_Gt_trans; [exact Hc|by left].
      * eapply SFcompare_Gt_trans; [exact Hc|by right].
Qed.

Lemma sort_from_ranked (l : list (nat * A)) : forall acc,
  Forall (fun q => orderable (sim q.2)) l ->
  Forall (fun q => orderable (sim q.2)) acc ->
  Forall (fun q => Forall (fun p => (q.1 < p.1)%nat) l) acc ->
  StronglySorted (fun a b => (a.1 < b.1)%nat) l ->
  StronglySorted before acc ->
  StronglySorted before
    (fold_left (fun sorted x => JS.insert tagged_by_sim x sorted) l acc).
Proof.
  induction l as [|p l IH]; intros acc Hl Hacc Htags Hincr Hsorted; simpl;
    [done|].
  apply Forall_cons in Hl as [Hp Hl].
  apply StronglySorted_inv in Hincr as [Hincr Hpl].
  apply IH; try done.
  - rewrite insert_perm. by constructor.
  - rewrite insert_perm. constructor; [done|].
    eapply Forall_impl; [exact Htags|]. intros q Hq.
    by apply Forall_cons in Hq as [_ ?].
  - apply insert_ranked; try done.
    eapply Forall_impl; [exact Htags|]. intros q Hq.
    by apply Forall_cons in Hq as [? _].
Qed.

Lemma zip_seq_increasing (l : list A) : forall i,
  StronglySorted (fun a b : nat * A => (a.1 < b.1)%nat)
                 (zip (seq i (length l)) l).
Proof.
  induction l as [|x l IH]; intros i; simpl; constructor; [apply IH|].
  apply Forall_forall. intros [j y] Hj.
  apply elem_of_zip_l, elem_of_seq in Hj. simpl. lia.
Qed.

Lemma zip_seq_lookup (l : list A) (p : nat * A) :
  p ∈ zip (seq 0 (length l)) l -> l !! p.1 = Some p.2.
Proof.
  intros (i & Hi)%list_elem_of_lookup. destruct p as [j x].
  apply lookup_zip_Some in Hi as [Hj Hx].
  apply lookup_seq in Hj as [-> _]. done.
Qed.

Lemma StronglySorted_fmap_strong {B C : Type} (R : relation B)
    (R' : relation C) (g : B -> C) (P : B -> Prop) (l : list B) :
  (forall x y, P x -> P y -> R x y -> R' (g x) (g y)) ->
  Forall P l -> StronglySorted R l -> StronglySorted R' (g <$> l).
Proof.
  intros HR. induction l as [|x l IH]; intros HP Hsorted; simpl;
    [constructor|].
  apply Forall_cons in HP as [Hx HP].
  apply StronglySorted_inv in Hsorted as [Hsorted Hxl].
  constructor; [by apply IH|]. apply Forall_fmap, Forall_forall.
  intros y Hy. apply HR; try done.
  - by eapply Forall_forall in HP.
  - by eapply Forall_forall in Hxl.
Qed.

(** The sort ranks orderable similarities: the result lists the elements
    in the order of a ranking of their positions, greater similarity
    first, earlier insertion first among equals. *)
Lemma sort_ranking (l : list A) :
  Forall (fun x => orderable (sim x)) l ->
  exists ranking,
    ranking ≡ₚ seq 0 (length l) /\
    Forall2 (fun i x => l !! i = Some x) ranking (JS.sort by_sim l) /\
    StronglySorted (ranked_before (sim <$> l)) ranking /\
    StronglySorted (fun x y => fge (sim x) (sim y) = true) (JS.sort by_sim l).
Proof.
  intros Hl. set (tagged := zip (seq 0 (length l)) l).
  assert (snd <$> tagged = l) as Hsnd by (apply snd_zip; by rewrite length_seq).
  assert (fst <$> tagged = seq 0 (length l)) as Hfst
    by (apply fst_zip; by rewrite length_seq).
  set (sorted := JS.sort tagged_by_sim tagged).
  assert (JS.sort by_sim l = snd <$> sorted) as Hsort.
  { rewrite <- Hsnd at 1. apply (sort_fmap snd by_sim tagged). }
  assert (sorted ≡ₚ tagged) as Hperm by apply sort_perm.
  assert (Forall (fun p => l !! p.1 = Some p.2 /\ orderable (sim p.2)) sorted)
    as Hgood.
  { rewrite Hperm. apply Forall_forall. intros p Hp.
    apply zip_seq_lookup in Hp as Hlookup. split; [done|].
    eapply Forall_forall in Hl; [exact Hl|].
    by eapply list_elem_of_lookup_2. }
  assert (StronglySorted before sorted) as Hsorted.
  { apply sort_from_ranked; try constructor.
    - eapply Forall_impl; [rewrite <- Hperm; exact Hgood|]. by intros p [_ ?].
    - apply zip_seq_increasing. }
  exists (fst <$> sorted). repeat split.
  - by rewrite Hperm, Hfst.
  - rewrite Hsort. apply Forall2_fmap, Forall_Forall2_diag.
    eapply Forall_impl; [exact Hgood|]. by intros p [? _].
  - eapply StronglySorted_fmap_strong; [|exact Hgood|exact Hsorted].
    intros p q [Hp _] [Hq _] Hpq. exists (sim p.2), (sim q.2).
    rewrite !list_lookup_fmap, Hp, Hq. split; [done|]. split; [done|].
    destruct Hpq as [?|[? ?]]; [left; by apply fgt_compare|].
    right. split; [by apply feq_compare|done].
  - rewrite Hsort.
    eapply StronglySorted_fmap_strong; [|exact Hgood|exact Hsorted].
    intros p q _ _ Hpq. apply fge_compare.
    destruct Hpq as [?|[? _]]; [by left|by right].
Qed.

Lemma ranked_before_antisymm (sims : list number) :
  AntiSymm eq (ranked_before sims).
Proof.
  intros i j (x & y & Hi & Hj & Hij) (y' & x' & Hj' & Hi' & Hji).
  rewrite Hi in Hi'. rewrite Hj in Hj'.
  injection Hi' as <-. injection Hj' as <-.
  pose proof (SFcompare_swap x y) as Hswap.
  destruct Hij as [Hxy%fgt_compare|[Hxy%feq_compare Hlt]],
           Hji as [Hyx%fgt_compare|[Hyx%feq_compare Hlt']];
    rewrite Hxy, Hyx in Hswap; try discriminate. lia.
Qed.

(** For orderable similarities the result of the sort is fixed by the
    language: every arrangement of [l] that lists greater similarities
    first and equal ones in their order in [l], as a stable sort with the
    comparison function [by_sim] does, is the one [JS.sort] returns. *)
Lemma sort_ranking_unique (l sorted' : list A) (ranking' : list nat) :
  Forall (fun x => orderable (sim x)) l ->
  ranking' ≡ₚ seq 0 (length l) ->
  Forall2 (fun i x => l !! i = Some x) ranking' sorted' ->
  StronglySorted (ranked_before (sim <$> l)) ranking' ->
  sorted' = JS.sort by_sim l.
Proof.
  intros Hl Hperm' Hall' Hsorted'.
  destruct (sort_ranking l Hl) as (ranking & Hperm & Hall & Hsorted & _).
  assert (ranking' = ranking) as ->.
  { pose proof (ranked_before_antisymm (sim <$> l)) as Hanti.
    apply (@StronglySorted_unique _ _ Hanti); [done|done|by rewrite Hperm]. }
  eapply Forall2_unique; [exact Hall'|exact Hall|].
  intros i x y Hx Hy. congruence.
Qed.

End Sorting.

(** ** The methods, unfolded *)

Section Unfold.

Import InMemoryVectorStore.

Context (ollama : Ollama).

Lemma add_unfold (vectors : list entry) (id text : string)
    (metadata : gmap string value) (w : world) :
  add ollama vectors id text metadata w =
  match Runtime.embeddings ollama "nomic-embed-text" text with
  | Some embedding =>
      (Ok (vectors ++
           [{| id := id; vector := embedding;
               metadata := <["text" := VString text]> metadata |}]),
       log (EmbeddingsCall "nomic-embed-text" text) w)
  | None => (Throw ProviderError, log (EmbeddingsCall "nomic-embed-text" text) w)
  end.
Proof.
  unfold add, mbind, M_bind, bind, ollama_embeddings.
  by destruct (Runtime.embeddings ollama "nomic-embed-text" text).
Qed.

Lemma search_unfold (vectors : list entry) (query : string) (topK : Z)
    (w : world) :
  search ollama vectors query topK w =
  match Runtime.embeddings ollama "nomic-embed-text" query with
  | Some queryVector =>
      (Ok (JS.slice0
             (JS.sort by_similarity
                (map (fun item =>
                        with_similarity item
                          (cosineSimilarity queryVector (vector item)))
                     vectors))
             topK),
       log (EmbeddingsCall "nomic-embed-text" query) w)
  | None => (Throw ProviderError, log (EmbeddingsCall "nomic-embed-text" query) w)
  end.
Proof.
  unfold search, mbind, M_bind, bind, ollama_embeddings.
  by destruct (Runtime.embeddings ollama "nomic-embed-text" query).
Qed.

(** Every result of a search is a stored entry with its similarity to the
    query. *)
Lemma search_results_stored (vectors : list entry) (query : string)
    (topK : Z) (w w' : world) (results : list scored) (r : scored) :
  search ollama vectors query topK w = (Ok results, w') ->
  r ∈ results ->
  exists queryVector item,
    Runtime.embeddings ollama "nomic-embed-text" query = Some queryVector /\
    item ∈ vectors /\
    r = with_similarity item (cosineSimilarity queryVector (vector item)).
Proof.
  rewrite search_unfold.
  destruct (Runtime.embeddings ollama "nomic-embed-text" query) as [qv|];
    [|done].
  intros [= <- _] Hr. apply elem_of_slice0_sort in Hr.
  apply list_elem_of_fmap in Hr as (item & -> & Hitem). eauto.
Qed.

End Unfold.

(** ** [add] *)

Section Add.

Import InMemoryVectorStore Spec.

Context (ollama : Ollama).

Lemma add_all_stored (insertions : list insertion) (w w' : world)
    (vectors : list entry) :
  add_all ollama insertions w = (Ok vectors, w') ->
  Forall (fun item =>
            exists d, d ∈ insertions /\ id item = ins_id d /\
              metadata item = <["text" := VString (ins_text d)]> (ins_metadata d))
         vectors.
Proof.
  unfold add_all.
  apply (for_of_invariant
           (fun vs => Forall (fun item =>
              exists d, d ∈ insertions /\ id item = ins_id d /\
                metadata item =
                  <["text" := VString (ins_text d)]> (ins_metadata d)) vs));
    [|constructor].
  intros vs d w1 vs' w1' Hd Hvs. rewrite add_unfold.
  destruct (Runtime.embeddings ollama _ _); [|done].
  intros [= <- _]. apply Forall_app. split; [done|].
  constructor; [|constructor]. exists d. by simpl.
Qed.

(** C10.  [add] does not store the caller's metadata as it is: the stored
    entry carries the caller's metadata with the key ["text"] bound to the
    inserted text, whatever the caller had under that key, and other keys
    untouched; and every result of a search on a store filled by [add]
    carries, under ["text"] of its metadata, the text it was inserted with. *)
Theorem add_binds_text_in_metadata :
  (forall vectors id0 text metadata0 w vectors' w',
     add ollama vectors id0 text metadata0 w = (Ok vectors', w') ->
     exists stored,
       vectors' = vectors ++ [stored] /\
       id stored = id0 /\
       metadata stored = <["text" := VString text]> metadata0 /\
       metadata stored !! "text" = Some (VString text) /\
       forall key, key ≠ "text" -> metadata stored !! key = metadata0 !! key) /\
  (forall insertions w w1 vectors query topK w2 w3 results,
     add_all ollama insertions w = (Ok vectors, w1) ->
     search ollama vectors query topK w2 = (Ok results, w3) ->
     forall r, r ∈ results ->
       exists d, d ∈ insertions /\ s_id r = ins_id d /\
         s_metadata r !! "text" = Some (VString (ins_text d))).
Proof.
  split.
  - intros vectors id0 text metadata0 w vectors' w'. rewrite add_unfold.
    destruct (Runtime.embeddings ollama _ _) as [embedding|]; [|done].
    intros [= <- _]. eexists. split; [reflexivity|]. simpl.
    repeat split.
    + apply lookup_insert_eq.
    + intros key Hkey. by apply lookup_insert_ne.
  - intros insertions w w1 vectors query topK w2 w3 results Hadd Hsearch r Hr.
    destruct (search_results_stored _ _ _ _ _ _ _ _ Hsearch Hr)
      as (qv & item & _ & Hitem & ->).
    apply add_all_stored in Hadd.
    eapply Forall_forall in Hadd as (d & Hd & Hid & Hmeta); [|exact Hitem].
    exists d. simpl. rewrite Hmeta. split; [done|]. split; [done|].
    apply lookup_insert_eq.
Qed.

(** C2, as the code has it.  [add] compares no lengths: whenever the
    embedding request resolves, the new entry is appended, whatever the
    length of its vector and whatever the store holds; [add] fails only
    when the request is rejected, and then nothing is appended. *)
Theorem add_appends_whatever_the_dimension (vectors : list entry)
    (id0 text : string) (metadata0 : gmap string value) (w : world) :
  match Runtime.embeddings ollama "nomic-embed-text" text with
  | Some embedding =>
      exists w',
        add ollama vectors id0 text metadata0 w =
        (Ok (vectors ++
             [{| id := id0; vector := embedding;
                 metadata := <["text" := VString text]> metadata0 |}]), w')
  | None =>
      exists w', add ollama vectors id0 text metadata0 w = (Throw ProviderError, w')
  end.
Proof.
  rewrite add_unfold. destruct (Runtime.embeddings ollama _ _); eauto.
Qed.

End Add.

Section AddExamples.

Import InMemoryVectorStore Spec Samples.

Lemma add_binds_text_in_metadata_witness :
  exists vectors' w',
    add stub [] "js" "js" {["text" := VString "mine"]} w0 = (Ok vectors', w') /\
    exists stored,
      vectors' = [] ++ [stored] /\
      metadata stored !! "text" = Some (VString "js").
Proof.
  eexists _, _. split; [by rewrite add_unfold|].
  destruct (proj1 (add_binds_text_in_metadata stub)
              [] "js" "js" {["text" := VString "mine"]} w0 _ _
              (eq_trans (add_unfold stub _ _ _ _ _) eq_refl))
    as (stored & Hstored & _ & _ & Htext & _).
  exists stored. by split.
Defined.

(** C2, refuted as stated: the store holds one entry of dimension 2, the
    text embeds to a vector of length 3, and [add] succeeds and appends it. *)
Lemma add_accepts_other_dimension :
  [js] ≠ [] /\
  Runtime.embeddings stub "nomic-embed-text" "long" = Some [one; one; one] /\
  length (vector js) ≠ length [one; one; one] /\
  add stub [js] "long" "long" ∅ w0 =
  (Ok [js; {| id := "long"; vector := [one; one; one];
              metadata := <["text" := VString "long"]> ∅ |}],
   {| calls := [EmbeddingsCall "nomic-embed-text" "long"]; randoms := 0 |}).
Proof.
  split; [done|]. split; [done|]. split; [simpl; lia|].
  by rewrite add_unfold.
Qed.

End AddExamples.

(** ** [cosineSimilarity] *)

Section Cosine.

Import InMemoryVectorStore Spec.

Lemma cosineSimilarity_unfold (a b : list number) :
  cosineSimilarity a b = fdiv (dot a b) (fmul (magnitude a) (magnitude b)).
Proof. reflexivity. Qed.

Lemma get_middle (p : list number) (x : number) (l : list number) (i : nat) :
  i = length p -> JS.get (p ++ x :: l) i = x.
Proof. intros ->. unfold JS.get. by rewrite list_lookup_middle. Qed.

Lemma dot_from_comm (a : list number) : forall (b pa pb : list number) acc,
  length a = length b -> length pa = length pb ->
  JS.reduce_from (fun sum ai i => fadd sum (fmul ai (JS.get (pb ++ b) i)))
    (length pa) a acc =
  JS.reduce_from (fun sum bi i => fadd sum (fmul bi (JS.get (pa ++ a) i)))
    (length pb) b acc.
Proof.
  induction a as [|x a IH]; intros [|y b] pa pb acc Hab Hp; simpl in *;
    try done.
  rewrite !get_middle by done. rewrite (fmul_comm y x).
  specialize (IH b (pa ++ [x]) (pb ++ [y]) (fadd acc (fmul x y))).
  rewrite <- !app_assoc, !length_app in IH. simpl in IH.
  rewrite !Nat.add_1_r in IH. apply IH; lia.
Qed.

Lemma dot_comm (a b : list number) : length a = length b -> dot a b = dot b a.
Proof. intros Hab. by apply (dot_from_comm a b [] [] zero). Qed.

Lemma SFcompare_refl (x : number) : is_nan x = false -> SFcompare x x = Some Eq.
Proof.
  destruct x as [?|[]| |[] m e]; simpl; try done; intros _;
    by rewrite Z.compare_refl, Pos.compare_cont_refl.
Qed.

(** C8.  For vectors of the same dimension [cosineSimilarity(a, b)] and
    [cosineSimilarity(b, a)] are the same value; when that value is a
    number (not NaN), the language's [==] holds of the two.  Nonzero norms
    are not needed for this. *)
Theorem cosineSimilarity_symmetric (a b : list number) :
  length a = length b ->
  cosineSimilarity a b = cosineSimilarity b a /\
  (is_nan (cosineSimilarity a b) = false ->
   feq (cosineSimilarity a b) (cosineSimilarity b a) = true).
Proof.
  intros Hab.
  assert (cosineSimilarity a b = cosineSimilarity b a) as Heq.
  { rewrite !cosineSimilarity_unfold.
    by rewrite (dot_comm a b), (fmul_comm (magnitude a)). }
  split; [done|]. intros Hnan. rewrite <- Heq. unfold feq, SFeqb.
  by rewrite SFcompare_refl.
Qed.

(** The same holds of the copy of the function in [SimpleRAG]. *)
Lemma SimpleRAG_cosineSimilarity_same (a b : list number) :
  SimpleRAG.cosineSimilarity a b = cosineSimilarity a b.
Proof. reflexivity. Qed.

Lemma cosineSimilarity_symmetric_witness :
  length [one; Samples.half] = length [zero; one] /\
  cosineSimilarity [one; Samples.half] [zero; one] =
  cosineSimilarity [zero; one] [one; Samples.half].
Proof.
  split; [reflexivity|].
  apply (cosineSimilarity_symmetric [one; Samples.half]
           [zero; one]).
  reflexivity.
Defined.

(** A vector of zeros has similarity NaN to every vector. *)
Lemma cosineSimilarity_zeros (a b : list number) :
  Forall is_zero b -> cosineSimilarity a b = NaN.
Proof.
  intros Hb. rewrite cosineSimilarity_unfold. apply fdiv_zero_or_nan.
  - unfold dot, JS.reduce. apply reduce_from_invariant; [|done].
    intros acc x i Hacc _. apply fadd_zero_or_nan; [done|].
    by apply fmul_zero_or_nan, get_zero_or_nan.
  - apply fmul_zero_or_nan. unfold magnitude. apply fsqrt_zero_or_nan.
    unfold JS.reduce. apply reduce_from_invariant; [|done].
    intros acc x i Hacc Hx. apply fadd_zero_or_nan; [done|].
    apply fmul_zero_or_nan. eapply Forall_forall in Hb; [|exact Hx].
    by destruct x.
Qed.

(** A vector of norm zero has to every vector a similarity that is NaN
    or infinite. *)
Lemma cosineSimilarity_zero_norm (a b : list number) :
  is_zero (magnitude b) ->
  cosineSimilarity a b = NaN \/
  exists s, cosineSimilarity a b = S754_infinity s.
Proof.
  intros Hb. rewrite cosineSimilarity_unfold. apply fdiv_by_zero_or_nan.
  apply fmul_zero_or_nan. by destruct (magnitude b).
Qed.

End Cosine.

(** ** [search] and degenerate vectors *)

Section Degenerate.

Import InMemoryVectorStore Spec.

(** C3, as the code has it.  Cosine similarity is
    [dot(a,b) / (||a|| * ||b||)] evaluated in binary64 arithmetic, with no
    test of the norms: [search] returns normally whenever the embedding
    request resolves; a stored vector of zeros gets the similarity NaN,
    which is not 0, whatever the query; a stored vector of norm zero gets a
    similarity that is NaN or infinite. *)
Theorem search_degenerate_vector_is_nan (ollama : Ollama)
    (vectors : list entry) (query : string) (topK : Z) (w : world)
    (queryVector : list number) :
  Runtime.embeddings ollama "nomic-embed-text" query = Some queryVector ->
  exists results w',
    search ollama vectors query topK w = (Ok results, w') /\
    forall r, r ∈ results ->
      similarity r =
        fdiv (dot queryVector (s_vector r))
             (fmul (magnitude queryVector) (magnitude (s_vector r))) /\
      (Forall is_zero (s_vector r) ->
       similarity r = NaN /\ feq (similarity r) zero = false) /\
      (is_zero (magnitude (s_vector r)) ->
       similarity r = NaN \/ exists s, similarity r = S754_infinity s).
Proof.
  intros Hq.
  destruct (search ollama vectors query topK w) as [out w'] eqn:E.
  pose proof E as E'. rewrite search_unfold, Hq in E'.
  destruct out as [results|e]; [|done].
  exists results, w'. split; [done|]. intros r Hr.
  destruct (search_results_stored _ _ _ _ _ _ _ _ E Hr)
    as (qv & item & Hqv & _ & ->).
  rewrite Hq in Hqv. injection Hqv as <-. simpl. split; [done|]. split.
  - intros Hz. by rewrite cosineSimilarity_zeros.
  - apply cosineSimilarity_zero_norm.
Qed.

Lemma search_degenerate_vector_is_nan_witness :
  Runtime.embeddings Samples.stub "nomic-embed-text" "web" =
    Some [one; Samples.half] /\
  exists results w',
    search Samples.stub [Samples.blank; Samples.js] "web" 5 Samples.w0 =
      (Ok results, w') /\
    forall r, r ∈ results ->
      Forall is_zero (s_vector r) -> similarity r = NaN.
Proof.
  split; [reflexivity|].
  destruct (search_degenerate_vector_is_nan Samples.stub
              [Samples.blank; Samples.js] "web" 5 Samples.w0
              [one; Samples.half] eq_refl)
    as (results & w' & Hsearch & Hresults).
  exists results, w'. split; [done|].
  intros r Hr Hz. by apply Hresults.
Defined.

(** C3, refuted as stated: the store holds an entry whose vector is all
    zeros, and [search] does not fail: it returns that entry, with
    similarity NaN, next to the other one. *)
Lemma search_zero_vector_returns :
  Forall is_zero (vector Samples.blank) /\
  exists results w',
    search Samples.stub [Samples.blank; Samples.js] "web" 5 Samples.w0 =
      (Ok results, w') /\
    map (fun r => (s_id r, similarity r)) results =
      [("blank", S754_nan);
       ("js", S754_finite false 8056283928194521 (-53))].
Proof.
  split; [repeat constructor|].
  eexists _, _. split; [by rewrite search_unfold|]. vm_compute. reflexivity.
Qed.

End Degenerate.

(** ** [search] *)

Section Search.

Import InMemoryVectorStore Spec.

Lemma map_fmap {B C : Type} (f : B -> C) (l : list B) : map f l = f <$> l.
Proof. induction l as [|x l IH]; simpl; [done|]. by rewrite IH. Qed.

Lemma StronglySorted_take {B : Type} (R : relation B) (l : list B) (n : nat) :
  StronglySorted R l -> StronglySorted R (take n l).
Proof.
  intros Hl. rewrite <- (take_drop n l) in Hl.
  by apply StronglySorted_app_1_l in Hl.
Qed.

(** C1, as the code has it.  When no stored entry has the similarity NaN
    to the query, [search] with a non-negative [topK] returns the first
    [topK] places of a ranking of the whole store: a greater similarity
    comes first, and of two equal similarities the entry inserted first.
    So the results are in non-increasing order of similarity and there are
    [min(topK, store size)] of them; on the empty store the result is
    empty.  [search] fails only when the embedding request is rejected. *)
Theorem search_ranks_by_similarity (ollama : Ollama) (vectors : list entry)
    (query : string) (topK : Z) (w : world) (queryVector : list number) :
  0 <= topK ->
  Runtime.embeddings ollama "nomic-embed-text" query = Some queryVector ->
  Forall (fun item =>
            is_nan (cosineSimilarity queryVector (vector item)) = false)
         vectors ->
  exists results ranking w',
    search ollama vectors query topK w = (Ok results, w') /\
    ranking ≡ₚ seq 0 (length vectors) /\
    StronglySorted
      (ranked_before
         ((fun item => cosineSimilarity queryVector (vector item)) <$> vectors))
      ranking /\
    Forall2 (fun i r =>
               exists item,
                 vectors !! i = Some item /\
                 r = with_similarity item
                       (cosineSimilarity queryVector (vector item)))
            (take (Z.to_nat topK) ranking) results /\
    StronglySorted (fun r1 r2 => fge (similarity r1) (similarity r2) = true)
                   results /\
    length results = Nat.min (Z.to_nat topK) (length vectors) /\
    (vectors = [] -> results = []).
Proof.
  intros HtopK Hq Hnan. rewrite search_unfold, Hq, map_fmap.
  set (sims := (fun item =>
                  with_similarity item
                    (cosineSimilarity queryVector (vector item))) <$> vectors).
  rewrite slice0_nonneg by done.
  destruct (sort_ranking similarity sims)
    as (ranking & Hperm & Hplaces & Hranked & Hsorted).
  { apply Forall_fmap. eapply Forall_impl; [exact Hnan|].
    intros item Hitem. split; [apply fdiv_valid|exact Hitem]. }
  assert (length sims = length vectors) as Hlen by apply length_fmap.
  eexists (take (Z.to_nat topK) (JS.sort by_similarity sims)), ranking, _.
  split; [done|]. split; [by rewrite Hperm, Hlen|]. split.
  { assert (similarity <$> sims =
            (fun item => cosineSimilarity queryVector (vector item)) <$> vectors)
      as <-; [|done].
    unfold sims. by rewrite <- list_fmap_compose. }
  split.
  { apply Forall2_take. eapply Forall2_impl; [exact Hplaces|].
    intros i r Hr. apply list_lookup_fmap_Some in Hr as (item & -> & Hitem).
    by exists item. }
  split; [by apply StronglySorted_take|]. split.
  - by rewrite length_take, sort_perm, Hlen.
  - intros Hempty. unfold sims. rewrite Hempty. apply take_nil.
Qed.

End Search.

Section SearchExamples.

Import InMemoryVectorStore Spec Samples.

Lemma sample_similarities_not_nan :
  Forall (fun item => is_nan (cosineSimilarity [one; half] (vector item)) = false)
         [js; py; both].
Proof. repeat constructor. Qed.

Lemma search_ranks_by_similarity_witness :
  0 <= 2 /\
  Runtime.embeddings stub "nomic-embed-text" "web" = Some [one; half] /\
  Forall (fun item => is_nan (cosineSimilarity [one; half] (vector item)) = false)
         [js; py; both] /\
  exists results w',
    search stub [js; py; both] "web" 2 w0 = (Ok results, w') /\
    StronglySorted (fun r1 r2 => fge (similarity r1) (similarity r2) = true)
                   results /\
    length results = Nat.min (Z.to_nat 2) (length [js; py; both]).
Proof.
  split; [lia|]. split; [reflexivity|].
  split; [exact sample_similarities_not_nan|].
  destruct (search_ranks_by_similarity stub [js; py; both] "web" 2 w0
              [one; half] ltac:(lia) eq_refl sample_similarities_not_nan)
    as (results & ranking & w' & Hsearch & _ & _ & _ & Hsorted & Hlength & _).
  exists results, w'. split; [exact Hsearch|]. split; [exact Hsorted|].
  exact Hlength.
Defined.

Lemma sample_search_with_zero_vector :
  search stub [blank; js] "web" 5 w0 =
  (Ok [with_similarity blank S754_nan;
       with_similarity js (S754_finite false 8056283928194521 (-53))],
   {| calls := [EmbeddingsCall "nomic-embed-text" "web"]; randoms := 0 |}).
Proof. rewrite search_unfold. vm_compute. reflexivity. Qed.

(** C1, refuted as stated: the store holds a vector of zeros next to
    another entry; [search] returns both, the first with similarity NaN,
    and no arrangement of what it returned is in non-increasing order of
    similarity. *)
Lemma search_with_nan_is_not_sorted :
  exists results w',
    search stub [blank; js] "web" 5 w0 = (Ok results, w') /\
    map similarity results =
      [S754_nan; S754_finite false 8056283928194521 (-53)] /\
    forall arranged,
      arranged ≡ₚ results ->
      ~ StronglySorted (fun r1 r2 => fge (similarity r1) (similarity r2) = true)
                       arranged.
Proof.
  eexists _, _. split; [exact sample_search_with_zero_vector|].
  split; [reflexivity|].
  intros arranged Hperm Hsorted. symmetry in Hperm.
  apply Permutation_length_2_inv in Hperm as [-> | ->];
    apply StronglySorted_inv in Hsorted as [_ Hhead];
    apply Forall_cons in Hhead as [Hhead _]; simpl in Hhead; discriminate.
Qed.

End SearchExamples.

(** ** The assignment of entries to clusters *)

Section Assign.

Import InMemoryVectorStore Spec.

Lemma stateless_new_clusters (numClusters : Z) :
  stateless (new_clusters numClusters).
Proof.
  unfold new_clusters. case_decide;
    [apply stateless_ret|apply stateless_throw].
Qed.

Lemma stateless_push_to (clusters : list (list entry)) (i : nat) (v : entry) :
  stateless (push_to clusters i v).
Proof.
  unfold push_to. destruct (clusters !! i);
    [apply stateless_ret|apply stateless_throw].
Qed.

Lemma stateless_assign (vectors : list entry) (numClusters : Z)
    (centroids : list (list number)) :
  stateless (assign vectors numClusters centroids).
Proof.
  unfold assign. apply stateless_bind; [apply stateless_new_clusters|].
  intros clusters. apply stateless_for_of. intros. apply stateless_push_to.
Qed.

Lemma push_to_ok (clusters clusters' : list (list entry)) (i : nat)
    (v : entry) (w w' : world) :
  push_to clusters i v w = (Ok clusters', w') ->
  exists members,
    clusters !! i = Some members /\ clusters' = <[i := members ++ [v]]> clusters.
Proof.
  unfold push_to. destruct (clusters !! i) as [members|]; [|done].
  intros [= <- _]. eauto.
Qed.

Lemma concat_insert_snoc {B : Type} (rows : list (list B)) (i : nat)
    (row : list B) (x : B) :
  rows !! i = Some row ->
  concat (<[i := row ++ [x]]> rows) ≡ₚ concat rows ++ [x].
Proof.
  revert i. induction rows as [|r rows IH]; intros [|i] Hi; simpl in *;
    try done.
  - injection Hi as ->. rewrite <- !app_assoc. f_equiv. apply Permutation_app_comm.
  - rewrite IH by done. by rewrite app_assoc.
Qed.

(** The assignment loop puts every entry it visits into exactly one
    cluster. *)
Lemma assign_loop_placed (vectors : list entry) (centroids : list (list number))
    (todo : list entry) :
  forall (visited : list entry) (clusters : list (list entry))
         (rows : list (list nat)) (w w' : world) (clusters' : list (list entry)),
    vectors = visited ++ todo ->
    placed vectors rows clusters ->
    concat rows ≡ₚ seq 0 (length visited) ->
    for_of (fun clusters v =>
              push_to clusters (best_cluster (vector v) centroids) v)
           todo clusters w = (Ok clusters', w') ->
    exists rows',
      placed vectors rows' clusters' /\
      concat rows' ≡ₚ seq 0 (length vectors) /\
      length clusters' = length clusters.
Proof.
  induction todo as [|v todo IH];
    intros visited clusters rows w w' clusters' Hv Hplaced Hrows; simpl.
  - unfold ret. intros [= <- _]. exists rows.
    rewrite app_nil_r in Hv. rewrite <- Hv in Hrows. by repeat split.
  - unfold bind.
    destruct (push_to clusters _ v w) as [[clusters1|e] w1] eqn:E; [|done].
    apply push_to_ok in E as (members & Hmembers & ->).
    set (i := best_cluster (vector v) centroids) in *.
    destruct (Forall2_lookup_r _ _ _ _ _ Hplaced Hmembers)
      as (row & Hrow & Hrowmembers).
    intros Hloop.
    apply (IH (visited ++ [v]) _ (<[i := row ++ [length visited]]> rows))
      in Hloop as (rows' & ? & ? & Hlen).
    + exists rows'. repeat split; try done.
      by rewrite Hlen, length_insert.
    + by rewrite Hv, <- app_assoc.
    + apply Forall2_insert; [done|]. apply Forall2_app; [done|].
      constructor; [|constructor]. rewrite Hv. by apply list_lookup_middle.
    + rewrite concat_insert_snoc by done. rewrite Hrows.
      rewrite length_app. simpl. rewrite Nat.add_1_r. by rewrite seq_S.
Qed.

Lemma new_clusters_ok (numClusters : Z) (w w' : world)
    (clusters : list (list entry)) :
  new_clusters numClusters w = (Ok clusters, w') ->
  clusters = replicate (Z.to_nat numClusters) [].
Proof. unfold new_clusters. case_decide; [|done]. by intros [= <- _]. Qed.

Lemma assign_placed (vectors : list entry) (numClusters : Z)
    (centroids : list (list number)) (w w' : world)
    (clusters : list (list entry)) :
  assign vectors numClusters centroids w = (Ok clusters, w') ->
  length clusters = Z.to_nat numClusters /\
  exists rows,
    placed vectors rows clusters /\ concat rows ≡ₚ seq 0 (length vectors).
Proof.
  unfold assign, mbind, M_bind, bind.
  destruct (new_clusters numClusters w) as [[clusters0|e] w0] eqn:E; [|done].
  apply new_clusters_ok in E as ->. intros Hloop.
  apply (assign_loop_placed vectors centroids vectors []
           (replicate (Z.to_nat numClusters) [])
           (replicate (Z.to_nat numClusters) []))
    in Hloop as (rows & ? & ? & Hlen).
  - rewrite length_replicate in Hlen. eauto.
  - done.
  - apply Forall2_replicate. constructor.
  - simpl. clear. induction (Z.to_nat numClusters); simpl; done.
Qed.

End Assign.

(** ** The update of the centroids *)

Section Update.

Import InMemoryVectorStore Spec.

Lemma stateless_update_centroid (clusters : list (list entry))
    (state : list (list number) * bool) (i : nat) :
  stateless (update_centroid clusters state i).
Proof.
  destruct state as [centroids changed]. unfold update_centroid.
  destruct (clusters !! i) as [[|v members]|], (centroids !! i);
    (apply stateless_ret || apply stateless_throw).
Qed.

Lemma stateless_update (clusters : list (list entry))
    (centroids : list (list number)) :
  stateless (update clusters centroids).
Proof. apply stateless_for_of. apply stateless_update_centroid. Qed.

Lemma update_centroid_ok (clusters : list (list entry))
    (centroids centroids' : list (list number)) (changed changed' : bool)
    (i : nat) (w w' : world) :
  update_centroid clusters (centroids, changed) i w =
    (Ok (centroids', changed'), w') ->
  (clusters !! i = Some [] /\ centroids' = centroids /\ changed' = changed) \/
  (exists members centroid,
     clusters !! i = Some members /\ members ≠ [] /\
     centroids !! i = Some centroid /\
     centroids' = <[i := mean (length centroid) members]> centroids /\
     changed' = if flt (change_of centroid members) c099 then true else changed).
Proof.
  unfold update_centroid.
  destruct (clusters !! i) as [[|v members]|] eqn:Ei,
           (centroids !! i) as [centroid|] eqn:Ec; try done.
  - intros [= <- <- _]. by left.
  - intros [= <- <- _]. by left.
  - intros [= <- <- _]. right. by exists (v :: members), centroid.
Qed.

Lemma update_centroid_total (clusters : list (list entry))
    (centroids : list (list number)) (changed : bool) (i : nat) :
  (i < length clusters)%nat -> (i < length centroids)%nat ->
  exists centroids' changed',
    length centroids' = length centroids /\
    forall w,
      update_centroid clusters (centroids, changed) i w =
        (Ok (centroids', changed'), w).
Proof.
  intros Hi Hc. unfold update_centroid.
  destruct (lookup_lt_is_Some_2 clusters i Hi) as [members ->].
  destruct (lookup_lt_is_Some_2 centroids i Hc) as [centroid ->].
  destruct members as [|v members].
  - by exists centroids, changed.
  - eexists _, _. split; [|done]. by rewrite length_insert.
Qed.

(** What the update loop over the indices [l] does to the centroids and
    to the flag. *)
Lemma update_loop (clusters : list (list entry)) (l : list nat) :
  forall (centroids centroids' : list (list number)) (changed changed' : bool)
         (w w' : world),
    NoDup l ->
    for_of (update_centroid clusters) l (centroids, changed) w =
      (Ok (centroids', changed'), w') ->
    length centroids' = length centroids /\
    (forall i, i ∉ l -> centroids' !! i = centroids !! i) /\
    (forall i, clusters !! i = Some [] -> centroids' !! i = centroids !! i) /\
    (changed' = true <->
     changed = true \/
     exists i members centroid,
       i ∈ l /\ clusters !! i = Some members /\ members ≠ [] /\
       centroids !! i = Some centroid /\
       flt (change_of centroid members) c099 = true).
Proof.
  induction l as [|i l IH];
    intros centroids centroids' changed changed' w w' Hnodup; cbn [for_of].
  - unfold ret. intros [= <- <- _]. repeat split; try done; [tauto|].
    intros [?|(i & ? & ? & Hi & _)]; [done|]. by apply elem_of_nil in Hi.
  - apply NoDup_cons in Hnodup as [Hi Hnodup]. unfold bind.
    destruct (update_centroid clusters (centroids, changed) i w)
      as [[[centroids1 changed1]|e] w1] eqn:E; [|done].
    intros Hloop. apply IH in Hloop as (Hlen & Hout & Hempty & Hch); [|done].
    apply update_centroid_ok in E
      as [(Hi0 & -> & ->)|(members & centroid & Hm & Hne & Hc & -> & ->)].
    + repeat split; try done.
      * intros j Hj. apply Hout. by apply not_elem_of_cons in Hj as [_ ?].
      * intros Hc'. apply Hch in Hc'
          as [?|(j & ms & c & ? & ? & ? & ? & ?)]; [by left|].
        right. exists j, ms, c. repeat split; try done.
        by apply list_elem_of_further.
      * intros [?|(j & ms & c & Hj & Hjm & Hms & ? & ?)]; apply Hch;
          [by left|].
        apply elem_of_cons in Hj as [->|Hj]; [congruence|].
        right. by exists j, ms, c.
    + rewrite length_insert in Hlen.
      assert (forall j, j ∈ l ->
                <[i := mean (length centroid) members]> centroids !! j =
                centroids !! j) as Hother.
      { intros j Hj. apply list_lookup_insert_ne. by intros ->. }
      repeat split; try done.
      * intros j Hj. apply not_elem_of_cons in Hj as [Hji Hj].
        rewrite Hout by done. by apply list_lookup_insert_ne.
      * intros j Hj. rewrite Hempty by done.
        apply list_lookup_insert_ne. congruence.
      * intros Hc'. apply Hch in Hc'
          as [Hc'|(j & ms & c & Hj & ? & ? & Hjc & ?)].
        -- destruct (flt (change_of centroid members) c099) eqn:Hflt;
             [|by left].
           right. exists i, members, centroid. repeat split; try done.
           apply list_elem_of_here.
        -- right. exists j, ms, c. rewrite Hother in Hjc by done.
           repeat split; try done. by apply list_elem_of_further.
      * intros [->|(j & ms & c & Hj & Hjm & Hms & Hjc & Hflt)]; apply Hch.
        -- left. by destruct (flt _ _).
        -- apply elem_of_cons in Hj as [->|Hj].
           ++ left. rewrite Hm in Hjm. rewrite Hc in Hjc.
              injection Hjm as <-. injection Hjc as <-. by rewrite Hflt.
           ++ right. exists j, ms, c. by rewrite Hother.
Qed.

End Update.

(** ** The refinement loop *)

Section Refine.

Import InMemoryVectorStore Spec.

Context (vectors : list entry) (numClusters : Z).

Lemma stateless_round (centroids : list (list number)) :
  stateless (round vectors numClusters centroids).
Proof.
  unfold round. apply stateless_bind; [apply stateless_assign|].
  intros clusters. apply stateless_bind; [apply stateless_update|].
  intros [centroids' changed]. apply stateless_ret.
Qed.

Lemma stateless_refine (remaining : nat) :
  forall centroids clusters rounds,
    stateless (refine vectors numClusters remaining centroids clusters rounds).
Proof.
  induction remaining as [|remaining IH]; intros centroids clusters rounds;
    cbn [refine].
  - apply stateless_ret.
  - apply stateless_bind; [apply stateless_round|].
    intros [[clusters' centroids'] [|]]; [apply IH|apply stateless_ret].
Qed.

Lemma round_ok (centroids centroids' : list (list number))
    (clusters : list (list entry)) (changed : bool) (w w' : world) :
  round vectors numClusters centroids w = (Ok (clusters, centroids', changed), w') ->
  assign vectors numClusters centroids w = (Ok clusters, w) /\
  update clusters centroids w = (Ok (centroids', changed), w).
Proof.
  unfold round, mbind, M_bind, bind.
  destruct (assign vectors numClusters centroids w) as [[cl|e] w1] eqn:Ea;
    [|done].
  destruct (stateless_world _ _ _ _ (stateless_assign _ _ _) Ea) as [-> _].
  destruct (update cl centroids w) as [[[cs ch]|e] w2] eqn:Eu; [|done].
  destruct (stateless_world _ _ _ _ (stateless_update _ _) Eu) as [-> _].
  unfold mret, M_ret, ret. by intros [= <- <- <- _].
Qed.

(** The clusters the loop ends with are those of an assignment, as soon
    as its body runs once. *)
Lemma refine_clusters (P : list (list entry) -> Prop) :
  (forall centroids w clusters w',
     assign vectors numClusters centroids w = (Ok clusters, w') -> P clusters) ->
  forall remaining centroids clusters0 rounds w clusters n w',
    (0 < remaining)%nat \/ P clusters0 ->
    refine vectors numClusters remaining centroids clusters0 rounds w =
      (Ok (clusters, n), w') ->
    P clusters.
Proof.
  intros Hassign.
  induction remaining as [|remaining IH];
    intros centroids clusters0 rounds w clusters n w' H0; cbn [refine].
  - unfold mret, M_ret, ret. intros [= <- _]. destruct H0; [lia|done].
  - unfold mbind, M_bind, bind.
    destruct (round vectors numClusters centroids w)
      as [[[[cl cs] ch]|e] w1] eqn:E; [|done].
    apply round_ok in E as [Ea _]. apply Hassign in Ea.
    destruct ch.
    + apply IH. by right.
    + unfold mret, M_ret, ret. by intros [= <- _].
Qed.

(** The body of the loop runs at most [remaining] times. *)
Lemma refine_rounds (remaining : nat) :
  forall centroids clusters0 rounds w clusters n w',
    refine vectors numClusters remaining centroids clusters0 rounds w =
      (Ok (clusters, n), w') ->
    (n <= rounds + remaining)%nat.
Proof.
  induction remaining as [|remaining IH];
    intros centroids clusters0 rounds w clusters n w'; cbn [refine].
  - unfold mret, M_ret, ret. intros [= _ <- _]. lia.
  - unfold mbind, M_bind, bind.
    destruct (round vectors numClusters centroids w)
      as [[[[cl cs] [|]]|e] w1]; [| |done].
    + intros Hloop. apply IH in Hloop. lia.
    + unfold mret, M_ret, ret. intros [= _ <- _]. lia.
Qed.

(** A round on converged centroids does not raise the flag. *)
Lemma round_converged (centroids centroids' : list (list number))
    (clusters : list (list entry)) (changed : bool) (w w' : world) :
  round vectors numClusters centroids w = (Ok (clusters, centroids', changed), w') ->
  converged clusters centroids = true ->
  changed = false.
Proof.
  intros [_ Hu]%round_ok Hconv. unfold update in Hu.
  apply update_loop in Hu as (_ & _ & _ & Hch); [|apply NoDup_seq].
  destruct changed; [|done].
  destruct Hch as [Hch _].
  destruct (Hch eq_refl) as [?|(i & members & centroid & _ & Hm & Hne & Hc & Hflt)];
    [done|].
  unfold converged in Hconv. rewrite forallb_forall in Hconv.
  specialize (Hconv (members, centroid)). simpl in Hconv.
  rewrite fge_not_flt in Hflt; [done|].
  destruct members as [|v members]; [done|]. apply Hconv.
  apply list_elem_of_In. apply list_elem_of_lookup. exists i.
  by apply lookup_zip_Some.
Qed.

(** A round leaves the centroid of an empty cluster as it was. *)
Lemma round_empty_cluster (centroids centroids' : list (list number))
    (clusters : list (list entry)) (changed : bool) (w w' : world) (i : nat) :
  round vectors numClusters centroids w = (Ok (clusters, centroids', changed), w') ->
  clusters !! i = Some [] ->
  centroids' !! i = centroids !! i.
Proof.
  intros [_ Hu]%round_ok Hi. unfold update in Hu.
  apply update_loop in Hu as (_ & _ & Hempty & _); [|apply NoDup_seq].
  by apply Hempty.
Qed.

End Refine.

(** ** Partitions by position *)

Section Placed.

Import InMemoryVectorStore Spec.

Lemma Forall2_perm_l {A B : Type} (R : A -> B -> Prop) (l l' : list A) :
  l ≡ₚ l' ->
  forall k, Forall2 R l k -> exists k', k ≡ₚ k' /\ Forall2 R l' k'.
Proof.
  induction 1 as [|x l l' _ IH|x y l|l l1 l' _ IH1 _ IH2]; intros k Hk.
  - exists k. by split.
  - apply Forall2_cons_inv_l in Hk as (z & k0 & Hz & Hk0 & ->).
    destruct (IH k0 Hk0) as (k' & ? & ?). exists (z :: k').
    split; [by f_equiv|by constructor].
  - apply Forall2_cons_inv_l in Hk as (z1 & k0 & Hz1 & Hk0 & ->).
    apply Forall2_cons_inv_l in Hk0 as (z2 & k1 & Hz2 & Hk1 & ->).
    exists (z2 :: z1 :: k1). split; [apply Permutation_swap|].
    by repeat constructor.
  - destruct (IH1 k Hk) as (k1 & ? & Hk1).
    destruct (IH2 k1 Hk1) as (k2 & ? & ?). exists k2.
    split; [by etrans|done].
Qed.

Lemma Forall2_concat {A B : Type} (R : A -> B -> Prop) (ls : list (list A))
    (ks : list (list B)) :
  Forall2 (Forall2 R) ls ks -> Forall2 R (concat ls) (concat ks).
Proof. induction 1; simpl; [constructor|by apply Forall2_app]. Qed.

Lemma placed_all (vectors : list entry) :
  Forall2 (fun i item => vectors !! i = Some item)
          (seq 0 (length vectors)) vectors.
Proof.
  apply Forall2_same_length_lookup_2; [by rewrite length_seq|].
  intros i j item [-> _]%lookup_seq. done.
Qed.

(** Clusters that hold each position once hold the stored entries, each
    once. *)
Lemma placed_concat (vectors : list entry) (rows : list (list nat))
    (clusters : list (list entry)) :
  placed vectors rows clusters ->
  concat rows ≡ₚ seq 0 (length vectors) ->
  concat clusters ≡ₚ vectors.
Proof.
  intros Hplaced Hrows. apply Forall2_concat in Hplaced.
  destruct (Forall2_perm_l _ _ _ Hrows _ Hplaced) as (k' & Hk' & Hall).
  rewrite Hk'.
  rewrite (Forall2_unique _ _ _ _ Hall (placed_all vectors)); [done|].
  intros i x y Hx Hy. congruence.
Qed.

Lemma concat_filter_nonempty {A : Type} (ls : list (list A)) :
  concat (filter (fun l => (0 < length l)%nat) ls) = concat ls.
Proof.
  induction ls as [|l ls IH]; [done|].
  rewrite filter_cons. case_decide; simpl; [by rewrite IH|].
  destruct l; simpl in *; [done|lia].
Qed.

Lemma placed_filter (vectors : list entry) (rows : list (list nat))
    (clusters : list (list entry)) :
  placed vectors rows clusters ->
  placed vectors (filter (fun row => (0 < length row)%nat) rows)
         (filter (fun cluster => (0 < length cluster)%nat) clusters).
Proof.
  apply Forall2_filter. intros row cluster Hrow.
  by rewrite (Forall2_length _ _ _ Hrow).
Qed.

Lemma filter_nonempty {A : Type} (ls : list (list A)) :
  Forall (fun l => l ≠ []) (filter (fun l => (0 < length l)%nat) ls).
Proof.
  apply Forall_forall. intros l [Hl _]%list_elem_of_filter.
  destruct l; simpl in *; [lia|done].
Qed.

End Placed.

(** ** When the clustering runs through *)

Section Total.

Import InMemoryVectorStore Spec.

Lemma best_cluster_lt (v : list number) (centroids : list (list number)) :
  (best_cluster v centroids < Nat.max 1 (length centroids))%nat.
Proof.
  unfold best_cluster, JS.reduce.
  apply (reduce_from_index_invariant
           (fun acc => (fst acc < Nat.max 1 (length centroids))%nat));
    [|simpl; lia].
  intros [bestCluster bestSimilarity] centroid j Hacc Hj.
  destruct (fgt _ _); simpl in *; lia.
Qed.

Lemma assign_total (vectors : list entry) (numClusters : Z)
    (centroids : list (list number)) :
  1 <= numClusters < 2 ^ 32 ->
  length centroids = Z.to_nat numClusters ->
  exists clusters,
    length clusters = Z.to_nat numClusters /\
    forall w, assign vectors numClusters centroids w = (Ok clusters, w).
Proof.
  intros Hk Hlen.
  destruct (for_of_total
              (fun clusters : list (list entry) =>
                 length clusters = Z.to_nat numClusters)
              (fun clusters v =>
                 push_to clusters (best_cluster (vector v) centroids) v)
              vectors) with (s := replicate (Z.to_nat numClusters) (@nil entry))
    as (clusters & Hclusters & Hloop).
  - intros clusters v _ Hclusters. unfold push_to.
    pose proof (best_cluster_lt (vector v) centroids) as Hbest.
    destruct (lookup_lt_is_Some_2 clusters
                (best_cluster (vector v) centroids)) as [members ->]; [lia|].
    eexists. split; [|done]. by rewrite length_insert.
  - apply length_replicate.
  - exists clusters. split; [done|]. intros w.
    unfold assign, mbind, M_bind, bind, new_clusters.
    case_decide; [|lia]. simpl. apply Hloop.
Qed.

Lemma update_total (clusters : list (list entry))
    (centroids : list (list number)) :
  length clusters = length centroids ->
  exists centroids' changed,
    length centroids' = length centroids /\
    forall w, update clusters centroids w = (Ok (centroids', changed), w).
Proof.
  intros Hlen.
  destruct (for_of_total
              (fun state : list (list number) * bool =>
                 length (fst state) = length centroids)
              (update_centroid clusters) (seq 0 (length centroids)))
    with (s := (centroids, false)) as ([centroids' changed] & Hlen' & Hloop).
  - intros [cs ch] i [_ Hi]%elem_of_seq Hcs. simpl in *.
    destruct (update_centroid_total clusters cs ch i) as (cs' & ch' & ? & ?);
      [lia..|].
    exists (cs', ch'). split; [simpl; lia|done].
  - done.
  - by exists centroids', changed.
Qed.

Lemma round_total (vectors : list entry) (numClusters : Z)
    (centroids : list (list number)) :
  1 <= numClusters < 2 ^ 32 ->
  length centroids = Z.to_nat numClusters ->
  exists clusters centroids' changed,
    length centroids' = length centroids /\
    forall w,
      round vectors numClusters centroids w =
        (Ok (clusters, centroids', changed), w).
Proof.
  intros Hk Hlen.
  destruct (assign_total vectors numClusters centroids Hk Hlen)
    as (clusters & Hclusters & Hassign).
  destruct (update_total clusters centroids) as (centroids' & changed & ? & Hupdate);
    [lia|].
  exists clusters, centroids', changed. split; [done|]. intros w.
  unfold round, mbind, M_bind, bind. by rewrite Hassign, Hupdate.
Qed.

Lemma refine_total (vectors : list entry) (numClusters : Z)
    (remaining : nat) :
  1 <= numClusters < 2 ^ 32 ->
  forall centroids clusters0 rounds,
    length centroids = Z.to_nat numClusters ->
    exists clusters n,
      forall w,
        refine vectors numClusters remaining centroids clusters0 rounds w =
          (Ok (clusters, n), w).
Proof.
  intros Hk. induction remaining as [|remaining IH];
    intros centroids clusters0 rounds Hlen; cbn [refine].
  - by exists clusters0, rounds.
  - destruct (round_total vectors numClusters centroids Hk Hlen)
      as (clusters & centroids' & changed & Hlen' & Hround).
    destruct changed.
    + destruct (IH centroids' clusters (S rounds)) as (cl & n & Hloop); [lia|].
      exists cl, n. intros w. unfold mbind, M_bind, bind.
      by rewrite Hround, Hloop.
    + exists clusters, (S rounds). intros w. unfold mbind, M_bind, bind.
      by rewrite Hround.
Qed.

Lemma init_centroids_ok (Math_random : nat -> number) (vectors : list entry)
    (n : nat) :
  forall centroids w centroids' w',
    init_centroids Math_random vectors n centroids w = (Ok centroids', w') ->
    length centroids' = (length centroids + n)%nat.
Proof.
  induction n as [|n IH]; intros centroids w centroids' w'; cbn [init_centroids].
  - unfold mret, M_ret, ret. intros [= <- _]. lia.
  - unfold mbind, M_bind, bind, random.
    destruct (at_number vectors _) as [item|]; [|done].
    intros Hloop. apply IH in Hloop. rewrite length_app in Hloop. simpl in *. lia.
Qed.

Lemma init_centroids_total (Math_random : nat -> number)
    (vectors : list entry) (n : nat) :
  forall centroids w,
    draws_in_range Math_random vectors n w ->
    exists centroids' w',
      init_centroids Math_random vectors n centroids w = (Ok centroids', w').
Proof.
  induction n as [|n IH]; intros centroids w Hdraws; cbn [init_centroids].
  - by eexists _, _.
  - unfold mbind, M_bind, bind, random.
    destruct (Hdraws 0%nat) as [item Hitem]; [lia|].
    rewrite Nat.add_0_r in Hitem. rewrite Hitem.
    apply IH. intros i Hi. simpl.
    specialize (Hdraws (S i)). rewrite Nat.add_succ_r in Hdraws.
    apply Hdraws. lia.
Qed.

(** The initial centroids depend on the values drawn, not on where in the
    sequence of [Math.random] they are drawn nor on the requests logged. *)
Lemma init_centroids_ext (rnd1 rnd2 : nat -> number) (vectors : list entry)
    (n : nat) :
  forall centroids w1 w2,
    (forall i, (i < n)%nat ->
       rnd1 (randoms w1 + i)%nat = rnd2 (randoms w2 + i)%nat) ->
    fst (init_centroids rnd1 vectors n centroids w1) =
    fst (init_centroids rnd2 vectors n centroids w2).
Proof.
  induction n as [|n IH]; intros centroids w1 w2 Hdraws; cbn [init_centroids].
  - done.
  - unfold mbind, M_bind, bind, random.
    pose proof (Hdraws 0%nat) as H0. rewrite !Nat.add_0_r in H0.
    rewrite H0 by lia.
    destruct (at_number vectors _) as [item|]; [|done].
    apply IH. intros i Hi. simpl.
    specialize (Hdraws (S i)). rewrite !Nat.add_succ_r in Hdraws.
    apply Hdraws. lia.
Qed.

End Total.

(** ** [cluster] *)

Section Cluster.

Import InMemoryVectorStore Spec.

Context (Math_random : nat -> number).

Lemma cluster_of_rounds (vectors : list entry) (numClusters : Z) (w : world) :
  cluster Math_random vectors numClusters w =
  match cluster_rounds Math_random vectors numClusters w with
  | (Ok (clusters, _), w') => (Ok clusters, w')
  | (Throw e, w') => (Throw e, w')
  end.
Proof.
  unfold cluster, mbind, M_bind, bind.
  by destruct (cluster_rounds Math_random vectors numClusters w)
    as [[[clusters rounds]|e] w'].
Qed.

Lemma cluster_rounds_small (vectors : list entry) (numClusters : Z)
    (w : world) :
  Z.of_nat (length vectors) < numClusters ->
  cluster_rounds Math_random vectors numClusters w = (Ok ([vectors], 0%nat), w).
Proof. intros Hk. unfold cluster_rounds. by case_decide. Qed.

Lemma cluster_rounds_large (vectors : list entry) (numClusters : Z)
    (w w' : world) (clusters : list (list entry)) (rounds : nat) :
  ¬ Z.of_nat (length vectors) < numClusters ->
  cluster_rounds Math_random vectors numClusters w =
    (Ok (clusters, rounds), w') ->
  exists centroids w1 clusters1,
    init_centroids Math_random vectors (Z.to_nat numClusters) [] w =
      (Ok centroids, w1) /\
    refine vectors numClusters maxIterations centroids [] 0 w1 =
      (Ok (clusters1, rounds), w') /\
    clusters = filter (fun cluster => (0 < length cluster)%nat) clusters1.
Proof.
  intros Hk. unfold cluster_rounds. case_decide; [done|].
  unfold mbind, M_bind, bind.
  destruct (init_centroids _ _ _ _ w) as [[centroids|e] w1] eqn:E1; [|done].
  destruct (refine _ _ _ _ _ _ w1) as [[[clusters1 n]|e] w2] eqn:E2; [|done].
  unfold mret, M_ret, ret. intros [= <- <- <-]. by exists centroids, w1, clusters1.
Qed.

(** With at least one cluster asked for and in-range initial draws,
    [cluster] returns clusters. *)
Lemma cluster_total (vectors : list entry) (numClusters : Z) (w : world) :
  1 <= numClusters < 2 ^ 32 ->
  draws_in_range Math_random vectors (Z.to_nat numClusters) w ->
  exists clusters w',
    cluster Math_random vectors numClusters w = (Ok clusters, w').
Proof.
  intros Hk Hdraws. rewrite cluster_of_rounds. unfold cluster_rounds.
  case_decide; [by eexists _, _|].
  unfold mbind, M_bind, bind.
  destruct (init_centroids_total Math_random vectors _ [] w Hdraws)
    as (centroids & w1 & Hinit).
  rewrite Hinit. apply init_centroids_ok in Hinit. simpl in Hinit.
  destruct (refine_total vectors numClusters maxIterations Hk centroids [] 0%nat)
    as (clusters & n & Hloop); [done|].
  rewrite Hloop. by eexists _, _.
Qed.

(** With no cluster asked for, or a negative number of them, a non-empty
    store makes [cluster] end with an exception: [clusters[0]] is
    [undefined] for the first entry, or [Array(numClusters)] is refused. *)
Lemma cluster_throws_without_clusters (vectors : list entry)
    (numClusters : Z) (w : world) :
  vectors ≠ [] -> numClusters <= 0 ->
  cluster Math_random vectors numClusters w =
    (Throw (if decide (numClusters = 0) then TypeError else RangeError), w).
Proof.
  intros Hne Hk. rewrite cluster_of_rounds. unfold cluster_rounds.
  case_decide; [lia|]. replace (Z.to_nat numClusters) with 0%nat by lia.
  cbn [init_centroids]. unfold mbind, M_bind, bind, mret, M_ret, ret.
  unfold maxIterations. cbn [refine].
  unfold mbind, M_bind, bind, round, mbind, M_bind, bind, assign,
    mbind, M_bind, bind, new_clusters.
  case_decide as Hrange.
  - rewrite decide_True by lia. replace (Z.to_nat numClusters) with 0%nat by lia.
    destruct vectors as [|v vectors]; [done|]. reflexivity.
  - by rewrite decide_False by lia.
Qed.

(** Values of [Math.random] index a non-empty store of fewer than 2^53
    entries. *)
Lemma draws_in_range_unit_interval (vectors : list entry) (n : nat)
    (w : world) :
  vectors ≠ [] -> Z.of_nat (length vectors) < 2 ^ 53 ->
  (forall i, unit_interval (Math_random i)) ->
  draws_in_range Math_random vectors n w.
Proof.
  intros Hne Hlen Hunit i _. unfold of_nat.
  destruct (random_index_in_range (Math_random (randoms w + i)%nat)
              (Z.of_nat (length vectors))) as (z & -> & Hz); [done| |].
  - destruct vectors; [done|]. simpl length in *. lia.
  - simpl. rewrite decide_True by lia. apply lookup_lt_is_Some. lia.
Qed.

(** With at least one cluster asked for and a generator that keeps to
    the interval from 0 to 1, [cluster] returns clusters. *)
Lemma cluster_total_unit_interval (vectors : list entry) (numClusters : Z)
    (w : world) :
  1 <= numClusters < 2 ^ 32 ->
  Z.of_nat (length vectors) < 2 ^ 53 ->
  (forall i, unit_interval (Math_random i)) ->
  exists clusters w',
    cluster Math_random vectors numClusters w = (Ok clusters, w').
Proof.
  intros Hk Hlen Hunit.
  destruct (decide (Z.of_nat (length vectors) < numClusters)) as [Hsmall|Hlarge].
  - eexists _, _. by rewrite cluster_of_rounds, cluster_rounds_small.
  - apply cluster_total; [done|].
    apply draws_in_range_unit_interval; [|done..].
    intros ->. simpl in Hlarge. lia.
Qed.

(** C4.  On a non-empty store, the clusters [cluster] returns partition the
    stored entries: every position of the store is in exactly one returned
    cluster (so the clusters together hold the stored entries, each once),
    and no returned cluster is empty.  It does return clusters when at
    least one cluster is asked for, the store has fewer than 2^53 entries
    and [Math.random] keeps to its contract (values from 0 up to, not
    including, 1). *)
Theorem cluster_partitions (vectors : list entry) (numClusters : Z)
    (w : world) :
  vectors ≠ [] ->
  (forall clusters w',
     cluster Math_random vectors numClusters w = (Ok clusters, w') ->
     (exists rows,
        placed vectors rows clusters /\
        concat rows ≡ₚ seq 0 (length vectors)) /\
     concat clusters ≡ₚ vectors /\
     Forall (fun cluster => cluster ≠ []) clusters) /\
  (1 <= numClusters < 2 ^ 32 ->
   Z.of_nat (length vectors) < 2 ^ 53 ->
   (forall i, unit_interval (Math_random i)) ->
   exists clusters w',
     cluster Math_random vectors numClusters w = (Ok clusters, w')).
Proof.
  intros Hne. split; [|apply cluster_total_unit_interval].
  intros clusters w'. rewrite cluster_of_rounds.
  destruct (cluster_rounds Math_random vectors numClusters w)
    as [[[clusters1 rounds]|e] w1] eqn:E; [|done].
  intros [= <- <-].
  assert (exists rows,
            placed vectors rows clusters1 /\
            concat rows ≡ₚ seq 0 (length vectors) /\
            Forall (fun cluster => cluster ≠ []) clusters1)
    as (rows & Hplaced & Hrows & Hnonempty).
  { destruct (decide (Z.of_nat (length vectors) < numClusters)) as [Hk|Hk].
    - rewrite cluster_rounds_small in E by done. injection E as <- _ _.
      exists [seq 0 (length vectors)]. split; [|split].
      + constructor; [apply placed_all|constructor].
      + simpl. by rewrite app_nil_r.
      + by constructor.
    - apply cluster_rounds_large in E
        as (centroids & w2 & clusters2 & _ & Hloop & ->); [|done].
      apply (refine_clusters vectors numClusters
               (fun clusters => exists rows,
                  placed vectors rows clusters /\
                  concat rows ≡ₚ seq 0 (length vectors)))
        in Hloop as (rows & Hplaced & Hrows).
      + exists (filter (fun row => (0 < length row)%nat) rows).
        split; [by apply placed_filter|].
        split; [by rewrite concat_filter_nonempty|apply filter_nonempty].
      + intros cs w3 cl w4 Hassign. by apply assign_placed in Hassign as [_ ?].
      + left. unfold maxIterations. lia. }
  split; [by exists rows|]. split; [|done]. by eapply placed_concat.
Qed.

(** C5.  [cluster] always ends, with clusters or with an exception, and
    when it returns the body of its [while] loop has run at most 100
    times; a round in which every centroid that has members comes out at
    similarity 0.99 or more to its previous value is the last one,
    whatever is left of the bound; and a round leaves the centroid of a
    cluster without members as it was. *)
Theorem cluster_loop_bounded :
  (forall vectors numClusters w,
     exists out w',
       cluster_rounds Math_random vectors numClusters w = (out, w') /\
       forall clusters rounds,
         out = Ok (clusters, rounds) ->
         (rounds <= maxIterations)%nat /\ maxIterations = 100%nat) /\
  (forall vectors numClusters remaining centroids clusters0 rounds w
          clusters centroids' changed w',
     round vectors numClusters centroids w =
       (Ok (clusters, centroids', changed), w') ->
     (converged clusters centroids = true ->
      refine vectors numClusters (S remaining) centroids clusters0 rounds w =
        (Ok (clusters, S rounds), w')) /\
     (forall i, clusters !! i = Some [] -> centroids' !! i = centroids !! i)).
Proof.
  split.
  - intros vectors numClusters w.
    destruct (cluster_rounds Math_random vectors numClusters w)
      as [out w'] eqn:E.
    exists out, w'. split; [done|]. intros clusters rounds ->.
    split; [|done].
    destruct (decide (Z.of_nat (length vectors) < numClusters)) as [Hk|Hk].
    + rewrite cluster_rounds_small in E by done. injection E as _ <- _. lia.
    + apply cluster_rounds_large in E
        as (centroids & w2 & clusters2 & _ & Hloop & _); [|done].
      by apply refine_rounds in Hloop.
  - intros vectors numClusters remaining centroids clusters0 rounds w
      clusters centroids' changed w' Hround. split.
    + intros Hconv. cbn [refine]. unfold mbind, M_bind, bind.
      rewrite Hround. by rewrite (round_converged _ _ _ _ _ _ _ _ Hround Hconv).
    + intros i. by eapply round_empty_cluster.
Qed.

(** C6, as the code has it.  [cluster] has no failure for a lack of data.
    A store with fewer entries than [numClusters] comes back as one
    cluster holding all of them; for the empty store and a positive
    [numClusters] that is one empty cluster.  With [numClusters] at least 1,
    fewer than 2^53 entries and [Math.random] within its contract, clusters
    are returned. *)
Theorem cluster_small_store_is_one_cluster (vectors : list entry)
    (numClusters : Z) (w : world) :
  (Z.of_nat (length vectors) < numClusters ->
   cluster Math_random vectors numClusters w = (Ok [vectors], w)) /\
  (vectors = [] -> 0 < numClusters ->
   cluster Math_random vectors numClusters w = (Ok [[]], w)) /\
  (1 <= numClusters < 2 ^ 32 ->
   Z.of_nat (length vectors) < 2 ^ 53 ->
   (forall i, unit_interval (Math_random i)) ->
   exists clusters w',
     cluster Math_random vectors numClusters w = (Ok clusters, w')).
Proof.
  assert (Z.of_nat (length vectors) < numClusters ->
          cluster Math_random vectors numClusters w = (Ok [vectors], w)) as Hsmall.
  { intros Hk. by rewrite cluster_of_rounds, cluster_rounds_small. }
  split; [done|]. split; [|apply cluster_total_unit_interval].
  intros -> Hk. apply Hsmall. simpl. lia.
Qed.

End Cluster.

Section ClusterRandom.

Import InMemoryVectorStore Spec.

(** C9, as the code has it.  What [cluster] returns is fixed by the store,
    [numClusters] and the values [Math.random] hands out for the initial
    centroids: two calls that are handed the same values return the same
    partition (or end with the same exception). *)
Theorem cluster_fixed_by_its_draws (rnd1 rnd2 : nat -> number)
    (vectors : list entry) (numClusters : Z) (w1 w2 : world) :
  (forall i, (i < Z.to_nat numClusters)%nat ->
     rnd1 (randoms w1 + i)%nat = rnd2 (randoms w2 + i)%nat) ->
  fst (cluster rnd1 vectors numClusters w1) =
  fst (cluster rnd2 vectors numClusters w2).
Proof.
  intros Hdraws. rewrite !cluster_of_rounds. unfold cluster_rounds.
  case_decide; [done|]. unfold mbind, M_bind, bind.
  pose proof (init_centroids_ext rnd1 rnd2 vectors _ [] w1 w2 Hdraws) as Hinit.
  destruct (init_centroids rnd1 _ _ _ w1) as [[centroids1|e1] w1'],
           (init_centroids rnd2 _ _ _ w2) as [[centroids2|e2] w2'];
    simpl in Hinit; try done; [|by injection Hinit as ->].
  injection Hinit as <-.
  destruct (stateless_refine vectors numClusters maxIterations centroids1 [] 0%nat)
    as [out Hout].
  rewrite !Hout. by destruct out as [[clusters rounds]|e].
Qed.

End ClusterRandom.

Section ClusterExamples.

Import InMemoryVectorStore Spec Samples.

Lemma tape_unit_interval (i : nat) : unit_interval (tape i).
Proof. destruct i as [|[|i]]; repeat split. Qed.

Lemma cluster_partitions_witness :
  [js; py; both] ≠ [] /\
  exists clusters w',
    cluster tape [js; py; both] 2 w0 = (Ok clusters, w') /\
    concat clusters ≡ₚ [js; py; both] /\
    Forall (fun cluster => cluster ≠ []) clusters.
Proof.
  split; [discriminate|].
  destruct (cluster_partitions tape [js; py; both] 2 w0) as [Hpart Htotal];
    [discriminate|].
  destruct Htotal as (clusters & w' & E);
    [lia|simpl; lia|apply tape_unit_interval|].
  exists clusters, w'. split; [exact E|].
  destruct (Hpart clusters w' E) as (_ & Hperm & Hnonempty).
  split; [exact Hperm|exact Hnonempty].
Defined.

Lemma sample_cluster_rounds :
  cluster_rounds tape [js; py; both] 2 w0 =
    (Ok ([[js; both]; [py]], 2%nat), {| calls := []; randoms := 2 |}).
Proof. vm_compute. reflexivity. Qed.

Lemma sample_round :
  round [js; py; both] 2 [[one; half]; [zero; one]] w0 =
    (Ok ([[js; both]; [py]], [[one; half]; [zero; one]], false), w0).
Proof. vm_compute. reflexivity. Qed.

Lemma sample_converged :
  converged [[js; both]; [py]] [[one; half]; [zero; one]] = true.
Proof. vm_compute. reflexivity. Qed.

Lemma cluster_loop_bounded_witness :
  (cluster_rounds tape [js; py; both] 2 w0 =
     (Ok ([[js; both]; [py]], 2%nat), {| calls := []; randoms := 2 |}) /\
   (2 <= maxIterations)%nat) /\
  (round [js; py; both] 2 [[one; half]; [zero; one]] w0 =
     (Ok ([[js; both]; [py]], [[one; half]; [zero; one]], false), w0) /\
   converged [[js; both]; [py]] [[one; half]; [zero; one]] = true /\
   refine [js; py; both] 2 (S 98) [[one; half]; [zero; one]] [] 1 w0 =
     (Ok ([[js; both]; [py]], 2%nat), w0)).
Proof.
  split.
  - split; [exact sample_cluster_rounds|].
    destruct (proj1 (cluster_loop_bounded tape) [js; py; both] 2 w0)
      as (out & w' & Hrun & Hbound).
    rewrite sample_cluster_rounds in Hrun. injection Hrun as <- _.
    exact (proj1 (Hbound _ _ eq_refl)).
  - split; [exact sample_round|]. split; [exact sample_converged|].
    exact (proj1 (proj2 (cluster_loop_bounded tape) _ _ 98%nat _ [] 1%nat _ _ _ _ _
                    sample_round) sample_converged).
Defined.

(** C6, refuted as stated: on the empty store with one cluster asked for,
    [cluster] does not fail; it returns one empty cluster. *)
Lemma cluster_empty_store_returns :
  cluster tape [] 1 w0 = (Ok [[]], w0).
Proof. reflexivity. Qed.

Lemma cluster_small_store_is_one_cluster_witness :
  Z.of_nat (length [js; py]) < 3 /\
  cluster tape [js; py] 3 w0 = (Ok [[js; py]], w0).
Proof.
  split; [simpl; lia|].
  apply (cluster_small_store_is_one_cluster tape [js; py] 3 w0). simpl. lia.
Defined.

Lemma sample_same_draws (i : nat) :
  (i < Z.to_nat 2)%nat ->
  tape (randoms w0 + i)%nat =
  tape_later (randoms {| calls := []; randoms := 2 |} + i)%nat.
Proof. destruct i as [|[|i]]; intros Hi; [reflexivity..|]. simpl in Hi. lia. Qed.

Lemma cluster_fixed_by_its_draws_witness :
  (forall i, (i < Z.to_nat 2)%nat ->
     tape (randoms w0 + i)%nat =
     tape_later (randoms {| calls := []; randoms := 2 |} + i)%nat) /\
  fst (cluster tape [js; py; both] 2 w0) =
  fst (cluster tape_later [js; py; both] 2 {| calls := []; randoms := 2 |}).
Proof.
  split; [exact sample_same_draws|].
  exact (cluster_fixed_by_its_draws tape tape_later [js; py; both] 2 w0
           {| calls := []; randoms := 2 |} sample_same_draws).
Defined.

(** C9, refuted as stated: the code draws from the ambient [Math.random],
    which the caller can neither hand in nor seed.  Two successive calls
    with the same store and the same [numClusters] return different
    partitions. *)
Lemma cluster_successive_calls_differ :
  cluster tape [js; py; both] 2 w0 =
    (Ok [[js; both]; [py]], {| calls := []; randoms := 2 |}) /\
  cluster tape [js; py; both] 2 {| calls := []; randoms := 2 |} =
    (Ok [[py; both]; [js]], {| calls := []; randoms := 4 |}) /\
  [[js; both]; [py]] ≠ [[py; both]; [js]].
Proof.
  split; [vm_compute; reflexivity|]. split; [vm_compute; reflexivity|].
  discriminate.
Qed.

End ClusterExamples.

(** ** [SimpleRAG] *)

Section Retrieval.

Import SimpleRAG.

Context (ollama : Ollama).

Lemma mapi_from {B C : Type} (f : B -> nat -> C) (l : list B) :
  forall n acc,
    JS.reduce_from (fun out x i => out ++ [f x i]) n l acc =
    acc ++ imap (fun i x => f x (n + i)%nat) l.
Proof.
  induction l as [|x l IH]; intros n acc; simpl.
  - by rewrite app_nil_r.
  - rewrite IH, <- app_assoc. simpl. rewrite Nat.add_0_r. do 2 f_equal.
    apply imap_ext. intros i y _. simpl. f_equal. lia.
Qed.

Lemma mapi_imap {B C : Type} (f : B -> nat -> C) (l : list B) :
  mapi f l = imap (fun i x => f x i) l.
Proof. unfold mapi, JS.reduce. by rewrite mapi_from. Qed.

Lemma generate_one (text : string) (w : world) :
  generate ollama [text] w =
  match Runtime.embeddings ollama "nomic-embed-text" text with
  | Some embedding =>
      (Ok [embedding], log (EmbeddingsCall "nomic-embed-text" text) w)
  | None => (Throw ProviderError, log (EmbeddingsCall "nomic-embed-text" text) w)
  end.
Proof.
  unfold generate. simpl. unfold bind, mbind, M_bind, bind, ollama_embeddings.
  by destruct (Runtime.embeddings ollama "nomic-embed-text" text).
Qed.

Lemma rag_search_unfold (this : state) (query : string) (topK : Z)
    (w : world) :
  search ollama this query topK w =
  match Runtime.embeddings ollama "nomic-embed-text" query with
  | Some queryEmbedding =>
      (Ok (JS.slice0
             (JS.sort by_similarity
                (imap (fun index embedding =>
                         {| index := index;
                            similarity :=
                              cosineSimilarity queryEmbedding embedding;
                            doc := documents this !! index |})
                      (embeddings this)))
             topK),
       log (EmbeddingsCall "nomic-embed-text" query) w)
  | None => (Throw ProviderError, log (EmbeddingsCall "nomic-embed-text" query) w)
  end.
Proof.
  unfold search, mbind, M_bind, bind. rewrite generate_one.
  destruct (Runtime.embeddings ollama "nomic-embed-text" query); [|done].
  by rewrite mapi_imap.
Qed.

Lemma map_documents_from {B : Type} (f : document -> hit -> B)
    (hits : list hit) :
  forall (docs : list document) (out : list B) (w : world),
    Forall2 (fun h d => doc h = Some d) hits docs ->
    for_of (fun out h =>
              match doc h with
              | Some d => mret (out ++ [f d h])
              | None => throw TypeError
              end)
           hits out w =
    (Ok (out ++ zip_with f docs hits), w).
Proof.
  induction hits as [|h hits IH]; intros docs out w Hdocs.
  - apply Forall2_nil_inv_l in Hdocs as ->. simpl. by rewrite app_nil_r.
  - apply Forall2_cons_inv_l in Hdocs as (d & docs' & Hd & Hdocs & ->).
    cbn [for_of]. unfold bind. rewrite Hd. cbn.
    rewrite (IH docs' _ w Hdocs). by rewrite <- app_assoc.
Qed.

Lemma map_documents_ok {B : Type} (f : document -> hit -> B)
    (hits : list hit) (docs : list document) (w : world) :
  Forall2 (fun h d => doc h = Some d) hits docs ->
  map_documents f hits w = (Ok (zip_with f docs hits), w).
Proof.
  intros Hdocs. unfold map_documents.
  by rewrite (map_documents_from f hits docs [] w Hdocs).
Qed.

Lemma hits_have_documents (hits : list hit) :
  Forall (fun h => is_Some (doc h)) hits ->
  exists docs, Forall2 (fun h d => doc h = Some d) hits docs.
Proof.
  induction 1 as [|h hits [d Hd] _ [docs IH]]; [by exists []|].
  exists (d :: docs). by constructor.
Qed.

(** [join] is the concatenation with separators of the standard
    library. *)
Lemma join_concat (sep : string) (a : list string) :
  JS.join sep a = String.concat sep a.
Proof.
  induction a as [|s a IH]; [done|].
  destruct a as [|s' a]; [done|].
  cbn [JS.join String.concat] in *. by rewrite IH.
Qed.

Lemma slice0_take {B : Type} (l : list B) (k : Z) :
  exists n, JS.slice0 l k = take n l.
Proof. unfold JS.slice0. case_decide; eauto. Qed.

(** C7, as the code has it.  On an object whose documents cover its
    embeddings (as [addDocument] leaves it), and when the embedding
    request resolves: [query] takes the hits of [search] in their order;
    its prompt is the fixed instruction, then the raw contents of the
    documents of the hits, in that order, with two line feeds between
    one and the next, then the question; it sends exactly one chat
    request, with that prompt, and returns its text as [answer] with the
    id and similarity of each hit, in the same order, as [sources].  That
    order is one of non-increasing similarity, whatever [topK] is, when no
    similarity is NaN; with a NaN similarity it need not be. *)
Theorem query_answers_from_ranked_documents (this : state)
    (question : string) (topK : Z) (w : world)
    (queryEmbedding : list number) :
  (length (embeddings this) <= length (documents this))%nat ->
  Runtime.embeddings ollama "nomic-embed-text" question = Some queryEmbedding ->
  exists relevantDocs docs w1,
    search ollama this question topK w = (Ok relevantDocs, w1) /\
    Forall2 (fun h d => doc h = Some d) relevantDocs docs /\
    let line_feed :=
      String (Ascii.Ascii false true false true false false false false)
             EmptyString in
    let blank_line := line_feed +:+ line_feed in
    let context := String.concat blank_line (content <$> docs) in
    let prompt :=
      "Answer the following question based on the provided context. If the answer is not in the context, say so."
      +:+ blank_line +:+ "Context:" +:+ line_feed
      +:+ context +:+ blank_line
      +:+ "Question: " +:+ question +:+ blank_line
      +:+ "Answer:" in
    let w2 :=
      {| calls := calls w ++ [EmbeddingsCall "nomic-embed-text" question;
                              ChatCall "llama3.2" prompt];
         randoms := randoms w |} in
    query ollama this question topK w =
      match Runtime.chat ollama "llama3.2" prompt with
      | Some text =>
          (Ok {| answer := text;
                 sources :=
                   zip_with (fun d h =>
                               {| source_id := id d;
                                  source_similarity := similarity h |})
                            docs relevantDocs |}, w2)
      | None => (Throw ProviderError, w2)
      end /\
    (Forall (fun embedding =>
               is_nan (cosineSimilarity queryEmbedding embedding) = false)
            (embeddings this) ->
     StronglySorted (fun h1 h2 => fge (similarity h1) (similarity h2) = true)
                    relevantDocs).
Proof.
  intros Hcover Hq.
  pose proof (rag_search_unfold this question topK w) as Hsearch.
  rewrite Hq in Hsearch.
  set (hits := imap (fun index embedding =>
                       {| index := index;
                          similarity := cosineSimilarity queryEmbedding embedding;
                          doc := documents this !! index |})
                    (embeddings this)) in *.
  set (relevantDocs := JS.slice0 (JS.sort by_similarity hits) topK) in *.
  assert (Forall (fun h => is_Some (doc h)) relevantDocs) as Hsome.
  { apply Forall_forall. intros h Hh. apply elem_of_slice0_sort in Hh.
    apply list_elem_of_lookup in Hh as [i Hi].
    apply list_lookup_imap_Some in Hi as (e & He & ->). simpl.
    apply lookup_lt_is_Some_2. apply lookup_lt_Some in He. lia. }
  destruct (hits_have_documents relevantDocs Hsome) as [docs Hdocs].
  eexists relevantDocs, docs, _. split; [exact Hsearch|]. split; [exact Hdocs|].
  cbv zeta. split.
  - unfold query, mbind, M_bind, bind. rewrite Hsearch.
    rewrite (map_documents_ok (fun d _ => content d) relevantDocs docs)
      by done.
    assert (zip_with (fun d (_ : hit) => content d) docs relevantDocs =
            content <$> docs) as ->.
    { clear -Hdocs. induction Hdocs; simpl; [done|]. by f_equal. }
    rewrite join_concat.
    match goal with
    | |- _ = match Runtime.chat ollama "llama3.2" ?p with _ => _ end =>
        change (prompt_of
                  (String.concat (JS.newline +:+ JS.newline) (content <$> docs))
                  question) with p;
        set (prompt := p)
    end.
    unfold ollama_chat.
    destruct (Runtime.chat ollama "llama3.2" prompt) as [text|];
      unfold log; simpl.
    + rewrite (map_documents_ok _ relevantDocs docs) by done.
      unfold mret, M_ret, ret. by rewrite <- app_assoc.
    + by rewrite <- app_assoc.
  - intros Hnan. unfold relevantDocs.
    destruct (slice0_take (JS.sort by_similarity hits) topK) as [n ->].
    apply StronglySorted_take.
    destruct (sort_ranking similarity hits) as (_ & _ & _ & _ & Hsorted);
      [|exact Hsorted].
    apply Forall_forall. intros h Hh.
    apply list_elem_of_lookup in Hh as [i Hi].
    apply list_lookup_imap_Some in Hi as (e & He & ->). simpl.
    split; [apply fdiv_valid|].
    eapply Forall_forall in Hnan; [exact Hnan|].
    by eapply list_elem_of_lookup_2.
Qed.

End Retrieval.

Section RetrievalExamples.

Import SimpleRAG Samples.

(** [addDocument] leaves the documents covering the embeddings. *)
Lemma addDocument_covers (ollama : Ollama) (this this' : state)
    (id0 content0 : string) (metadata0 : option (gmap string value))
    (w w' : world) :
  (length (embeddings this) <= length (documents this))%nat ->
  addDocument ollama this id0 content0 metadata0 w = (Ok this', w') ->
  (length (embeddings this') <= length (documents this'))%nat.
Proof.
  intros Hcover. unfold addDocument, mbind, M_bind, bind.
  rewrite generate_one.
  destruct (Runtime.embeddings ollama "nomic-embed-text" content0); [|done].
  unfold mret, M_ret, ret. intros [= <- _]. simpl.
  rewrite !length_app. simpl. lia.
Qed.

Lemma sample_hits :
  exists h1 h2 w1,
    search stub library "web" 3 w0 = (Ok [h1; h2], w1) /\
    doc h1 = documents library !! 0%nat /\
    doc h2 = documents library !! 1%nat.
Proof. eexists _, _, _. split; [vm_compute; reflexivity|]. by split. Qed.

Lemma query_answers_from_ranked_documents_witness :
  (length (embeddings library) <= length (documents library))%nat /\
  Runtime.embeddings stub "nomic-embed-text" "web" = Some [one; half] /\
  exists result w2,
    query stub library "web" 3 w0 = (Ok result, w2) /\
    answer result = "JavaScript" /\
    source_id <$> sources result = ["js"; "py"] /\
    let line_feed :=
      String (Ascii.Ascii false true false true false false false false)
             EmptyString in
    calls w2 =
      [EmbeddingsCall "nomic-embed-text" "web";
       ChatCall "llama3.2"
         ("Answer the following question based on the provided context. If the answer is not in the context, say so."
          +:+ line_feed +:+ line_feed +:+ "Context:" +:+ line_feed
          +:+ "JavaScript is used for web development"
          +:+ line_feed +:+ line_feed
          +:+ "Python is used for data science"
          +:+ line_feed +:+ line_feed
          +:+ "Question: web" +:+ line_feed +:+ line_feed
          +:+ "Answer:")].
Proof.
  split; [simpl; lia|]. split; [reflexivity|].
  destruct (query_answers_from_ranked_documents stub library "web" 3 w0
              [one; half] ltac:(simpl; lia) eq_refl)
    as (relevantDocs & docs & w1 & Hsearch & Hdocs & Hquery & _).
  destruct sample_hits as (h1 & h2 & w1' & Hhits & Hd1 & Hd2).
  rewrite Hhits in Hsearch. injection Hsearch as <- _.
  apply Forall2_cons_inv_l in Hdocs as (d1 & docs1 & H1 & Hdocs & ->).
  apply Forall2_cons_inv_l in Hdocs as (d2 & docs2 & H2 & Hdocs & ->).
  apply Forall2_nil_inv_l in Hdocs as ->.
  rewrite Hd1 in H1. rewrite Hd2 in H2.
  injection H1 as <-. injection H2 as <-.
  eexists _, _. split; [exact Hquery|]. split; [reflexivity|].
  split; reflexivity.
Defined.

Lemma sample_query_with_nan :
  query stub zero_library "web" 3 w0 =
    (Ok {| answer := "JavaScript";
           sources :=
             [{| source_id := "blank"; source_similarity := S754_nan |};
              {| source_id := "js";
                 source_similarity :=
                   S754_finite false 8056283928194521 (-53) |}] |},
     {| calls :=
          [EmbeddingsCall "nomic-embed-text" "web";
           ChatCall "llama3.2" (prompt_of ("blank" +:+ JS.newline +:+ JS.newline +:+ "js") "web")];
        randoms := 0 |}).
Proof. vm_compute. reflexivity. Qed.

(** C7, refuted as stated: an object filled by [addDocuments] holds a
    document whose embedding is all zeros next to another one; [query]
    returns both as sources, the first with similarity NaN, and no
    arrangement of these sources is in non-increasing order of
    similarity. *)
Lemma query_sources_with_nan_are_not_ranked :
  exists result w' w1,
    addDocuments stub new
      [{| id := "blank"; content := "blank"; metadata := None |};
       {| id := "js"; content := "js"; metadata := None |}] w0 =
      (Ok zero_library, w1) /\
    query stub zero_library "web" 3 w0 = (Ok result, w') /\
    map source_similarity (sources result) =
      [S754_nan; S754_finite false 8056283928194521 (-53)] /\
    forall arranged,
      arranged ≡ₚ sources result ->
      ~ StronglySorted
          (fun s1 s2 => fge (source_similarity s1) (source_similarity s2) = true)
          arranged.
Proof.
  eexists _, _, _. split; [reflexivity|].
  split; [exact sample_query_with_nan|]. split; [reflexivity|].
  intros arranged Hperm Hsorted. symmetry in Hperm.
  apply Permutation_length_2_inv in Hperm as [-> | ->];
    apply StronglySorted_inv in Hsorted as [_ Hhead];
    apply Forall_cons in Hhead as [Hhead _]; simpl in Hhead; discriminate.
Qed.

(** The two-document example end to end: the first source is ["js"]. *)
Lemma sample_query :
  exists result w',
    query stub library "web" 3 w0 = (Ok result, w') /\
    answer result = "JavaScript" /\
    map source_id (sources result) = ["js"; "py"] /\
    exists prompt,
      calls w' = [EmbeddingsCall "nomic-embed-text" "web";
                  ChatCall "llama3.2" prompt].
Proof.
  eexists _, _. split; [vm_compute; reflexivity|].
  split; [reflexivity|]. split; [reflexivity|]. eexists. reflexivity.
Qed.

End RetrievalExamples.

(** * Further properties of the two classes *)

(** ** Vectors of different lengths *)

Section Lengths.

Import InMemoryVectorStore Spec.

Lemma fadd_nan_r (x : number) : fadd x NaN = NaN.
Proof. by destruct x. Qed.

Lemma fmul_nan_r (x : number) : fmul x NaN = NaN.
Proof. by destruct x. Qed.

Lemma dot_from_nan (a b : list number) :
  forall i,
    JS.reduce_from (fun sum ai i => fadd sum (fmul ai (JS.get b i))) i a NaN =
    NaN.
Proof. induction a as [|x a IH]; intros i; simpl; [done|apply IH]. Qed.

Lemma dot_from_short (a b : list number) :
  forall i acc,
    (i <= length b < i + length a)%nat ->
    JS.reduce_from (fun sum ai i => fadd sum (fmul ai (JS.get b i))) i a acc =
    NaN.
Proof.
  induction a as [|x a IH]; intros i acc Hi; simpl in *; [lia|].
  destruct (decide (i = length b)) as [->|Hne].
  - unfold JS.get at 2. rewrite lookup_ge_None_2 by lia. simpl.
    rewrite fmul_nan_r, fadd_nan_r. apply dot_from_nan.
  - apply IH. lia.
Qed.

(** X1.  The similarity of a vector to a shorter one is NaN: the components
    the shorter one lacks read as [undefined]. *)
Theorem cosineSimilarity_to_shorter_is_nan (a b : list number) :
  (length b < length a)%nat -> cosineSimilarity a b = NaN.
Proof.
  intros Hlen. rewrite cosineSimilarity_unfold.
  unfold dot, JS.reduce. rewrite dot_from_short by lia. reflexivity.
Qed.

Lemma cosineSimilarity_to_shorter_is_nan_witness :
  (length [one; Samples.half] < length [one; one; one])%nat /\
  cosineSimilarity [one; one; one] [one; Samples.half] = NaN.
Proof.
  split; [simpl; lia|].
  apply (cosineSimilarity_to_shorter_is_nan [one; one; one] [one; Samples.half]).
  simpl; lia.
Defined.

End Lengths.

(** ** What [search] returns of the store *)

Section SearchMore.

Import InMemoryVectorStore Spec.

Context (ollama : Ollama).

(** X2.  Whatever the similarities are, NaN included, [search] returns stored
    entries with their similarity to the query, none more often than it is
    stored, and all of them when [topK] is at least the size of the store. *)
Theorem search_returns_entries_once (vectors : list entry) (query : string)
    (topK : Z) (w w' : world) (results : list scored) :
  search ollama vectors query topK w = (Ok results, w') ->
  exists queryVector,
    Runtime.embeddings ollama "nomic-embed-text" query = Some queryVector /\
    let scored :=
      (fun item =>
         with_similarity item (cosineSimilarity queryVector (vector item)))
      <$> vectors in
    results ⊆+ scored /\
    (Z.of_nat (length vectors) <= topK -> results ≡ₚ scored).
Proof.
  rewrite search_unfold.
  destruct (Runtime.embeddings ollama "nomic-embed-text" query) as [qv|];
    [|done].
  intros [= <- _]. exists qv. split; [done|]. cbv zeta. rewrite map_fmap.
  set (scored := _ <$> vectors).
  pose proof (sort_perm by_similarity scored) as Hperm. split.
  - etrans; [apply sublist_submseteq, slice0_sublist|].
    by apply Permutation_submseteq.
  - intros Hk. rewrite slice0_nonneg by lia.
    rewrite take_ge; [done|].
    rewrite Hperm. unfold scored. rewrite length_fmap. lia.
Qed.

(** X3.  A negative [topK] does not make [search] return nothing: it returns
    the full ranking without its last [-topK] results. *)
Theorem search_negative_topK_drops_last (vectors : list entry)
    (query : string) (topK : Z) (w w' : world) (results : list scored) :
  topK < 0 ->
  search ollama vectors query topK w = (Ok results, w') ->
  exists full,
    search ollama vectors query (Z.of_nat (length vectors)) w = (Ok full, w') /\
    length full = length vectors /\
    results = take (length vectors - Z.to_nat (- topK)) full.
Proof.
  intros Hk. rewrite !search_unfold.
  destruct (Runtime.embeddings ollama "nomic-embed-text" query) as [qv|];
    [|done].
  intros [= <- <-]. rewrite map_fmap.
  set (sorted := JS.sort by_similarity _).
  assert (length sorted = length vectors) as Hlen.
  { unfold sorted. rewrite sort_perm. by rewrite length_fmap. }
  exists sorted. split; [|split; [done|]].
  - f_equal. f_equal. rewrite slice0_nonneg by lia.
    apply take_ge. lia.
  - unfold JS.slice0. rewrite decide_True by done. f_equal. lia.
Qed.

End SearchMore.

Section SearchMoreExamples.

Import InMemoryVectorStore Spec Samples.

Lemma search_returns_entries_once_witness :
  exists results w',
    search stub [blank; js] "web" 5 w0 = (Ok results, w') /\
    results ≡ₚ
      (fun item =>
         with_similarity item (cosineSimilarity [one; half] (vector item)))
      <$> [blank; js].
Proof.
  assert (exists results w',
            search stub [blank; js] "web" 5 w0 = (Ok results, w'))
    as (results & w' & Hsearch) by (eexists _, _; vm_compute; reflexivity).
  exists results, w'. split; [exact Hsearch|].
  destruct (search_returns_entries_once stub [blank; js] "web" 5 w0 w'
              results Hsearch) as (qv & Hqv & _ & Hall).
  injection Hqv as <-. apply Hall. simpl. lia.
Defined.

Lemma search_negative_topK_drops_last_witness :
  -1 < 0 /\
  exists results w',
    search stub [js; py; both] "web" (-1) w0 = (Ok results, w') /\
    length results = 2%nat.
Proof.
  split; [lia|].
  assert (exists results w',
            search stub [js; py; both] "web" (-1) w0 = (Ok results, w'))
    as (results & w' & Hsearch) by (eexists _, _; vm_compute; reflexivity).
  exists results, w'. split; [exact Hsearch|].
  destruct (search_negative_topK_drops_last stub [js; py; both] "web" (-1)
              w0 w' results ltac:(lia) Hsearch) as (full & _ & Hlen & ->).
  rewrite length_take, Hlen. reflexivity.
Defined.

End SearchMoreExamples.

(** ** The choice of a cluster for a vector *)

Section BestCluster.

Import InMemoryVectorStore Spec.

Lemma cosineSimilarity_of_zeros (a b : list number) :
  Forall is_zero a -> cosineSimilarity a b = NaN.
Proof.
  intros Ha. rewrite cosineSimilarity_unfold. apply fdiv_zero_or_nan.
  - unfold dot, JS.reduce. apply reduce_from_invariant; [|done].
    intros acc x i Hacc Hx. apply fadd_zero_or_nan; [done|].
    rewrite fmul_comm. apply fmul_zero_or_nan.
    eapply Forall_forall in Ha; [|exact Hx]. by destruct x.
  - rewrite fmul_comm. apply fmul_zero_or_nan. unfold magnitude.
    apply fsqrt_zero_or_nan. unfold JS.reduce.
    apply reduce_from_invariant; [|done].
    intros acc x i Hacc Hx. apply fadd_zero_or_nan; [done|].
    apply fmul_zero_or_nan. eapply Forall_forall in Ha; [|exact Hx].
    by destruct x.
Qed.

Lemma fgt_irrefl (x : number) : fgt x x = false.
Proof.
  unfold fgt, SFltb. destruct (is_nan x) eqn:Hx.
  - by destruct x.
  - by rewrite SFcompare_refl.
Qed.

Lemma fgt_false_compare (x y : number) :
  is_nan x = false -> is_nan y = false -> fgt x y = false ->
  SFcompare y x = Some Gt \/ SFcompare y x = Some Eq.
Proof.
  intros Hx Hy Hgt. destruct (SFcompare_total x y Hx Hy) as [c Hc].
  rewrite (SFcompare_swap x y), Hc. simpl.
  destruct c; [by right|by left|].
  apply fgt_compare in Hc. congruence.
Qed.

(** What the loop over the centroids holds after the centroids [seen]:
    no centroid seen is more similar than the best one, which is the
    first to reach its similarity, or nothing has beaten -1 yet. *)
Lemma best_cluster_from (v : list number) (todo : list (list number)) :
  forall (seen : list (list number)) (bestCluster : nat)
         (bestSimilarity : number),
    Forall (fun c => is_nan (cosineSimilarity v c) = false) (seen ++ todo) ->
    is_nan bestSimilarity = false ->
    (forall j c, seen !! j = Some c ->
       fgt (cosineSimilarity v c) bestSimilarity = false) ->
    (bestCluster = 0%nat /\ bestSimilarity = minus_one) \/
    (exists c, seen !! bestCluster = Some c /\
       cosineSimilarity v c = bestSimilarity /\
       forall j c', (j < bestCluster)%nat -> seen !! j = Some c' ->
         fgt bestSimilarity (cosineSimilarity v c') = true) ->
    let r :=
      JS.reduce_from
        (fun '(bestCluster, bestSimilarity) centroid i =>
           let similarity := cosineSimilarity v centroid in
           if fgt similarity bestSimilarity then (i, similarity)
           else (bestCluster, bestSimilarity))
        (length seen) todo (bestCluster, bestSimilarity) in
    (forall j c, (seen ++ todo) !! j = Some c ->
       fgt (cosineSimilarity v c) r.2 = false) /\
    ((r.1 = 0%nat /\ r.2 = minus_one) \/
     (exists c, (seen ++ todo) !! r.1 = Some c /\
        cosineSimilarity v c = r.2 /\
        forall j c', (j < r.1)%nat -> (seen ++ todo) !! j = Some c' ->
          fgt r.2 (cosineSimilarity v c') = true)).
Proof.
  induction todo as [|x todo IH];
    intros seen b s Hnan Hs Hseen Hbest; cbn [JS.reduce_from].
  - rewrite app_nil_r. by split.
  - replace (seen ++ x :: todo) with ((seen ++ [x]) ++ todo) in *
      by (by rewrite <- app_assoc).
    replace (S (length seen)) with (length (seen ++ [x]))
      by (rewrite length_app; simpl; lia).
    assert (is_nan (cosineSimilarity v x) = false) as Hx.
    { eapply Forall_forall in Hnan; [exact Hnan|].
      apply elem_of_app. left. apply elem_of_app. right. apply list_elem_of_here. }
    assert (forall c, c ∈ seen -> is_nan (cosineSimilarity v c) = false)
      as Hseen_nan.
    { intros c Hc. eapply Forall_forall in Hnan; [exact Hnan|].
      apply elem_of_app. left. apply elem_of_app. by left. }
    destruct (fgt (cosineSimilarity v x) s) eqn:Hgt.
    + apply IH; [done|done| |].
      * intros j c [[_ Hj]|[_ <-]]%lookup_snoc_Some; [|apply fgt_irrefl].
        destruct (fgt (cosineSimilarity v c) (cosineSimilarity v x)) eqn:Hc;
          [|done].
        apply fgt_compare in Hc. apply fgt_compare in Hgt.
        pose proof (SFcompare_Gt_trans _ _ _ Hc (or_introl Hgt)) as Hcs.
        apply fgt_compare in Hcs. by rewrite (Hseen j c Hj) in Hcs.
      * right. exists x. split; [|split; [done|]].
        { apply lookup_snoc_Some. by right. }
        intros j c' Hj [[_ Hc']|[-> _]]%lookup_snoc_Some; [|lia].
        apply fgt_compare. apply fgt_compare in Hgt.
        apply (SFcompare_Gt_trans _ _ _ Hgt).
        apply fgt_false_compare; [|done|by eapply Hseen].
        apply Hseen_nan. by eapply list_elem_of_lookup_2.
    + apply IH; [done|done| |].
      * intros j c [[_ Hj]|[_ <-]]%lookup_snoc_Some; [by eapply Hseen|done].
      * destruct Hbest as [?|(c & Hc & Hcs & Hfirst)]; [by left|].
        right. exists c. split; [by apply lookup_app_l_Some|]. split; [done|].
        intros j c' Hj [[_ Hc']|[-> _]]%lookup_snoc_Some.
        -- by eapply Hfirst.
        -- apply lookup_lt_Some in Hc. lia.
Qed.

(** X4.  When no similarity is NaN, the centroid the assignment chooses for a
    vector is at least as similar to it as every centroid whose
    similarity is above -1, and it is the first of those that similar. *)
Theorem best_cluster_is_most_similar (v : list number)
    (centroids : list (list number)) (j : nat) (c : list number) :
  Forall (fun c => is_nan (cosineSimilarity v c) = false) centroids ->
  centroids !! j = Some c ->
  fgt (cosineSimilarity v c) minus_one = true ->
  exists best,
    centroids !! best_cluster v centroids = Some best /\
    fge (cosineSimilarity v best) (cosineSimilarity v c) = true /\
    (feq (cosineSimilarity v best) (cosineSimilarity v c) = true ->
     (best_cluster v centroids <= j)%nat).
Proof.
  intros Hnan Hj Hc.
  destruct (best_cluster_from v centroids [] 0%nat minus_one)
    as [Hall Hbest]; [done|done|done|by left|].
  simpl in Hall, Hbest. fold (JS.reduce
    (fun '(bestCluster, bestSimilarity) centroid i =>
       let similarity := cosineSimilarity v centroid in
       if fgt similarity bestSimilarity then (i, similarity)
       else (bestCluster, bestSimilarity)) centroids (0%nat, minus_one))
    in Hall, Hbest.
  fold (best_cluster v centroids) in Hbest.
  set (r := JS.reduce _ centroids (0%nat, minus_one)) in *.
  change (best_cluster v centroids) with r.1 in *.
  specialize (Hall j c Hj).
  destruct Hbest as [[_ Hr]|(best & Hb & Hs & Hfirst)].
  - rewrite Hr in Hall. congruence.
  - exists best. split; [done|]. rewrite Hs.
    assert (is_nan (cosineSimilarity v c) = false) as Hcn.
    { eapply Forall_forall in Hnan; [exact Hnan|].
      by eapply list_elem_of_lookup_2. }
    assert (is_nan r.2 = false) as Hrn.
    { rewrite <- Hs. eapply Forall_forall in Hnan; [exact Hnan|].
      by eapply list_elem_of_lookup_2. }
    split.
    + apply fge_compare. by apply fgt_false_compare.
    + intros Heq. destruct (decide (r.1 <= j)%nat)
        as [?|Hlt]; [done|].
      assert (fgt r.2 (cosineSimilarity v c) = true) as Hgt
        by (apply (Hfirst j c); [lia|done]).
      apply fgt_compare in Hgt. apply feq_compare in Heq. congruence.
Qed.

(** A vector of zeros (and the empty vector) is assigned to the first
    cluster, whatever the centroids are: its similarity to each of them is
    NaN, which beats nothing. *)
Lemma best_cluster_of_zeros (v : list number)
    (centroids : list (list number)) :
  Forall is_zero v -> best_cluster v centroids = 0%nat.
Proof.
  intros Hv. unfold best_cluster, JS.reduce.
  match goal with
  | |- fst ?r = _ => assert (r = (0%nat, minus_one)) as ->; [|done]
  end.
  apply (reduce_from_invariant (fun acc => acc = (0%nat, minus_one))); [|done].
  intros acc c i -> _. by rewrite cosineSimilarity_of_zeros.
Qed.

End BestCluster.

Section BestClusterExamples.

Import InMemoryVectorStore Spec Samples.

Lemma best_cluster_is_most_similar_witness :
  Forall (fun c => is_nan (cosineSimilarity [one; half] c) = false)
         [[one; zero]; [zero; one]] /\
  [[one; zero]; [zero; one]] !! 1%nat = Some [zero; one] /\
  fgt (cosineSimilarity [one; half] [zero; one]) minus_one = true /\
  exists best,
    [[one; zero]; [zero; one]] !!
      best_cluster [one; half] [[one; zero]; [zero; one]] = Some best /\
    fge (cosineSimilarity [one; half] best)
        (cosineSimilarity [one; half] [zero; one]) = true.
Proof.
  assert (Forall (fun c => is_nan (cosineSimilarity [one; half] c) = false)
                 [[one; zero]; [zero; one]]) as Hnan
    by (repeat constructor).
  assert (fgt (cosineSimilarity [one; half] [zero; one]) minus_one = true)
    as Hgt by (vm_compute; reflexivity).
  split; [exact Hnan|]. split; [reflexivity|]. split; [exact Hgt|].
  destruct (best_cluster_is_most_similar [one; half]
              [[one; zero]; [zero; one]] 1 [zero; one] Hnan eq_refl Hgt)
    as (best & Hbest & Hge & _).
  exists best. split; [exact Hbest|exact Hge].
Defined.

End BestClusterExamples.

(** ** What [cluster] returns and what it uses *)

Section ClusterMore.

Import InMemoryVectorStore Spec.

Context (Math_random : nat -> number).

Lemma assign_nonneg (vectors : list entry) (numClusters : Z)
    (centroids : list (list number)) (w w' : world)
    (clusters : list (list entry)) :
  assign vectors numClusters centroids w = (Ok clusters, w') ->
  0 <= numClusters.
Proof.
  unfold assign, mbind, M_bind, bind, new_clusters.
  case_decide; [lia|done].
Qed.

(** The members of each cluster of an assignment are stored entries whose
    chosen centroid is the one of that cluster, and every stored entry is
    a member of the cluster of its chosen centroid. *)
Lemma assign_members (vectors : list entry) (numClusters : Z)
    (centroids : list (list number)) (w w' : world)
    (clusters : list (list entry)) :
  assign vectors numClusters centroids w = (Ok clusters, w') ->
  (forall i members item,
     clusters !! i = Some members -> item ∈ members ->
     best_cluster (vector item) centroids = i) /\
  (forall item, item ∈ vectors ->
     exists members,
       clusters !! best_cluster (vector item) centroids = Some members /\
       item ∈ members).
Proof.
  intros Hassign.
  assert (forall i members item,
            clusters !! i = Some members -> item ∈ members ->
            best_cluster (vector item) centroids = i) as Hsound.
  { revert Hassign. unfold assign, mbind, M_bind, bind.
    destruct (new_clusters numClusters w) as [[clusters0|e] w0] eqn:E; [|done].
    apply new_clusters_ok in E as ->.
    apply (for_of_invariant
             (fun cl => forall i members item,
                cl !! i = Some members -> item ∈ members ->
                best_cluster (vector item) centroids = i)).
    - intros cl v w1 cl' w1' _ Hcl
        (members & Hmembers & ->)%push_to_ok i members' item Hi Hitem.
      destruct (decide (i = best_cluster (vector v) centroids)) as [->|Hne].
      + rewrite list_lookup_insert_eq in Hi by (by eapply lookup_lt_Some).
        injection Hi as <-.
        apply elem_of_app in Hitem as [Hitem|Hitem]; [by eapply Hcl|].
        by apply list_elem_of_singleton in Hitem as ->.
      + rewrite list_lookup_insert_ne in Hi by done. by eapply Hcl.
    - intros i members item [-> _]%lookup_replicate Hitem.
      by apply elem_of_nil in Hitem. }
  split; [exact Hsound|]. intros item Hitem.
  apply assign_placed in Hassign as (_ & rows & Hplaced & Hrows).
  pose proof (placed_concat vectors rows clusters Hplaced Hrows) as Hperm.
  rewrite <- Hperm in Hitem.
  apply list_elem_of_In, in_concat in Hitem as (members & Hmembers & Hin).
  apply list_elem_of_In, list_elem_of_lookup in Hmembers as [i Hi].
  apply list_elem_of_In in Hin.
  exists members. by rewrite (Hsound i members item Hi Hin).
Qed.

(** The clusters the loop ends with are those of an assignment to as
    many centroids as it started from. *)
Lemma refine_last_assign (vectors : list entry) (numClusters : Z)
    (remaining : nat) :
  forall centroids clusters0 rounds w clusters n w',
    (0 < remaining)%nat ->
    refine vectors numClusters remaining centroids clusters0 rounds w =
      (Ok (clusters, n), w') ->
    exists centroids',
      length centroids' = length centroids /\
      assign vectors numClusters centroids' w = (Ok clusters, w).
Proof.
  induction remaining as [|remaining IH];
    intros centroids clusters0 rounds w clusters n w' Hpos; [lia|].
  cbn [refine]. unfold mbind, M_bind, bind.
  destruct (round vectors numClusters centroids w)
    as [[[[cl cs] ch]|e] w1] eqn:E; [|done].
  destruct (stateless_world _ _ _ _ (stateless_round _ _ _) E) as [-> _].
  apply round_ok in E as [Ha Hu].
  unfold update in Hu. apply update_loop in Hu as (Hlen & _); [|apply NoDup_seq].
  destruct ch.
  - destruct remaining as [|remaining].
    + cbn [refine]. unfold mret, M_ret, ret. intros [= <- _ _].
      by exists centroids.
    + intros Hloop. apply IH in Hloop as (cs' & Hcs' & Hassign); [|lia].
      exists cs'. split; [congruence|done].
  - unfold mret, M_ret, ret. intros [= <- _ _]. by exists centroids.
Qed.

(** On a store with at least [numClusters] entries, the clusters
    returned are the non-empty clusters of an assignment to [numClusters]
    centroids. *)
Lemma cluster_last_assignment (vectors : list entry) (numClusters : Z)
    (w w' : world) (clusters : list (list entry)) :
  ¬ Z.of_nat (length vectors) < numClusters ->
  cluster Math_random vectors numClusters w = (Ok clusters, w') ->
  exists centroids clusters1,
    Z.of_nat (length centroids) = numClusters /\
    assign vectors numClusters centroids w' = (Ok clusters1, w') /\
    clusters = filter (fun cluster => (0 < length cluster)%nat) clusters1.
Proof.
  intros Hlarge. rewrite cluster_of_rounds.
  destruct (cluster_rounds Math_random vectors numClusters w)
    as [[[clusters1 rounds]|e] w1] eqn:E; [|done].
  intros [= <- <-].
  apply cluster_rounds_large in E
    as (centroids & w2 & clusters2 & Hinit & Hloop & ->); [|done].
  apply init_centroids_ok in Hinit. simpl in Hinit.
  destruct (stateless_world _ _ _ _ (stateless_refine _ _ _ _ _ _) Hloop)
    as [-> _].
  apply refine_last_assign in Hloop as (cs & Hcs & Hassign);
    [|unfold maxIterations; lia].
  exists cs, clusters2. split; [|by split].
  apply assign_nonneg in Hassign. lia.
Qed.

(** X5.  [cluster] never returns more clusters than it was asked for. *)
Theorem cluster_returns_at_most_numClusters (vectors : list entry)
    (numClusters : Z) (w w' : world) (clusters : list (list entry)) :
  cluster Math_random vectors numClusters w = (Ok clusters, w') ->
  Z.of_nat (length clusters) <= numClusters.
Proof.
  intros Hcluster.
  destruct (decide (Z.of_nat (length vectors) < numClusters)) as [Hk|Hk].
  - rewrite cluster_of_rounds, cluster_rounds_small in Hcluster by done.
    injection Hcluster as <- _. simpl. lia.
  - apply cluster_last_assignment in Hcluster
      as (centroids & clusters1 & _ & Hassign & ->); [|done].
    pose proof (assign_nonneg _ _ _ _ _ _ Hassign).
    apply assign_placed in Hassign as [Hlen _].
    pose proof (length_filter (fun cluster : list entry => (0 < length cluster)%nat)
                  clusters1).
    lia.
Qed.

(** X6.  The returned clusters are the groups of stored entries that chose the
    same centroid, for some [numClusters] centroids: two stored entries
    are members of one returned cluster exactly when the assignment
    chooses the same centroid for both. *)
Theorem cluster_groups_by_centroid (vectors : list entry) (numClusters : Z)
    (w w' : world) (clusters : list (list entry)) :
  ¬ Z.of_nat (length vectors) < numClusters ->
  cluster Math_random vectors numClusters w = (Ok clusters, w') ->
  exists centroids,
    Z.of_nat (length centroids) = numClusters /\
    forall item1 item2, item1 ∈ vectors -> item2 ∈ vectors ->
      (best_cluster (vector item1) centroids =
       best_cluster (vector item2) centroids <->
       exists members,
         members ∈ clusters /\ item1 ∈ members /\ item2 ∈ members).
Proof.
  intros Hlarge Hcluster.
  apply cluster_last_assignment in Hcluster
    as (centroids & clusters1 & Hlen & Hassign & ->); [|done].
  apply assign_members in Hassign as [Hsound Hcomplete].
  exists centroids. split; [done|]. intros item1 item2 H1 H2. split.
  - intros Hsame.
    destruct (Hcomplete item1 H1) as (members1 & Hm1 & Hin1).
    destruct (Hcomplete item2 H2) as (members2 & Hm2 & Hin2).
    rewrite <- Hsame, Hm1 in Hm2. injection Hm2 as <-.
    exists members1. split; [|done]. apply list_elem_of_filter. split.
    + destruct members1; [by apply elem_of_nil in Hin1|simpl; lia].
    + by eapply list_elem_of_lookup_2.
  - intros (members & [_ Hmembers]%list_elem_of_filter & Hin1 & Hin2).
    apply list_elem_of_lookup in Hmembers as [i Hi].
    by rewrite (Hsound i members item1 Hi Hin1),
               (Hsound i members item2 Hi Hin2).
Qed.

(** X7.  Entries whose vectors are all zeros are never separated: whatever
    the centroids, they end up in one and the same returned cluster. *)
Theorem cluster_keeps_zero_vectors_together (vectors : list entry)
    (numClusters : Z) (w w' : world) (clusters : list (list entry))
    (item1 item2 : entry) :
  cluster Math_random vectors numClusters w = (Ok clusters, w') ->
  item1 ∈ vectors -> item2 ∈ vectors ->
  Forall is_zero (vector item1) -> Forall is_zero (vector item2) ->
  exists members, members ∈ clusters /\ item1 ∈ members /\ item2 ∈ members.
Proof.
  intros Hcluster H1 H2 Hz1 Hz2.
  destruct (decide (Z.of_nat (length vectors) < numClusters)) as [Hk|Hk].
  - rewrite cluster_of_rounds, cluster_rounds_small in Hcluster by done.
    injection Hcluster as <- _. exists vectors.
    split; [apply list_elem_of_here|done].
  - apply cluster_last_assignment in Hcluster
      as (centroids & clusters1 & _ & Hassign & ->); [|done].
    apply assign_members in Hassign as [_ Hcomplete].
    destruct (Hcomplete item1 H1) as (members1 & Hm1 & Hin1).
    destruct (Hcomplete item2 H2) as (members2 & Hm2 & Hin2).
    rewrite best_cluster_of_zeros in Hm1, Hm2 by done.
    rewrite Hm1 in Hm2. injection Hm2 as <-.
    exists members1. split; [|done]. apply list_elem_of_filter. split.
    + destruct members1; [by apply elem_of_nil in Hin1|simpl; lia].
    + by eapply list_elem_of_lookup_2.
Qed.

(** The initial draws send no request and take one value of
    [Math.random] per centroid. *)
Lemma init_centroids_world (vectors : list entry) (n : nat) :
  forall centroids w out w',
    init_centroids Math_random vectors n centroids w = (out, w') ->
    calls w' = calls w /\
    (randoms w <= randoms w' <= randoms w + n)%nat /\
    (forall centroids', out = Ok centroids' ->
       randoms w' = (randoms w + n)%nat).
Proof.
  induction n as [|n IH]; intros centroids w out w'; cbn [init_centroids].
  - unfold mret, M_ret, ret. intros [= <- <-]. split; [done|]. split; lia.
  - unfold mbind, M_bind, bind, random.
    destruct (at_number vectors _) as [item|].
    + intros (Hcalls & Hle & Hok)%IH. simpl in *. split; [done|].
      split; [lia|]. intros cs Hcs. rewrite (Hok cs Hcs). lia.
    + unfold throw. intros [= <- <-]. simpl. split; [done|]. split; [lia|done].
Qed.

(** X8.  [cluster] sends no request to the provider, and takes from
    [Math.random] one value per cluster asked for: exactly [numClusters]
    values when it returns clusters of a store that has that many
    entries, none when the store has fewer. *)
Theorem cluster_takes_numClusters_random_values (vectors : list entry)
    (numClusters : Z) (w w' : world) (out : outcome (list (list entry))) :
  cluster Math_random vectors numClusters w = (out, w') ->
  calls w' = calls w /\
  (randoms w <= randoms w' <= randoms w + Z.to_nat numClusters)%nat /\
  (forall clusters, out = Ok clusters ->
     randoms w' =
       if decide (Z.of_nat (length vectors) < numClusters) then randoms w
       else (randoms w + Z.to_nat numClusters)%nat).
Proof.
  rewrite cluster_of_rounds. unfold cluster_rounds.
  case_decide as Hk.
  - unfold mret, M_ret, ret. intros [= <- <-]. split; [done|]. split; [lia|done].
  - unfold mbind, M_bind, bind.
    destruct (init_centroids Math_random vectors (Z.to_nat numClusters) [] w)
      as [[centroids|e] w1] eqn:Einit;
      apply init_centroids_world in Einit as (Hcalls & Hle & Hok).
    + destruct (stateless_refine vectors numClusters maxIterations centroids
                  [] 0%nat) as [out1 Hout1].
      rewrite Hout1. specialize (Hok centroids eq_refl).
      destruct out1 as [[clusters1 rounds]|e]; unfold mret, M_ret, ret;
        intros [= <- <-]; (split; [done|]); (split; [lia|]); [done..].
    + intros [= <- <-]. split; [done|]. split; [lia|done].
Qed.

(** X9.  Asked for no cluster, [cluster] returns none on the empty store and
    ends with a [TypeError] on any other; asked for a negative number of
    clusters, it ends with a [RangeError]. *)
Theorem cluster_asked_for_no_cluster (vectors : list entry)
    (numClusters : Z) (w : world) :
  numClusters <= 0 ->
  cluster Math_random vectors numClusters w =
    (if decide (numClusters < 0) then Throw RangeError
     else match vectors with
          | [] => Ok []
          | _ :: _ => Throw TypeError
          end, w).
Proof.
  intros Hk. destruct vectors as [|v vectors].
  - case_decide as Hneg.
    + rewrite cluster_of_rounds. unfold cluster_rounds.
      rewrite decide_False by (simpl; lia).
      replace (Z.to_nat numClusters) with 0%nat by lia.
      cbn [init_centroids]. unfold mbind, M_bind, bind, mret, M_ret, ret.
      unfold maxIterations. cbn [refine].
      unfold mbind, M_bind, bind, round, mbind, M_bind, bind, assign,
        mbind, M_bind, bind, new_clusters.
      by rewrite decide_False by lia.
    + replace numClusters with 0 by lia. reflexivity.
  - rewrite cluster_throws_without_clusters by done.
    repeat case_decide; try lia; done.
Qed.

End ClusterMore.

Section ClusterMoreExamples.

Import InMemoryVectorStore Spec Samples.

Lemma cluster_returns_at_most_numClusters_witness :
  exists clusters w',
    cluster tape [js; py; both] 2 w0 = (Ok clusters, w') /\
    Z.of_nat (length clusters) <= 2.
Proof.
  assert (exists clusters w',
            cluster tape [js; py; both] 2 w0 = (Ok clusters, w'))
    as (clusters & w' & E) by (eexists _, _; vm_compute; reflexivity).
  exists clusters, w'. split; [exact E|].
  exact (cluster_returns_at_most_numClusters tape [js; py; both] 2 w0 w'
           clusters E).
Defined.

Lemma cluster_groups_by_centroid_witness :
  ¬ Z.of_nat (length [js; py; both]) < 2 /\
  exists clusters w' centroids,
    cluster tape [js; py; both] 2 w0 = (Ok clusters, w') /\
    Z.of_nat (length centroids) = 2 /\
    (best_cluster (vector js) centroids = best_cluster (vector both) centroids
     <-> exists members, members ∈ clusters /\ js ∈ members /\ both ∈ members).
Proof.
  assert (¬ Z.of_nat (length [js; py; both]) < 2) as Hlarge by (simpl; lia).
  split; [exact Hlarge|].
  assert (exists clusters w',
            cluster tape [js; py; both] 2 w0 = (Ok clusters, w'))
    as (clusters & w' & E) by (eexists _, _; vm_compute; reflexivity).
  destruct (cluster_groups_by_centroid tape [js; py; both] 2 w0 w' clusters
              Hlarge E) as (centroids & Hlen & Hgroups).
  exists clusters, w', centroids. split; [exact E|]. split; [exact Hlen|].
  apply Hgroups.
  - apply list_elem_of_here.
  - apply list_elem_of_further, list_elem_of_further, list_elem_of_here.
Defined.

Lemma cluster_keeps_zero_vectors_together_witness :
  exists clusters w' members,
    cluster tape [blank; js; blank] 2 w0 = (Ok clusters, w') /\
    members ∈ clusters /\ blank ∈ members.
Proof.
  assert (exists clusters w',
            cluster tape [blank; js; blank] 2 w0 = (Ok clusters, w'))
    as (clusters & w' & E) by (eexists _, _; vm_compute; reflexivity).
  destruct (cluster_keeps_zero_vectors_together tape [blank; js; blank] 2
              w0 w' clusters blank blank E)
    as (members & Hmembers & Hin & _).
  - apply list_elem_of_here.
  - apply list_elem_of_here.
  - repeat constructor.
  - repeat constructor.
  - exists clusters, w', members. split; [exact E|]. split; [exact Hmembers|].
    exact Hin.
Defined.

Lemma cluster_takes_numClusters_random_values_witness :
  exists out w',
    cluster tape [js; py; both] 2 w0 = (out, w') /\
    calls w' = calls w0 /\
    (randoms w0 <= randoms w' <= randoms w0 + Z.to_nat 2)%nat.
Proof.
  assert (exists out w', cluster tape [js; py; both] 2 w0 = (out, w'))
    as (out & w' & E) by (eexists _, _; vm_compute; reflexivity).
  exists out, w'. split; [exact E|].
  destruct (cluster_takes_numClusters_random_values tape [js; py; both] 2
              w0 w' out E) as (Hcalls & Hle & _).
  split; [exact Hcalls|exact Hle].
Defined.

Lemma cluster_asked_for_no_cluster_witness :
  0 <= 0 /\ cluster tape [js; py] 0 w0 = (Throw TypeError, w0).
Proof.
  split; [lia|].
  exact (cluster_asked_for_no_cluster tape [js; py] 0 w0 ltac:(lia)).
Defined.

End ClusterMoreExamples.

(** ** [add] followed by [search] *)

Section RoundTrip.

Import InMemoryVectorStore Spec.

Context (ollama : Ollama).

(** X10.  An entry that [add] has stored is found again: a [search] that asks
    for at least as many results as the store has entries returns it,
    with the id it was added under, the embedding of its text, its text
    under ["text"] of its metadata, and its similarity to the query. *)
Theorem add_then_search_finds_entry (vectors vectors' : list entry)
    (id0 text : string) (metadata0 : gmap string value) (w w1 : world)
    (query : string) (queryVector : list number) (topK : Z) :
  add ollama vectors id0 text metadata0 w = (Ok vectors', w1) ->
  Runtime.embeddings ollama "nomic-embed-text" query = Some queryVector ->
  Z.of_nat (length vectors') <= topK ->
  exists results w2 r embedding,
    search ollama vectors' query topK w1 = (Ok results, w2) /\
    r ∈ results /\
    Runtime.embeddings ollama "nomic-embed-text" text = Some embedding /\
    s_id r = id0 /\ s_vector r = embedding /\
    s_metadata r !! "text" = Some (VString text) /\
    similarity r = cosineSimilarity queryVector embedding.
Proof.
  rewrite add_unfold.
  destruct (Runtime.embeddings ollama "nomic-embed-text" text) as [e|] eqn:He;
    [|done].
  intros [= <- <-] Hq Hk. rewrite search_unfold, Hq.
  eexists _, _,
    (with_similarity
       {| id := id0; vector := e;
          metadata := <["text" := VString text]> metadata0 |}
       (cosineSimilarity queryVector e)), e.
  split; [done|].
  split; [|simpl; repeat split; try done; apply lookup_insert_eq].
  rewrite slice0_nonneg by lia. rewrite take_ge.
  - rewrite sort_perm, map_fmap. apply list_elem_of_fmap.
    eexists. split; [|apply elem_of_app; right; apply list_elem_of_here].
    done.
  - rewrite sort_perm, length_map. lia.
Qed.

End RoundTrip.

(** ** The order inside a cluster *)

Section StoreOrder.

Import InMemoryVectorStore Spec.

Context (Math_random : nat -> number).

Lemma assign_loop_sublist (centroids : list (list number))
    (todo : list entry) :
  forall (visited : list entry) (clusters clusters' : list (list entry))
         (w w' : world),
    Forall (fun cluster => cluster `sublist_of` visited) clusters ->
    for_of (fun clusters v =>
              push_to clusters (best_cluster (vector v) centroids) v)
           todo clusters w = (Ok clusters', w') ->
    Forall (fun cluster => cluster `sublist_of` visited ++ todo) clusters'.
Proof.
  induction todo as [|v todo IH]; intros visited clusters clusters' w w' Hsub;
    simpl.
  - unfold ret. intros [= <- _]. by rewrite app_nil_r.
  - unfold bind.
    destruct (push_to clusters _ v w) as [[clusters1|e] w1] eqn:E; [|done].
    apply push_to_ok in E as (members & Hmembers & ->).
    intros Hloop. apply (IH (visited ++ [v])) in Hloop.
    + by rewrite <- app_assoc in Hloop.
    + apply Forall_insert.
      * eapply Forall_impl; [exact Hsub|]. intros cluster Hc.
        by apply sublist_inserts_r.
      * apply sublist_app; [|done].
        exact (Forall_lookup_1 _ _ _ _ Hsub Hmembers).
Qed.

(** X11.  Every returned cluster lists its members in the order in which the
    store holds them. *)
Theorem cluster_members_in_store_order (vectors : list entry)
    (numClusters : Z) (w w' : world) (clusters : list (list entry)) :
  cluster Math_random vectors numClusters w = (Ok clusters, w') ->
  Forall (fun cluster => cluster `sublist_of` vectors) clusters.
Proof.
  intros Hcluster.
  destruct (decide (Z.of_nat (length vectors) < numClusters)) as [Hk|Hk].
  - rewrite cluster_of_rounds, cluster_rounds_small in Hcluster by done.
    injection Hcluster as <- _. by constructor.
  - apply cluster_last_assignment in Hcluster
      as (centroids & clusters1 & _ & Hassign & ->); [|done].
    apply Forall_forall. intros cluster [_ Hc]%list_elem_of_filter.
    revert Hassign. unfold assign, mbind, M_bind, bind.
    destruct (new_clusters numClusters w') as [[clusters0|e] w0] eqn:E; [|done].
    apply new_clusters_ok in E as ->. intros Hloop.
    apply (assign_loop_sublist centroids vectors []) in Hloop.
    + eapply Forall_forall in Hloop; [exact Hloop|done].
    + apply Forall_replicate. constructor.
Qed.

End StoreOrder.

Section RoundTripExamples.

Import InMemoryVectorStore Spec Samples.

Lemma add_then_search_finds_entry_witness :
  exists vectors' w1 results w2 r,
    add stub [js] "p" "py" ∅ w0 = (Ok vectors', w1) /\
    Runtime.embeddings stub "nomic-embed-text" "web" = Some [one; half] /\
    Z.of_nat (length vectors') <= 5 /\
    search stub vectors' "web" 5 w1 = (Ok results, w2) /\
    r ∈ results /\ s_id r = "p".
Proof.
  assert (exists vectors' w1, add stub [js] "p" "py" ∅ w0 = (Ok vectors', w1))
    as (vectors' & w1 & Eadd) by (eexists _, _; reflexivity).
  assert (Z.of_nat (length vectors') <= 5) as Hk.
  { rewrite add_unfold in Eadd. injection Eadd as <- _. simpl. lia. }
  destruct (add_then_search_finds_entry stub [js] vectors' "p" "py" ∅ w0 w1
              "web" [one; half] 5 Eadd eq_refl Hk)
    as (results & w2 & r & e & Hsearch & Hr & _ & Hid & _).
  exists vectors', w1, results, w2, r.
  split; [exact Eadd|]. split; [reflexivity|]. split; [exact Hk|].
  split; [exact Hsearch|]. split; [exact Hr|exact Hid].
Defined.

Lemma cluster_members_in_store_order_witness :
  exists clusters w',
    cluster tape [js; py; both] 2 w0 = (Ok clusters, w') /\
    Forall (fun cluster => cluster `sublist_of` [js; py; both]) clusters.
Proof.
  assert (exists clusters w',
            cluster tape [js; py; both] 2 w0 = (Ok clusters, w'))
    as (clusters & w' & E) by (eexists _, _; vm_compute; reflexivity).
  exists clusters, w'. split; [exact E|].
  exact (cluster_members_in_store_order tape [js; py; both] 2 w0 w'
           clusters E).
Defined.

End RoundTripExamples.

(** ** Filling a [SimpleRAG] object *)

Section Filling.

Import SimpleRAG Spec.

Context (ollama : Ollama).

#[local] Abbreviation embed := (Runtime.embeddings ollama "nomic-embed-text").

Lemma world_eta (w : world) :
  {| calls := calls w ++ []; randoms := randoms w |} = w.
Proof. destruct w. simpl. by rewrite app_nil_r. Qed.

Lemma generate_from (texts : list string) :
  forall (acc : list (list number)) (w : world),
    for_of (fun embeddings text =>
              embedding ← ollama_embeddings ollama "nomic-embed-text" text;
              mret (embeddings ++ [embedding]))
           texts acc w =
    (match mapM embed texts with
     | Some es => Ok (acc ++ es)
     | None => Throw ProviderError
     end,
     {| calls := calls w ++ embeddings_calls (requested ollama texts);
        randoms := randoms w |}).
Proof.
  induction texts as [|text texts IH]; intros acc w.
  - simpl. unfold ret. by rewrite app_nil_r, world_eta.
  - cbn [for_of requested]. unfold bind at 1.
    unfold mbind, M_bind, bind, ollama_embeddings. cbn [mapM].
    destruct (embed text) as [e|]; simpl.
    + rewrite IH. unfold log. simpl.
      destruct (mapM embed texts) as [es|]; simpl;
        rewrite <- !app_assoc; done.
    + done.
Qed.

(** X12.  [generate] asks for the embedding of each text in turn and returns
    the embeddings in the order of the texts; it stops at the first text
    the provider rejects, without asking for the later ones. *)
Theorem generate_embeds_texts_in_order (texts : list string) (w : world) :
  generate ollama texts w =
    (match mapM embed texts with
     | Some es => Ok es
     | None => Throw ProviderError
     end,
     {| calls := calls w ++ embeddings_calls (requested ollama texts);
        randoms := randoms w |}) /\
  (Forall (fun text => is_Some (embed text)) texts ->
   requested ollama texts = texts).
Proof.
  split.
  - unfold generate. rewrite generate_from.
    by destruct (mapM embed texts).
  - induction 1 as [|text texts [e He] _ IH]; simpl; [done|].
    by rewrite He, IH.
Qed.

Lemma addDocument_unfold (this : state) (id0 content0 : string)
    (metadata0 : option (gmap string value)) (w : world) :
  addDocument ollama this id0 content0 metadata0 w =
  match embed content0 with
  | Some e =>
      (Ok {| documents :=
               documents this ++
               [{| id := id0; content := content0; metadata := metadata0 |}];
             embeddings := embeddings this ++ [e] |},
       log (EmbeddingsCall "nomic-embed-text" content0) w)
  | None =>
      (Throw ProviderError, log (EmbeddingsCall "nomic-embed-text" content0) w)
  end.
Proof.
  unfold addDocument, mbind, M_bind, bind. rewrite generate_one.
  by destruct (embed content0).
Qed.

(** X13.  [addDocuments] appends the documents in their order and, next to
    them, the embeddings of their contents, after one request per
    document; at the first content the provider rejects it ends with that
    failure, and no request is sent for the documents after it. *)
Theorem addDocuments_appends_in_order (docs : list document) :
  forall (this : state) (w : world),
    addDocuments ollama this docs w =
      (match mapM embed (content <$> docs) with
       | Some es =>
           Ok {| documents := documents this ++ docs;
                 embeddings := embeddings this ++ es |}
       | None => Throw ProviderError
       end,
       {| calls :=
            calls w ++ embeddings_calls (requested ollama (content <$> docs));
          randoms := randoms w |}).
Proof.
  unfold addDocuments.
  induction docs as [|doc docs IH]; intros this w.
  - simpl. unfold ret. rewrite world_eta, !app_nil_r. by destruct this.
  - cbn [for_of]. unfold bind at 1. rewrite addDocument_unfold.
    rewrite fmap_cons. cbn [mapM requested].
    destruct (embed (content doc)) as [e|]; simpl; [|done].
    rewrite IH. unfold log. simpl.
    destruct (mapM embed (content <$> docs)) as [es|]; simpl;
      rewrite <- !app_assoc; [|done].
    by destruct doc.
Qed.

Lemma InPlace_addDocument_unfold (this : state) (id0 content0 : string)
    (metadata0 : option (gmap string value)) (w : world) :
  InPlace.addDocument ollama this id0 content0 metadata0 w =
  match embed content0 with
  | Some e =>
      (Ok (),
       {| documents :=
            documents this ++
            [{| id := id0; content := content0; metadata := metadata0 |}];
          embeddings := embeddings this ++ [e] |},
       log (EmbeddingsCall "nomic-embed-text" content0) w)
  | None =>
      (Throw ProviderError, pushed this id0 content0 metadata0,
       log (EmbeddingsCall "nomic-embed-text" content0) w)
  end.
Proof.
  unfold InPlace.addDocument. rewrite generate_one.
  by destruct (embed content0).
Qed.

(** The two readings of [addDocument] and [addDocuments] agree: the same
    outcome, the same requests, and when the call returns the same object. *)
Lemma InPlace_addDocument_agrees (this : state) (id0 content0 : string)
    (metadata0 : option (gmap string value)) (w : world) :
  addDocument ollama this id0 content0 metadata0 w =
  match InPlace.addDocument ollama this id0 content0 metadata0 w with
  | (Ok _, this', w') => (Ok this', w')
  | (Throw e, _, w') => (Throw e, w')
  end.
Proof.
  rewrite InPlace_addDocument_unfold, addDocument_unfold.
  by destruct (embed content0).
Qed.

Lemma InPlace_addDocuments_agrees (docs : list document) :
  forall (this : state) (w : world),
    addDocuments ollama this docs w =
    match InPlace.addDocuments ollama this docs w with
    | (Ok _, this', w') => (Ok this', w')
    | (Throw e, _, w') => (Throw e, w')
    end.
Proof.
  induction docs as [|doc docs IH]; intros this w; [done|].
  unfold addDocuments. cbn [for_of InPlace.addDocuments]. unfold bind at 1.
  rewrite InPlace_addDocument_unfold, addDocument_unfold.
  destruct (embed (content doc)); [apply IH|done].
Qed.

(** X14.  A rejected embedding request leaves the document of [addDocument]
    stored without an embedding, and the next document added takes its
    place: the embedding of the next document is paired, in the object
    and in every hit of a search, with the rejected document. *)
Theorem addDocument_after_rejection_pairs_wrong_document (this : state)
    (id1 content1 : string) (metadata1 : option (gmap string value))
    (id2 content2 : string) (metadata2 : option (gmap string value))
    (e2 : list number) (w : world) :
  length (documents this) = length (embeddings this) ->
  embed content1 = None ->
  embed content2 = Some e2 ->
  exists this1 w1 this2 w2,
    InPlace.addDocument ollama this id1 content1 metadata1 w =
      (Throw ProviderError, this1, w1) /\
    InPlace.addDocument ollama this1 id2 content2 metadata2 w1 =
      (Ok (), this2, w2) /\
    let n := length (embeddings this) in
    let rejected :=
      {| id := id1; content := content1; metadata := metadata1 |} in
    documents this1 = documents this ++ [rejected] /\
    embeddings this1 = embeddings this /\
    embeddings this2 !! n = Some e2 /\
    documents this2 !! n = Some rejected /\
    forall query topK w3 hits w4 h,
      search ollama this2 query topK w3 = (Ok hits, w4) ->
      h ∈ hits -> index h = n -> doc h = Some rejected.
Proof.
  intros Hlen H1 H2. eexists _, _, _, _.
  split; [by rewrite InPlace_addDocument_unfold, H1|].
  split; [by rewrite InPlace_addDocument_unfold, H2|].
  simpl. split; [done|]. split; [done|].
  assert ((embeddings this ++ [e2]) !! length (embeddings this) = Some e2)
    as He by apply list_lookup_middle, eq_refl.
  assert (((documents this ++
            [{| id := id1; content := content1; metadata := metadata1 |}]) ++
           [{| id := id2; content := content2; metadata := metadata2 |}])
            !! length (embeddings this) =
          Some {| id := id1; content := content1; metadata := metadata1 |})
    as Hd.
  { apply lookup_app_l_Some. by apply list_lookup_middle. }
  split; [done|]. split; [done|].
  intros query topK w3 hits w4 h. rewrite rag_search_unfold.
  destruct (embed query) as [q|]; [|done].
  intros [= <- _] Hh Hindex. apply elem_of_slice0_sort in Hh.
  apply list_elem_of_lookup in Hh as [i Hi].
  apply list_lookup_imap_Some in Hi as (e & _ & ->). simpl in *.
  by subst i.
Qed.

Lemma InPlace_addDocument_covers (this this' : state) (id0 content0 : string)
    (metadata0 : option (gmap string value)) (w w' : world)
    (out : outcome ()) :
  (length (embeddings this) <= length (documents this))%nat ->
  InPlace.addDocument ollama this id0 content0 metadata0 w = (out, this', w') ->
  (length (embeddings this') <= length (documents this'))%nat.
Proof.
  intros Hcover. rewrite InPlace_addDocument_unfold.
  destruct (embed content0); intros [= _ <- _]; simpl;
    rewrite ?length_app; simpl; lia.
Qed.

Lemma InPlace_addDocuments_covers (docs : list document) :
  forall (this this' : state) (w w' : world) (out : outcome ()),
    (length (embeddings this) <= length (documents this))%nat ->
    InPlace.addDocuments ollama this docs w = (out, this', w') ->
    (length (embeddings this') <= length (documents this'))%nat.
Proof.
  induction docs as [|doc docs IH]; intros this this' w w' out Hcover;
    cbn [InPlace.addDocuments].
  - by intros [= _ <- _].
  - destruct (InPlace.addDocument ollama this (id doc) (content doc)
                (metadata doc) w) as [[[[]|e] this1] w1] eqn:E;
      apply InPlace_addDocument_covers in E; try done.
    + by apply IH.
    + by intros [= _ <- _].
Qed.

Lemma reachable_covers (this : state) :
  reachable ollama this ->
  (length (embeddings this) <= length (documents this))%nat.
Proof.
  induction 1 as [|this id0 content0 metadata0 w out this' w' _ IH E
                  |this docs w out this' w' _ IH E].
  - done.
  - by eapply InPlace_addDocument_covers.
  - by eapply InPlace_addDocuments_covers.
Qed.

Lemma search_hits_documented (this : state) (query : string) (topK : Z)
    (w w' : world) (hits : list hit) :
  (length (embeddings this) <= length (documents this))%nat ->
  search ollama this query topK w = (Ok hits, w') ->
  exists docs, Forall2 (fun h d => doc h = Some d) hits docs.
Proof.
  intros Hcover. rewrite rag_search_unfold.
  destruct (embed query) as [q|]; [|done]. intros [= <- _].
  apply hits_have_documents, Forall_forall. intros h Hh.
  apply elem_of_slice0_sort in Hh.
  apply list_elem_of_lookup in Hh as [i Hi].
  apply list_lookup_imap_Some in Hi as (e & He & ->). simpl.
  apply lookup_lt_is_Some_2. apply lookup_lt_Some in He. lia.
Qed.

(** X15.  However a [SimpleRAG] object was filled, rejected requests
    included, it holds a document for each of its embeddings, and
    [query] on it ends either with an answer or with the failure of a
    provider request: never with a [TypeError] for a hit without
    document. *)
Theorem query_on_reachable_object (this : state) :
  reachable ollama this ->
  (length (embeddings this) <= length (documents this))%nat /\
  forall question topK w out w',
    query ollama this question topK w = (out, w') ->
    forall e, out = Throw e -> e = ProviderError.
Proof.
  intros Hcover%reachable_covers. split; [done|].
  intros question topK w out w'. unfold query, mbind, M_bind, bind.
  destruct (search ollama this question topK w) as [[hits|e0] w1] eqn:Es.
  - destruct (search_hits_documented _ _ _ _ _ _ Hcover Es) as [docs Hdocs].
    rewrite (map_documents_ok _ hits docs) by done.
    unfold ollama_chat. destruct (Runtime.chat ollama "llama3.2" _).
    + rewrite (map_documents_ok _ hits docs) by done.
      unfold mret, M_ret, ret. by intros [= <- _] e.
    + by intros [= <- _] e [= <-].
  - rewrite rag_search_unfold in Es. destruct (embed question); [done|].
    injection Es as <- _. by intros [= <- _] e [= <-].
Qed.

End Filling.

Section FillingExamples.

Import SimpleRAG Spec Samples.

Lemma addDocument_after_rejection_pairs_wrong_document_witness :
  length (documents new) = length (embeddings new) /\
  Runtime.embeddings stub "nomic-embed-text" "unknown" = None /\
  Runtime.embeddings stub "nomic-embed-text" "js" = Some [one; zero] /\
  exists this2,
    embeddings this2 !! 0%nat = Some [one; zero] /\
    documents this2 !! 0%nat =
      Some {| id := "first"; content := "unknown"; metadata := None |}.
Proof.
  split; [reflexivity|]. split; [reflexivity|]. split; [reflexivity|].
  destruct (addDocument_after_rejection_pairs_wrong_document stub new
              "first" "unknown" None "second" "js" None [one; zero] w0
              eq_refl eq_refl eq_refl)
    as (this1 & w1 & this2 & w2 & _ & _ & _ & _ & He & Hd & _).
  exists this2. split; [exact He|exact Hd].
Defined.

Lemma query_on_reachable_object_witness :
  exists this,
    reachable stub this /\
    (length (embeddings this) <= length (documents this))%nat.
Proof.
  assert (exists out this w',
            InPlace.addDocument stub new "first" "js" None w0 =
              (out, this, w')) as (out & this & w' & E)
    by (eexists _, _, _; reflexivity).
  assert (reachable stub this) as Hreach
    by exact (reachable_addDocument stub new "first" "js" None w0 out this w'
                (reachable_new stub) E).
  exists this. split; [exact Hreach|].
  exact (proj1 (query_on_reachable_object stub this Hreach)).
Defined.

End FillingExamples.

(** ** Filling an [InMemoryVectorStore] and its statistics *)

Section Statistics.

Import InMemoryVectorStore Spec.

Context (ollama : Ollama) (JSON_stringify : list entry -> string).

#[local] Abbreviation embed := (Runtime.embeddings ollama "nomic-embed-text").

(** The entry [add] stores for an insertion whose text has embedding [e]. *)
#[local] Abbreviation stored := (fun (d : insertion) (e : list number) =>
  {| id := ins_id d; vector := e;
     metadata := <["text" := VString (ins_text d)]> (ins_metadata d) |}).

Lemma add_all_from (insertions : list insertion) :
  forall (acc : list entry) (w : world),
    for_of (fun vectors d =>
              add ollama vectors (ins_id d) (ins_text d) (ins_metadata d))
           insertions acc w =
    (match mapM embed (ins_text <$> insertions) with
     | Some es => Ok (acc ++ zip_with stored insertions es)
     | None => Throw ProviderError
     end,
     {| calls :=
          calls w ++
          embeddings_calls (requested ollama (ins_text <$> insertions));
        randoms := randoms w |}).
Proof.
  induction insertions as [|d insertions IH]; intros acc w.
  - simpl. unfold ret. by rewrite world_eta, app_nil_r.
  - cbn [for_of]. unfold bind at 1. rewrite add_unfold.
    rewrite fmap_cons. cbn [mapM requested].
    destruct (embed (ins_text d)) as [e|]; simpl; [|done].
    rewrite IH. unfold log. simpl.
    destruct (mapM embed (ins_text <$> insertions)) as [es|]; simpl;
      by rewrite <- !app_assoc.
Qed.

(** X16.  Successive calls of [add] store one entry per call, in the order of
    the calls, each with the embedding of its own text, after one request
    per call; the first rejected request ends the sequence, and nothing
    is asked for the texts after it. *)
Theorem add_all_stores_in_order (insertions : list insertion) (w : world) :
  add_all ollama insertions w =
    (match mapM embed (ins_text <$> insertions) with
     | Some es => Ok (zip_with stored insertions es)
     | None => Throw ProviderError
     end,
     {| calls :=
          calls w ++
          embeddings_calls (requested ollama (ins_text <$> insertions));
        randoms := randoms w |}).
Proof. unfold add_all. by rewrite add_all_from. Qed.

(** X17.  On a store filled by successive calls of [add], [getStats] counts one
    vector per call and reports as [dimensions] the length of the
    embedding of the first text added, whatever the lengths of the
    later ones; on the empty store it reports 0. *)
Theorem getStats_after_adds (insertions : list insertion) (w w' : world)
    (vectors : list entry) :
  add_all ollama insertions w = (Ok vectors, w') ->
  totalVectors (getStats JSON_stringify vectors) = length insertions /\
  dimensions (getStats JSON_stringify vectors) =
    match insertions with
    | [] => 0%nat
    | d :: _ =>
        match embed (ins_text d) with
        | Some e => length e
        | None => 0%nat
        end
    end.
Proof.
  unfold add_all. rewrite add_all_from.
  destruct (mapM embed (ins_text <$> insertions)) as [es|] eqn:Ees; [|done].
  intros [= <- _]. simpl. split.
  - apply length_mapM in Ees. rewrite length_fmap in Ees.
    rewrite length_zip_with. lia.
  - destruct insertions as [|d insertions]; [done|].
    rewrite fmap_cons in Ees. cbn [mapM] in Ees.
    destruct (embed (ins_text d)) as [e|]; [|done]. simpl in Ees.
    destruct (mapM embed (ins_text <$> insertions)); [|done].
    by injection Ees as <-.
Qed.

End Statistics.

Section StatsExamples.

Import InMemoryVectorStore Spec Samples.

Lemma getStats_after_adds_witness :
  exists vectors w',
    add_all stub [{| ins_id := "a"; ins_text := "js"; ins_metadata := ∅ |};
                  {| ins_id := "b"; ins_text := "long"; ins_metadata := ∅ |}]
            w0 = (Ok vectors, w') /\
    totalVectors (getStats (fun _ => ""%string) vectors) = 2%nat /\
    dimensions (getStats (fun _ => ""%string) vectors) = 2%nat.
Proof.
  assert (exists vectors w',
            add_all stub
              [{| ins_id := "a"; ins_text := "js"; ins_metadata := ∅ |};
               {| ins_id := "b"; ins_text := "long"; ins_metadata := ∅ |}]
              w0 = (Ok vectors, w'))
    as (vectors & w' & E) by (eexists _, _; reflexivity).
  exists vectors, w'. split; [exact E|].
  exact (getStats_after_adds stub (fun _ => ""%string) _ w0 w' vectors E).
Defined.

End StatsExamples.

(** ** The hits of [SimpleRAG.search] and the sources of [query] *)

Section Hits.

Import SimpleRAG Spec.

Context (ollama : Ollama).

#[local] Abbreviation embed := (Runtime.embeddings ollama "nomic-embed-text").

Lemma slice0_fmap {B C : Type} (g : B -> C) (l : list B) (k : Z) :
  g <$> JS.slice0 l k = JS.slice0 (g <$> l) k.
Proof.
  unfold JS.slice0. rewrite length_fmap. case_decide; by rewrite fmap_take.
Qed.

Lemma imap_index (this : state) (q : list number) :
  index <$> imap (fun index embedding =>
                    {| index := index;
                       similarity := cosineSimilarity q embedding;
                       doc := documents this !! index |})
                 (embeddings this) =
  seq 0 (length (embeddings this)).
Proof.
  apply list_eq. intros i. rewrite list_lookup_fmap, list_lookup_imap.
  destruct (embeddings this !! i) as [e|] eqn:E; simpl.
  - symmetry. apply lookup_seq. split; [done|]. by eapply lookup_lt_Some.
  - symmetry. apply lookup_ge_None. rewrite length_seq.
    by apply lookup_ge_None.
Qed.

(** X18.  Each hit of [search] reports a position of the object, the document
    stored at that position and the similarity of the query to the
    embedding stored there; no position is reported twice, and every
    position is when [topK] is at least the number of embeddings. *)
Theorem search_hits_report_positions (this : state) (query : string)
    (topK : Z) (w w' : world) (hits : list hit) :
  search ollama this query topK w = (Ok hits, w') ->
  exists q,
    embed query = Some q /\
    Forall (fun h =>
              doc h = documents this !! index h /\
              exists e, embeddings this !! index h = Some e /\
                        similarity h = cosineSimilarity q e)
           hits /\
    NoDup (index <$> hits) /\
    (Z.of_nat (length (embeddings this)) <= topK ->
     index <$> hits ≡ₚ seq 0 (length (embeddings this))).
Proof.
  rewrite rag_search_unfold. destruct (embed query) as [q|]; [|done].
  intros [= <- _]. exists q. split; [done|].
  set (all := imap _ (embeddings this)).
  pose proof (sort_perm by_similarity all) as Hperm.
  assert (index <$> JS.sort by_similarity all ≡ₚ
          seq 0 (length (embeddings this))) as Hindex.
  { rewrite Hperm. unfold all. by rewrite imap_index. }
  split; [|split].
  - apply Forall_forall. intros h Hh. apply elem_of_slice0_sort in Hh.
    apply list_elem_of_lookup in Hh as [i Hi].
    apply list_lookup_imap_Some in Hi as (e & He & ->). simpl. eauto.
  - rewrite slice0_fmap. eapply sublist_NoDup; [|apply slice0_sublist].
    rewrite Hindex. apply NoDup_seq.
  - intros Hk. rewrite slice0_nonneg by lia. rewrite take_ge; [done|].
    apply Permutation_length in Hindex.
    rewrite length_fmap, length_seq in Hindex. lia.
Qed.

(** X19.  On an object without documents, [query] still asks the model, with
    an empty context, and returns its text with no sources. *)
Theorem query_on_new_object (question : string) (topK : Z) (w : world)
    (q : list number) :
  embed question = Some q ->
  query ollama new question topK w =
    (match Runtime.chat ollama "llama3.2" (prompt_of "" question) with
     | Some text => Ok {| answer := text; sources := [] |}
     | None => Throw ProviderError
     end,
     {| calls := calls w ++ [EmbeddingsCall "nomic-embed-text" question;
                             ChatCall "llama3.2" (prompt_of "" question)];
        randoms := randoms w |}).
Proof.
  intros Hq. unfold query, mbind, M_bind, bind.
  rewrite rag_search_unfold, Hq. simpl.
  assert (JS.slice0 (JS.sort by_similarity (@nil hit)) topK = []) as ->.
  { unfold JS.slice0, JS.sort. simpl. case_decide; apply take_nil. }
  simpl. unfold ret, ollama_chat, log. simpl.
  destruct (Runtime.chat ollama "llama3.2" _); simpl;
    by rewrite <- app_assoc.
Qed.

(** X20.  When [query] returns, it names as many sources as [search] has hits:
    [topK] of them, or one per embedding when the object has fewer. *)
Theorem query_names_topK_sources (this : state) (question : string)
    (topK : Z) (w w' : world) (result : answered) :
  (length (embeddings this) <= length (documents this))%nat ->
  0 <= topK ->
  query ollama this question topK w = (Ok result, w') ->
  length (sources result) =
    Nat.min (Z.to_nat topK) (length (embeddings this)).
Proof.
  intros Hcover Hk. unfold query, mbind, M_bind, bind.
  destruct (search ollama this question topK w) as [[hits|e0] w1] eqn:Es;
    [|done].
  destruct (search_hits_documented _ _ _ _ _ _ _ Hcover Es) as [docs Hdocs].
  rewrite (map_documents_ok _ hits docs) by done.
  destruct (ollama_chat ollama "llama3.2" _ w1) as [[text|e1] w2]; [|done].
  rewrite (map_documents_ok _ hits docs) by done.
  unfold mret, M_ret, ret. intros [= <- _]. simpl.
  rewrite length_zip_with. apply Forall2_length in Hdocs. rewrite <- Hdocs.
  rewrite Nat.min_id.
  rewrite rag_search_unfold in Es. destruct (embed question); [|done].
  injection Es as <- _. rewrite slice0_nonneg by done.
  rewrite length_take, sort_perm, length_imap. done.
Qed.

End Hits.

(** ** The two classes side by side *)

Section SideBySide.

Context (ollama : Ollama).

(** X21.  An [InMemoryVectorStore] and a [SimpleRAG] object that hold the same
    vectors under the same ids rank alike: for every query and [topK],
    the two [search] methods return the same ids with the same
    similarities in the same order. *)
Theorem both_classes_rank_alike (vectors : list InMemoryVectorStore.entry)
    (this : SimpleRAG.state) (query : string) (topK : Z) (w1 w2 w1' w2' : world)
    (results : list InMemoryVectorStore.scored) (hits : list SimpleRAG.hit) :
  SimpleRAG.embeddings this = InMemoryVectorStore.vector <$> vectors ->
  SimpleRAG.id <$> SimpleRAG.documents this =
    InMemoryVectorStore.id <$> vectors ->
  InMemoryVectorStore.search ollama vectors query topK w1 = (Ok results, w1') ->
  SimpleRAG.search ollama this query topK w2 = (Ok hits, w2') ->
  (fun r => (Some (InMemoryVectorStore.s_id r),
             InMemoryVectorStore.similarity r)) <$> results =
  (fun h => (SimpleRAG.id <$> SimpleRAG.doc h, SimpleRAG.similarity h))
    <$> hits.
Proof.
  intros Hvectors Hids. rewrite search_unfold, rag_search_unfold.
  destruct (Runtime.embeddings ollama "nomic-embed-text" query) as [q|];
    [|done].
  intros [= <- _] [= <- _]. rewrite (map_fmap _ vectors), !slice0_fmap.
  f_equal.
  set (by_pair := fun a b : option string * number => fsub b.2 a.2).
  rewrite <- (sort_fmap
                (fun r => (Some (InMemoryVectorStore.s_id r),
                           InMemoryVectorStore.similarity r)) by_pair).
  rewrite <- (sort_fmap
                (fun h => (SimpleRAG.id <$> SimpleRAG.doc h,
                           SimpleRAG.similarity h)) by_pair).
  f_equal. rewrite Hvectors. apply list_eq. intros i.
  rewrite !list_lookup_fmap, list_lookup_imap, list_lookup_fmap.
  assert (SimpleRAG.id <$> SimpleRAG.documents this !! i =
          InMemoryVectorStore.id <$> vectors !! i) as Hid.
  { by rewrite <- !list_lookup_fmap, Hids. }
  destruct (vectors !! i) as [item|]; simpl; [|done].
  rewrite Hid. reflexivity.
Qed.

End SideBySide.

Section HitsExamples.

Import Samples.

Lemma search_hits_report_positions_witness :
  exists hits w',
    SimpleRAG.search stub library "web" 3 w0 = (Ok hits, w') /\
    NoDup (SimpleRAG.index <$> hits).
Proof.
  assert (exists hits w',
            SimpleRAG.search stub library "web" 3 w0 = (Ok hits, w'))
    as (hits & w' & E) by (eexists _, _; vm_compute; reflexivity).
  exists hits, w'. split; [exact E|].
  destruct (search_hits_report_positions stub library "web" 3 w0 w' hits E)
    as (q & _ & _ & Hnodup & _).
  exact Hnodup.
Defined.

Lemma query_on_new_object_witness :
  Runtime.embeddings stub "nomic-embed-text" "web" = Some [one; half] /\
  exists w',
    SimpleRAG.query stub SimpleRAG.new "web" 3 w0 =
      (Ok {| SimpleRAG.answer := "JavaScript"; SimpleRAG.sources := [] |}, w').
Proof.
  split; [reflexivity|]. eexists.
  exact (query_on_new_object stub "web" 3 w0 [one; half] eq_refl).
Defined.

Lemma query_names_topK_sources_witness :
  (length (SimpleRAG.embeddings library) <=
   length (SimpleRAG.documents library))%nat /\
  0 <= 1 /\
  exists result w',
    SimpleRAG.query stub library "web" 1 w0 = (Ok result, w') /\
    length (SimpleRAG.sources result) = 1%nat.
Proof.
  split; [simpl; lia|]. split; [lia|].
  assert (exists result w',
            SimpleRAG.query stub library "web" 1 w0 = (Ok result, w'))
    as (result & w' & E) by (eexists _, _; vm_compute; reflexivity).
  exists result, w'. split; [exact E|].
  exact (query_names_topK_sources stub library "web" 1 w0 w' result
           ltac:(simpl; lia) ltac:(lia) E).
Defined.

Lemma both_classes_rank_alike_witness :
  SimpleRAG.embeddings library = InMemoryVectorStore.vector <$> [js; py] /\
  SimpleRAG.id <$> SimpleRAG.documents library =
    InMemoryVectorStore.id <$> [js; py] /\
  exists results hits w1 w2,
    InMemoryVectorStore.search stub [js; py] "web" 2 w0 = (Ok results, w1) /\
    SimpleRAG.search stub library "web" 2 w0 = (Ok hits, w2) /\
    (fun r => (Some (InMemoryVectorStore.s_id r),
               InMemoryVectorStore.similarity r)) <$> results =
    (fun h => (SimpleRAG.id <$> SimpleRAG.doc h, SimpleRAG.similarity h))
      <$> hits.
Proof.
  split; [reflexivity|]. split; [reflexivity|].
  assert (exists results w1,
            InMemoryVectorStore.search stub [js; py] "web" 2 w0 =
              (Ok results, w1))
    as (results & w1 & E1) by (eexists _, _; vm_compute; reflexivity).
  assert (exists hits w2,
            SimpleRAG.search stub library "web" 2 w0 = (Ok hits, w2))
    as (hits & w2 & E2) by (eexists _, _; vm_compute; reflexivity).
  exists results, hits, w1, w2. split; [exact E1|]. split; [exact E2|].
  exact (both_classes_rank_alike stub [js; py] library "web" 2 w0 w0 w1 w2
           results hits eq_refl eq_refl E1 E2).
Defined.

End HitsExamples.

(** ** [addDocuments] and a rejected request *)

Section FillingMore.

Import SimpleRAG Spec.

Context (ollama : Ollama).

#[local] Abbreviation embed := (Runtime.embeddings ollama "nomic-embed-text").

(** X22.  [addDocuments] is not undone by a rejected request: the documents
    before the rejected one stay added with their embeddings, the
    rejected one stays stored without an embedding, and the documents
    after it are not added. *)
Theorem addDocuments_keeps_what_it_added (docs : list document) :
  forall (this this' : state) (w w' : world) (out : outcome ()),
    InPlace.addDocuments ollama this docs w = (out, this', w') ->
    let asked := length (requested ollama (content <$> docs)) in
    documents this' = documents this ++ take asked docs /\
    exists es,
      embeddings this' = embeddings this ++ es /\
      Forall2 (fun doc e => embed (content doc) = Some e)
              (take (length es) docs) es /\
      match out with
      | Ok _ => length es = length docs
      | Throw e => e = ProviderError /\ S (length es) = asked
      end.
Proof.
  induction docs as [|doc docs IH]; intros this this' w w' out;
    cbn [InPlace.addDocuments].
  - intros [= <- <- _]. simpl. rewrite app_nil_r. split; [done|].
    exists []. by rewrite app_nil_r.
  - rewrite InPlace_addDocument_unfold, fmap_cons. cbn [requested].
    destruct (embed (content doc)) as [e|] eqn:He.
    + intros (Hdocs & es & Hes & Hall & Hout)%IH. simpl in *.
      split.
      { rewrite Hdocs, <- app_assoc. by destruct doc. }
      exists (e :: es). split; [by rewrite Hes, <- app_assoc|].
      split; [by constructor|].
      destruct out as [[]|e0]; simpl; [lia|].
      destruct Hout as [-> Hasked]. split; [done|lia].
    + intros [= <- <- _]. simpl. split; [by destruct doc|].
      exists []. by rewrite app_nil_r.
Qed.

End FillingMore.

(** ** One cluster *)

Section OneCluster.

Import InMemoryVectorStore Spec.

Context (Math_random : nat -> number).

Lemma assign_loop_first (centroids : list (list number))
    (todo : list entry) :
  forall (members : list entry) (rest : list (list entry)) (w : world),
    Forall (fun item => best_cluster (vector item) centroids = 0%nat) todo ->
    for_of (fun clusters v =>
              push_to clusters (best_cluster (vector v) centroids) v)
           todo (members :: rest) w =
    (Ok ((members ++ todo) :: rest), w).
Proof.
  induction todo as [|v todo IH]; intros members rest w Hall; simpl.
  - by rewrite app_nil_r.
  - apply Forall_cons in Hall as [Hv Hall]. unfold bind, push_to.
    rewrite Hv. simpl. rewrite IH by done. by rewrite <- app_assoc.
Qed.

(** X23.  Asked for one cluster, [cluster] returns the whole store as one
    cluster, its entries in the order of the store. *)
Theorem cluster_asked_for_one_cluster (vectors : list entry) (w w' : world)
    (clusters : list (list entry)) :
  cluster Math_random vectors 1 w = (Ok clusters, w') ->
  clusters = [vectors].
Proof.
  intros Hcluster.
  destruct (decide (Z.of_nat (length vectors) < 1)) as [Hk|Hk].
  - rewrite cluster_of_rounds, cluster_rounds_small in Hcluster by done.
    by injection Hcluster as <- _.
  - apply cluster_last_assignment in Hcluster
      as (centroids & clusters1 & Hlen & Hassign & ->); [|done].
    revert Hassign. unfold assign, mbind, M_bind, bind, new_clusters.
    rewrite decide_True by lia. unfold mret, M_ret, ret.
    change (replicate (Z.to_nat 1) []) with [@nil entry].
    rewrite assign_loop_first.
    + intros [= <-]. simpl.
      destruct vectors; [simpl in Hk; lia|].
      by rewrite filter_cons_True by (simpl; lia).
    + apply Forall_forall. intros item _.
      pose proof (best_cluster_lt (vector item) centroids). lia.
Qed.

End OneCluster.

Section MoreExamples.

Import Samples.

Lemma addDocuments_keeps_what_it_added_witness :
  exists out this' w',
    SimpleRAG.InPlace.addDocuments stub SimpleRAG.new
      [{| SimpleRAG.id := "a"; SimpleRAG.content := "js";
          SimpleRAG.metadata := None |};
       {| SimpleRAG.id := "b"; SimpleRAG.content := "unknown";
          SimpleRAG.metadata := None |};
       {| SimpleRAG.id := "c"; SimpleRAG.content := "py";
          SimpleRAG.metadata := None |}] w0 = (out, this', w') /\
    length (SimpleRAG.documents this') = 2%nat.
Proof.
  assert (exists out this' w',
            SimpleRAG.InPlace.addDocuments stub SimpleRAG.new
              [{| SimpleRAG.id := "a"; SimpleRAG.content := "js";
                  SimpleRAG.metadata := None |};
               {| SimpleRAG.id := "b"; SimpleRAG.content := "unknown";
                  SimpleRAG.metadata := None |};
               {| SimpleRAG.id := "c"; SimpleRAG.content := "py";
                  SimpleRAG.metadata := None |}] w0 = (out, this', w'))
    as (out & this' & w' & E) by (eexists _, _, _; reflexivity).
  exists out, this', w'. split; [exact E|].
  destruct (addDocuments_keeps_what_it_added stub _ _ _ _ _ _ E)
    as [Hdocs _].
  rewrite Hdocs. reflexivity.
Defined.

Lemma cluster_asked_for_one_cluster_witness :
  exists clusters w',
    InMemoryVectorStore.cluster tape [js; py; both] 1 w0 = (Ok clusters, w') /\
    clusters = [[js; py; both]].
Proof.
  assert (exists clusters w',
            InMemoryVectorStore.cluster tape [js; py; both] 1 w0 =
              (Ok clusters, w'))
    as (clusters & w' & E) by (eexists _, _; vm_compute; reflexivity).
  exists clusters, w'. split; [exact E|].
  exact (cluster_asked_for_one_cluster tape [js; py; both] w0 w' clusters E).
Defined.

End MoreExamples.
